(** * Mermaid ER server: parser, DDL generator and CRUD query builder

    A shallow embedding of [src/parser/index.ts], [src/database/sqlGenerator.ts],
    [src/database/queryBuilder.ts] and [src/types/schema.ts].

    Strings are sequences of UTF-16 code units in the source.  The model keeps the
    code units below 256 (the Latin-1 range): the character [ascii_of_nat n] stands
    for the code unit [n].  Every literal of the source lies in the ASCII range;
    the white space and the letters beyond Latin-1 are outside the model. *)

From Stdlib Require Import String Ascii List Bool Arith Lia ZArith DecimalString.
From Stdlib Require Import SpecFloat.
Import ListNotations.
Open Scope string_scope.
Open Scope nat_scope.

(* ================================================================= *)
(** ** Characters and the string primitives of the host language *)

Module Js.

Definition code (c : ascii) : nat := nat_of_ascii c.

Definition between (lo hi : nat) (c : ascii) : bool :=
  (lo <=? code c) && (code c <=? hi).

Definition is_lower (c : ascii) : bool := between 97 122 c.
Definition is_upper (c : ascii) : bool := between 65 90 c.
Definition is_digit (c : ascii) : bool := between 48 57 c.
Definition is_alpha (c : ascii) : bool := is_lower c || is_upper c.
Definition is_char (d c : ascii) : bool := Ascii.eqb c d.

(** The class [\s] (and the set removed by [trim]): tab, line feed, vertical
    tab, form feed, carriage return, space and, in the Latin-1 range, the
    no-break space. *)
Definition is_space (c : ascii) : bool :=
  between 9 13 c || (code c =? 32) || (code c =? 160).

(** The class [\w]. *)
Definition is_word (c : ascii) : bool :=
  is_alpha c || is_digit c || is_char "_" c.

(** Line terminators, which [.] does not match. *)
Definition is_line_terminator (c : ascii) : bool :=
  (code c =? 10) || (code c =? 13).

Definition lower_char (c : ascii) : ascii :=
  if is_upper c || (between 192 222 c && negb (code c =? 215))
  then ascii_of_nat (code c + 32) else c.

Definition upper_char (c : ascii) : ascii :=
  if is_lower c || (between 224 254 c && negb (code c =? 247))
  then ascii_of_nat (code c - 32) else c.

Fixpoint toLowerCase (s : string) : string :=
  match s with
  | EmptyString => EmptyString
  | String c s' => String (lower_char c) (toLowerCase s')
  end.

(** [toUpperCase]; the sharp s expands to two letters.  The two code units whose
    upper case lies outside the Latin-1 range (181 and 255) are left in place:
    the source only compares the result with ASCII literals. *)
Fixpoint toUpperCase (s : string) : string :=
  match s with
  | EmptyString => EmptyString
  | String c s' =>
      if code c =? 223 then String "S" (String "S" (toUpperCase s'))
      else String (upper_char c) (toUpperCase s')
  end.

Fixpoint trimStart (s : string) : string :=
  match s with
  | EmptyString => EmptyString
  | String c s' => if is_space c then trimStart s' else s
  end.

Fixpoint trimEnd (s : string) : string :=
  match s with
  | EmptyString => EmptyString
  | String c s' =>
      match trimEnd s' with
      | EmptyString => if is_space c then EmptyString else String c EmptyString
      | t => String c t
      end
  end.

Definition trim (s : string) : string := trimEnd (trimStart s).

(** [s.split(sep)] for a separator of one character. *)
Fixpoint split (sep : ascii) (s : string) : list string :=
  match s with
  | EmptyString => [EmptyString]
  | String c s' =>
      if Ascii.eqb c sep then EmptyString :: split sep s'
      else match split sep s' with
           | [] => [String c EmptyString]
           | l :: ls => String c l :: ls
           end
  end.

(** [parts.join(sep)]. *)
Definition join (sep : string) (parts : list string) : string :=
  String.concat sep parts.

Definition startsWith (p s : string) : bool := String.prefix p s.

Fixpoint drop (n : nat) (s : string) : string :=
  match n, s with
  | S n', String _ s' => drop n' s'
  | _, _ => s
  end.

Definition take (n : nat) (s : string) : string := String.substring 0 n s.

Definition endsWith (suf s : string) : bool :=
  (String.length suf <=? String.length s)
  && String.eqb (drop (String.length s - String.length suf) s) suf.

(** [s.slice(0, -k)]. *)
Definition slice_to_minus (k : nat) (s : string) : string :=
  take (String.length s - k) s.

(** [s.includes(sub)]. *)
Fixpoint includes (sub s : string) : bool :=
  String.prefix sub s
  || match s with
     | EmptyString => false
     | String _ s' => includes sub s'
     end.

(** A decimal numeral, as a template literal prints a non-negative integer. *)
Definition of_nat (n : nat) : string := NilEmpty.string_of_uint (Nat.to_uint n).

(** The double quote and the backslash, as one-character strings. *)
Definition DQ : string := String (ascii_of_nat 34) EmptyString.
Definition BS : string := String (ascii_of_nat 92) EmptyString.
(** The line feed. *)
Definition LF : ascii := ascii_of_nat 10.
Definition NL : string := String LF EmptyString.

End Js.

(* ================================================================= *)
(** ** Regular expressions

    A backtracking matcher with the priorities of the host language: the
    alternatives of [|] are tried left to right, [*] is greedy and refuses an
    iteration that consumes nothing, and the captures travel with the
    continuation so that a branch given up leaves none behind.  None of the
    patterns of the program puts a capture group under a star. *)

Module Re.

Inductive re : Type :=
| Eps
| Chr (p : ascii -> bool)
| Seq (r1 r2 : re)
| Alt (r1 r2 : re)
| Star (r : re)
| Grp (i : nat) (r : re)
| Bol
| Eol.

Definition Caps : Type := list (nat * string).

Fixpoint cap (i : nat) (c : Caps) : option string :=
  match c with
  | [] => None
  | (j, s) :: c' => if i =? j then Some s else cap i c'
  end.

Fixpoint rmatch (r : re) (pos : nat) (s : string) (c : Caps)
         (k : nat -> string -> Caps -> option Caps) {struct r} : option Caps :=
  match r with
  | Eps => k pos s c
  | Chr p =>
      match s with
      | String a s' => if p a then k (S pos) s' c else None
      | EmptyString => None
      end
  | Seq r1 r2 =>
      rmatch r1 pos s c (fun pos' s' c' => rmatch r2 pos' s' c' k)
  | Alt r1 r2 =>
      match rmatch r1 pos s c k with
      | Some c' => Some c'
      | None => rmatch r2 pos s c k
      end
  | Star r1 =>
      (fix loop (fuel pos : nat) (s : string) (c : Caps) {struct fuel}
         : option Caps :=
         match fuel with
         | 0 => k pos s c
         | S fuel' =>
             match rmatch r1 pos s c
                     (fun pos' s' c' =>
                        if pos <? pos' then loop fuel' pos' s' c' else None)
             with
             | Some c' => Some c'
             | None => k pos s c
             end
         end) (String.length s) pos s c
  | Grp i r1 =>
      rmatch r1 pos s c
        (fun pos' s' c' => k pos' s' ((i, Js.take (pos' - pos) s) :: c'))
  | Bol => if pos =? 0 then k pos s c else None
  | Eol => match s with EmptyString => k pos s c | _ => None end
  end.

(** The search of [exec]: the leftmost start position that matches. *)
Fixpoint exec_from (r : re) (pos : nat) (s : string) : option Caps :=
  match rmatch r pos s [] (fun _ _ c => Some c) with
  | Some c => Some c
  | None =>
      match s with
      | EmptyString => None
      | String _ s' => exec_from r (S pos) s'
      end
  end.

(** [s.match(r)] for a pattern without the global flag. *)
Definition exec (r : re) (s : string) : option Caps := exec_from r 0 s.

(** [r.test(s)]. *)
Definition test (r : re) (s : string) : bool :=
  match exec r s with Some _ => true | None => false end.

(** Derived forms. *)
Definition Plus (r : re) : re := Seq r (Star r).
Definition Opt (r : re) : re := Alt r Eps.

Fixpoint Cat (rs : list re) : re :=
  match rs with
  | [] => Eps
  | [r] => r
  | r :: rs' => Seq r (Cat rs')
  end.

Fixpoint Any (rs : list re) : re :=
  match rs with
  | [] => Chr (fun _ => false)
  | [r] => r
  | r :: rs' => Alt r (Any rs')
  end.

(** A literal text, and the same under the [i] flag (ASCII letters only fold). *)
Fixpoint Lit (s : string) : re :=
  match s with
  | EmptyString => Eps
  | String a EmptyString => Chr (Js.is_char a)
  | String a s' => Seq (Chr (Js.is_char a)) (Lit s')
  end.

Definition fold_eq (a b : ascii) : bool :=
  Ascii.eqb (Js.upper_char b) (Js.upper_char a) && (Js.code b <? 128).

Fixpoint LitI (s : string) : re :=
  match s with
  | EmptyString => Eps
  | String a EmptyString => Chr (fold_eq a)
  | String a s' => Seq (Chr (fold_eq a)) (LitI s')
  end.

Definition ws : re := Chr Js.is_space.

End Re.

(* ================================================================= *)
(** ** Plain objects used as lookup tables

    [CARDINALITY_SYMBOLS] and [TYPE_MAPPING] are object literals read with
    [table[key]].  Such a read finds the own properties of the literal first
    and then the properties every object literal inherits from
    [Object.prototype]; all of the inherited ones are functions, except
    [__proto__], which reads as the prototype object.  They are all truthy. *)

Module Obj.

Inductive Inherited : Type :=
| constructor | hasOwnProperty | isPrototypeOf | propertyIsEnumerable
| toLocaleString | toString | valueOf | proto
| defineGetter | defineSetter | lookupGetter | lookupSetter.

Definition inherited_names : list (string * Inherited) :=
  [ ("constructor", constructor); ("hasOwnProperty", hasOwnProperty);
    ("isPrototypeOf", isPrototypeOf);
    ("propertyIsEnumerable", propertyIsEnumerable);
    ("toLocaleString", toLocaleString); ("toString", toString);
    ("valueOf", valueOf); ("__proto__", proto);
    ("__defineGetter__", defineGetter); ("__defineSetter__", defineSetter);
    ("__lookupGetter__", lookupGetter); ("__lookupSetter__", lookupSetter) ].

Fixpoint assoc {A : Type} (k : string) (l : list (string * A)) : option A :=
  match l with
  | [] => None
  | (k', a) :: l' => if String.eqb k' k then Some a else assoc k l'
  end.

Definition inherited (k : string) : option Inherited := assoc k inherited_names.

(** The outcome of [table[key]]. *)
Inductive Read (A : Type) : Type :=
| Own (a : A)
| FromPrototype (m : Inherited)
| Undefined.
Arguments Own {A} a.
Arguments FromPrototype {A} m.
Arguments Undefined {A}.

Definition get {A : Type} (table : list (string * A)) (k : string) : Read A :=
  match assoc k table with
  | Some a => Own a
  | None =>
      match inherited k with
      | Some m => FromPrototype m
      | None => Undefined
      end
  end.

(** What a template literal prints for an inherited value. *)
Definition show (m : Inherited) : string :=
  match m with
  | proto => "[object Object]"
  | constructor => "function Object() { [native code] }"
  | hasOwnProperty => "function hasOwnProperty() { [native code] }"
  | isPrototypeOf => "function isPrototypeOf() { [native code] }"
  | propertyIsEnumerable => "function propertyIsEnumerable() { [native code] }"
  | toLocaleString => "function toLocaleString() { [native code] }"
  | toString => "function toString() { [native code] }"
  | valueOf => "function valueOf() { [native code] }"
  | defineGetter => "function __defineGetter__() { [native code] }"
  | defineSetter => "function __defineSetter__() { [native code] }"
  | lookupGetter => "function __lookupGetter__() { [native code] }"
  | lookupSetter => "function __lookupSetter__() { [native code] }"
  end.

End Obj.

(* ================================================================= *)
(** ** The schema types ([types/schema.ts]) *)

Inductive Cardinality : Type :=
| ZERO_OR_ONE | EXACTLY_ONE | ZERO_OR_MORE | ONE_OR_MORE.

Inductive AttributeKey : Type := PK | FK | UK.

Definition AttributeKey_eqb (a b : AttributeKey) : bool :=
  match a, b with
  | PK, PK | FK, FK | UK, UK => true
  | _, _ => false
  end.

(** [keys.includes(k)]. *)
Definition keys_include (k : AttributeKey) (keys : list AttributeKey) : bool :=
  existsb (AttributeKey_eqb k) keys.

Record Attribute : Type := mkAttribute {
  attr_name : string;
  attr_type : string;
  attr_keys : list AttributeKey;
  attr_comment : option string
}.

Record Entity : Type := mkEntity {
  ent_name : string;
  ent_alias : option string;
  ent_attributes : list Attribute
}.

(** The value held by a cardinality field at run time: one of the four
    cardinalities, or whatever the symbol table handed back. *)
Inductive CardinalityValue : Type :=
| Card (c : Cardinality)
| NotACardinality (m : Obj.Inherited).

Record Relationship : Type := mkRelationship {
  firstEntity : string;
  secondEntity : string;
  firstCardinality : CardinalityValue;
  secondCardinality : CardinalityValue;
  identifying : bool;
  label : string
}.

Record DatabaseSchema : Type := mkSchema {
  schema_entities : list Entity;
  schema_relationships : list Relationship
}.

Record ParseResult : Type := mkParseResult {
  success : bool;
  schema : option DatabaseSchema;
  result_errors : option (list string)
}.

Definition CARDINALITY_SYMBOLS : list (string * Cardinality) :=
  [ ("|o", ZERO_OR_ONE); ("o|", ZERO_OR_ONE); ("||", EXACTLY_ONE);
    ("}o", ZERO_OR_MORE); ("o{", ZERO_OR_MORE);
    ("}|", ONE_OR_MORE); ("|{", ONE_OR_MORE) ].

(* ================================================================= *)
(** ** The parser ([parser/index.ts]) *)

Module PATTERNS.
Import Re.

Definition not_char (d : ascii) (c : ascii) : bool := negb (Js.is_char d c).
Definition quote : ascii := ascii_of_nat 34.

(** The first character of an identifier (a letter or an underscore) and the
    following ones (letters, digits, underscore, hyphen). *)
Definition ident_start (c : ascii) : bool := Js.is_alpha c || Js.is_char "_" c.
Definition ident_char (c : ascii) : bool :=
  Js.is_alpha c || Js.is_digit c || Js.is_char "_" c || Js.is_char "-" c.

(** The characters of a type after its first letter: those of an identifier,
    square brackets and parentheses. *)
Definition type_char (c : ascii) : bool :=
  ident_char c || Js.is_char "[" c || Js.is_char "]" c
  || Js.is_char "(" c || Js.is_char ")" c.

(** The entity name of three patterns: an identifier, or a non-empty text
    without quotes between two backslash-quote pairs. *)
Definition entity_name : re :=
  Alt (Seq (Chr ident_start) (Star (Chr ident_char)))
      (Cat [Lit Js.BS; Lit Js.DQ; Plus (Chr (not_char quote));
            Lit Js.BS; Lit Js.DQ]).

(** The optional alias in square brackets: groups 2 and 3. *)
Definition alias_part : re :=
  Opt (Grp 2 (Cat [Star ws; Lit "["; Grp 3 (Plus (Chr (not_char "]")));
                   Lit "]"])).

Definition ER_DIAGRAM_START : re :=
  Cat [Bol; Star ws; LitI "erDiagram"; Star ws; Eol].

Definition DIRECTION : re :=
  Cat [Bol; Star ws; LitI "direction"; Plus ws;
       Grp 1 (Any [LitI "TB"; LitI "BT"; LitI "LR"; LitI "RL"]);
       Star ws; Eol].

Definition ENTITY_BLOCK_START : re :=
  Cat [Bol; Star ws; Grp 1 entity_name; alias_part; Star ws; Lit "{";
       Star ws; Eol].

Definition ENTITY_BLOCK_END : re :=
  Cat [Bol; Star ws; Lit "}"; Star ws; Eol].

Definition key_word : re := Any [Lit "PK"; Lit "FK"; Lit "UK"].

Definition ATTRIBUTE : re :=
  Cat [Bol; Star ws;
       Grp 1 (Seq (Chr Js.is_alpha) (Star (Chr type_char)));
       Plus ws;
       Grp 2 (Cat [Opt (Lit "*"); Chr ident_start; Star (Chr ident_char)]);
       Opt (Cat [Plus ws;
                 Grp 3 (Seq key_word
                            (Star (Cat [Star ws; Lit ","; Star ws; key_word])))]);
       Opt (Cat [Plus ws; Lit Js.DQ; Grp 4 (Star (Chr (not_char quote)));
                 Lit Js.DQ]);
       Star ws; Eol].

Definition RELATIONSHIP : re :=
  Cat [Bol; Star ws; Grp 1 entity_name; Star ws;
       Grp 2 (Any [Lit "|o"; Lit "o|"; Lit "||"; Lit "}|"; Lit "}o";
                   Lit "o{"; Lit "|{"]);
       Grp 3 (Any [Lit "--"; Lit ".."]);
       Grp 4 (Any [Lit "o|"; Lit "o{"; Lit "||"; Lit "|o"; Lit "|{";
                   Lit "{|"; Lit "{o"]);
       Star ws; Grp 5 entity_name; Star ws; Lit ":"; Star ws;
       Opt (Lit Js.DQ); Grp 6 (Plus (Chr (not_char quote))); Opt (Lit Js.DQ);
       Star ws; Eol].

Definition STANDALONE_ENTITY : re :=
  Cat [Bol; Star ws; Grp 1 entity_name; alias_part; Star ws; Eol].

Definition COMMENT : re := Cat [Bol; Star ws; Lit "%%"].

Definition EMPTY : re := Cat [Bol; Star ws; Eol].

End PATTERNS.

(** A group that takes part in every match of its pattern. *)
Definition group (i : nat) (m : Re.Caps) : string :=
  match Re.cap i m with Some s => s | None => EmptyString end.

(** [symbol.replace(/\s/g, '')]. *)
Fixpoint remove_spaces (s : string) : string :=
  match s with
  | EmptyString => EmptyString
  | String c s' =>
      if Js.is_space c then remove_spaces s' else String c (remove_spaces s')
  end.

Definition parseCardinality (symbol : string) : CardinalityValue :=
  let normalized := remove_spaces symbol in
  if String.eqb normalized "|o" || String.eqb normalized "o|"
  then Card ZERO_OR_ONE
  else if String.eqb normalized "||" then Card EXACTLY_ONE
  else if String.eqb normalized "}o" || String.eqb normalized "o{"
          || String.eqb normalized "{o"
  then Card ZERO_OR_MORE
  else if String.eqb normalized "}|" || String.eqb normalized "|{"
          || String.eqb normalized "{|"
  then Card ONE_OR_MORE
  else match Obj.get CARDINALITY_SYMBOLS normalized with
       | Obj.Own c => Card c
       | Obj.FromPrototype m => NotACardinality m
       | Obj.Undefined => Card EXACTLY_ONE
       end.

Definition key_of_part (part : string) : option AttributeKey :=
  if String.eqb part "PK" then Some PK
  else if String.eqb part "FK" then Some FK
  else if String.eqb part "UK" then Some UK
  else None.

Definition parseAttributeKeys (keyString : option string) : list AttributeKey :=
  match keyString with
  | None => []
  | Some EmptyString => []
  | Some ks =>
      let parts := map (fun k => Js.toUpperCase (Js.trim k)) (Js.split "," ks) in
      fold_left
        (fun keys part =>
           match key_of_part part with
           | Some k => (keys ++ [k])%list
           | None => keys
           end)
        parts []
  end.

(** [s.replace(/^p/, '')] for a literal [p]. *)
Definition remove_leading (p s : string) : string :=
  if Js.startsWith p s then Js.drop (String.length p) s else s.

(** [s.replace(/p$/, '')] for a literal [p]. *)
Definition remove_trailing (p s : string) : string :=
  if Js.endsWith p s then Js.slice_to_minus (String.length p) s else s.

(** [s.replace(/^p|p$/g, '')] for a non-empty literal [p]: the leading
    occurrence goes, and then the trailing one of what is left. *)
Definition remove_ends (p s : string) : string :=
  remove_trailing p (remove_leading p s).

Definition cleanEntityName (name : string) : string :=
  remove_ends (Js.BS ++ Js.DQ) (remove_ends Js.DQ name).

(** *** The entity table: a [Map] keyed by name

    A [Map] iterates in insertion order, and [set] on a key already present
    replaces the value where it stands. *)

Module EntityMap.

Definition t : Type := list (string * Entity).

Definition has (k : string) (m : t) : bool :=
  existsb (fun kv => String.eqb (fst kv) k) m.

Fixpoint set (k : string) (v : Entity) (m : t) : t :=
  match m with
  | [] => [(k, v)]
  | (k', v') :: m' =>
      if String.eqb k' k then (k, v) :: m' else (k', v') :: set k v m'
  end.

Fixpoint get (k : string) (m : t) : option Entity :=
  match m with
  | [] => None
  | (k', v) :: m' => if String.eqb k' k then Some v else get k m'
  end.

Definition keys (m : t) : list string := map fst m.
Definition values (m : t) : list Entity := map snd m.

(** [new Map(entries)]. *)
Definition of_entries (entries : list (string * Entity)) : t :=
  fold_left (fun m kv => set (fst kv) (snd kv) m) entries [].

End EntityMap.

(** The local variables of [parseERDiagram]. *)
Record ParserState : Type := mkState {
  entities : EntityMap.t;
  relationships : list Relationship;
  errors : list string;
  inERDiagram : bool;
  currentEntity : option Entity;
  inEntityBlock : bool;
  lineNumber : nat
}.

Definition initial : ParserState :=
  mkState [] [] [] false None false 0.

Definition attribute_error (lineNumber : nat) (line : string) : string :=
  "Line " ++ Js.of_nat lineNumber ++ ": Unable to parse attribute: "
  ++ Js.DQ ++ line ++ Js.DQ.

(** The attribute built from a match of [ATTRIBUTE]. *)
Definition attribute_of_match (m : Re.Caps) : Attribute :=
  let type := group 1 m in
  let name := group 2 m in
  let keys := Re.cap 3 m in
  let comment := Re.cap 4 m in
  let attribute :=
    mkAttribute (remove_leading "*" name) type (parseAttributeKeys keys) comment in
  if Js.startsWith "*" name && negb (keys_include PK (attr_keys attribute))
  then mkAttribute (attr_name attribute) (attr_type attribute)
         (PK :: attr_keys attribute) (attr_comment attribute)
  else attribute.

(** [alias ? cleanEntityName(alias) : undefined]. *)
Definition clean_alias (alias : option string) : option string :=
  match alias with
  | None => None
  | Some EmptyString => None
  | Some a => Some (cleanEntityName a)
  end.

Definition relationship_of_match (m : Re.Caps) : Relationship :=
  mkRelationship
    (cleanEntityName (group 1 m))
    (cleanEntityName (group 5 m))
    (parseCardinality (group 2 m))
    (parseCardinality (group 4 m))
    (String.eqb (group 3 m) "--")
    (remove_ends Js.DQ (Js.trim (group 6 m))).

(** [if (!entities.has(name)) entities.set(name, entity)]. *)
Definition ensure (name : string) (e : Entity) (m : EntityMap.t) : EntityMap.t :=
  if EntityMap.has name m then m else EntityMap.set name e m.

(** One turn of the loop over the lines. *)
Definition step (st : ParserState) (rawLine : string) : ParserState :=
  let lineNumber := S (lineNumber st) in
  let line := Js.trim rawLine in
  let skip :=
    mkState (entities st) (relationships st) (errors st) (inERDiagram st)
      (currentEntity st) (inEntityBlock st) lineNumber in
  if Re.test PATTERNS.EMPTY line || Re.test PATTERNS.COMMENT line then skip
  else if Re.test PATTERNS.ER_DIAGRAM_START line then
    mkState (entities st) (relationships st) (errors st) true
      (currentEntity st) (inEntityBlock st) lineNumber
  else if negb (inERDiagram st) then skip
  else if Re.test PATTERNS.DIRECTION line then skip
  else if Re.test PATTERNS.ENTITY_BLOCK_END line then
    match currentEntity st with
    | Some cur =>
        mkState (EntityMap.set (ent_name cur) cur (entities st))
          (relationships st) (errors st) (inERDiagram st) None false lineNumber
    | None =>
        mkState (entities st) (relationships st) (errors st) (inERDiagram st)
          None false lineNumber
    end
  else
    match (if inEntityBlock st then currentEntity st else None) with
    | Some cur =>
        match Re.exec PATTERNS.ATTRIBUTE line with
        | Some attrMatch =>
            let attribute := attribute_of_match attrMatch in
            mkState (entities st) (relationships st) (errors st)
              (inERDiagram st)
              (Some (mkEntity (ent_name cur) (ent_alias cur)
                       (ent_attributes cur ++ [attribute])%list))
              (inEntityBlock st) lineNumber
        | None =>
            mkState (entities st) (relationships st)
              (errors st ++ [attribute_error lineNumber line])%list
              (inERDiagram st) (currentEntity st) (inEntityBlock st) lineNumber
        end
    | None =>
        match Re.exec PATTERNS.ENTITY_BLOCK_START line with
        | Some entityBlockMatch =>
            let cleanName := cleanEntityName (group 1 entityBlockMatch) in
            mkState (entities st) (relationships st) (errors st)
              (inERDiagram st)
              (Some (mkEntity cleanName
                       (clean_alias (Re.cap 3 entityBlockMatch)) []))
              true lineNumber
        | None =>
            match Re.exec PATTERNS.RELATIONSHIP line with
            | Some relMatch =>
                let rel := relationship_of_match relMatch in
                let firstEntityName := firstEntity rel in
                let secondEntityName := secondEntity rel in
                let entities1 :=
                  ensure firstEntityName (mkEntity firstEntityName None [])
                    (entities st) in
                let entities2 :=
                  ensure secondEntityName (mkEntity secondEntityName None [])
                    entities1 in
                mkState entities2 (relationships st ++ [rel])%list (errors st)
                  (inERDiagram st) (currentEntity st) (inEntityBlock st)
                  lineNumber
            | None =>
                match Re.exec PATTERNS.STANDALONE_ENTITY line with
                | Some standaloneMatch =>
                    let cleanName :=
                      cleanEntityName (group 1 standaloneMatch) in
                    mkState
                      (ensure cleanName
                         (mkEntity cleanName
                            (clean_alias (Re.cap 3 standaloneMatch)) [])
                         (entities st))
                      (relationships st) (errors st) (inERDiagram st)
                      (currentEntity st) (inEntityBlock st) lineNumber
                | None => skip
                end
            end
        end
    end.

(** The loop, from a given state. *)
Definition run (st : ParserState) (lines : list string) : ParserState :=
  fold_left step lines st.

(** After the loop: an entity still open is stored. *)
Definition close (st : ParserState) : EntityMap.t :=
  match currentEntity st with
  | Some cur => EntityMap.set (ent_name cur) cur (entities st)
  | None => entities st
  end.

Definition result_of (st : ParserState) : ParseResult :=
  let schema := mkSchema (EntityMap.values (close st)) (relationships st) in
  mkParseResult
    (List.length (errors st) =? 0)
    (Some schema)
    (if 0 <? List.length (errors st) then Some (errors st) else None).

Definition parseLines (lines : list string) : ParseResult :=
  result_of (run initial lines).

Definition parseERDiagram (input : string) : ParseResult :=
  parseLines (Js.split Js.LF input).

(** *** The validator *)

(** [names.indexOf(name)], with the length standing for -1. *)
Fixpoint indexOf (name : string) (names : list string) : nat :=
  match names with
  | [] => 0
  | n :: names' => if String.eqb n name then 0 else S (indexOf name names')
  end.

Definition names_include (name : string) (names : list string) : bool :=
  existsb (String.eqb name) names.

(** [names.filter((name, index) => names.indexOf(name) !== index)]. *)
Definition duplicates_from (names : list string) : nat -> list string -> list string :=
  fix go (index : nat) (rest : list string) : list string :=
    match rest with
    | [] => []
    | name :: rest' =>
        if indexOf name names =? index then go (S index) rest'
        else name :: go (S index) rest'
    end.

Definition duplicates (names : list string) : list string :=
  duplicates_from names 0 names.

Definition duplicate_errors (s : DatabaseSchema) : list string :=
  let entityNames := map ent_name (schema_entities s) in
  let dups := duplicates entityNames in
  if 0 <? List.length dups
  then ["Duplicate entity names: " ++ Js.join ", " dups]
  else [].

Definition dangling_errors (s : DatabaseSchema) : list string :=
  let entityNames := map ent_name (schema_entities s) in
  fold_left
    (fun errs rel =>
       let errs :=
         if negb (names_include (firstEntity rel) entityNames)
         then (errs ++ [("Relationship references non-existent entity: "
                         ++ firstEntity rel)%string])%list
         else errs in
       if negb (names_include (secondEntity rel) entityNames)
       then (errs ++ [("Relationship references non-existent entity: "
                       ++ secondEntity rel)%string])%list
       else errs)
    (schema_relationships s) [].

Definition header_errors (input : string) : list string :=
  if negb (Js.includes "erdiagram" (Js.toLowerCase input))
  then ["Diagram does not contain " ++ Js.DQ ++ "erDiagram" ++ Js.DQ
        ++ " declaration"]
  else [].

Record Validation : Type := mkValidation {
  valid : bool;
  validation_errors : list string
}.

Definition validateERDiagram (input : string) : Validation :=
  let result := parseERDiagram input in
  let errors :=
    match result_errors result with Some es => es | None => [] end in
  let errors := (errors ++ header_errors input)%list in
  let errors :=
    match schema result with
    | Some s => (errors ++ duplicate_errors s ++ dangling_errors s)%list
    | None => errors
    end in
  mkValidation (List.length errors =? 0) errors.

(* ================================================================= *)
(** ** The DDL generator ([database/sqlGenerator.ts]) *)

(** The outcome of a call that may throw. *)
Inductive Completion (A : Type) : Type :=
| Normal (a : A)
| Throw (error : string).
Arguments Normal {A} a.
Arguments Throw {A} error.

Definition bind {A B : Type} (c : Completion A) (f : A -> Completion B)
  : Completion B :=
  match c with
  | Normal a => f a
  | Throw e => Throw e
  end.

Definition TYPE_MAPPING : list (string * string) :=
  [ ("int", "INTEGER"); ("integer", "INTEGER"); ("bigint", "BIGINT");
    ("smallint", "SMALLINT"); ("serial", "SERIAL"); ("bigserial", "BIGSERIAL");
    ("decimal", "DECIMAL(10,2)"); ("numeric", "NUMERIC"); ("float", "FLOAT");
    ("real", "REAL"); ("double", "DOUBLE PRECISION");
    ("string", "VARCHAR(255)"); ("varchar", "VARCHAR(255)"); ("text", "TEXT");
    ("char", "CHAR(1)");
    ("boolean", "BOOLEAN"); ("bool", "BOOLEAN");
    ("date", "DATE"); ("time", "TIME"); ("datetime", "TIMESTAMP");
    ("timestamp", "TIMESTAMP"); ("timestamptz", "TIMESTAMPTZ");
    ("uuid", "UUID");
    ("json", "JSON"); ("jsonb", "JSONB");
    ("bytea", "BYTEA"); ("blob", "BYTEA") ].

(** What [mapType] hands back: a string, or a value inherited by the table. *)
Inductive MappedType : Type :=
| PgType (s : string)
| PgInherited (m : Obj.Inherited).

(** The text a template literal makes of it. *)
Definition show_type (t : MappedType) : string :=
  match t with
  | PgType s => s
  | PgInherited m => Obj.show m
  end.

(** The pattern of a parameterized type: a word, then a non-empty text without
    line terminators between parentheses. *)
Definition PARAMETERIZED : Re.re :=
  Re.Cat [Re.Bol; Re.Grp 1 (Re.Plus (Re.Chr Js.is_word)); Re.Lit "(";
          Re.Grp 2 (Re.Plus (Re.Chr (fun c => negb (Js.is_line_terminator c))));
          Re.Lit ")"; Re.Eol].

(** [TYPE_MAPPING[key] || 'TEXT']; every entry of the table is a non-empty
    string, and every inherited value is truthy. *)
Definition mapping_or_text (key : string) : MappedType :=
  match Obj.get TYPE_MAPPING key with
  | Obj.Own pgType => PgType pgType
  | Obj.FromPrototype m => PgInherited m
  | Obj.Undefined => PgType "TEXT"
  end.

Definition mapType (mermaidType : string) : Completion MappedType :=
  let normalized := Js.trim (Js.toLowerCase mermaidType) in
  if Js.endsWith "[]" normalized then
    let baseType := Js.slice_to_minus 2 normalized in
    let pgType := mapping_or_text baseType in
    Normal (PgType (show_type pgType ++ "[]"))
  else
    let plain := Normal (mapping_or_text normalized) in
    match Re.exec PARAMETERIZED normalized with
    | Some paramMatch =>
        let baseType := group 1 paramMatch in
        let params := group 2 paramMatch in
        match Obj.get TYPE_MAPPING baseType with
        | Obj.Own pgBaseType =>
            if Js.includes "(" pgBaseType
            then Normal (PgType (hd EmptyString (Js.split "(" pgBaseType)
                                 ++ "(" ++ params ++ ")"))
            else Normal (PgType (pgBaseType ++ "(" ++ params ++ ")"))
        | Obj.FromPrototype _ =>
            Throw "TypeError: pgBaseType.includes is not a function"
        | Obj.Undefined => plain
        end
    | None => plain
    end.

(** [s.replace(/([a-z])([A-Z])/g, '$1_$2')]: an underscore between a lower-case
    letter and the upper-case letter that follows it. *)
Fixpoint camel_to_snake (s : string) : string :=
  match s with
  | EmptyString => EmptyString
  | String a s' =>
      match s' with
      | String b _ =>
          if Js.is_lower a && Js.is_upper b
          then String a (String "_" (camel_to_snake s'))
          else String a (camel_to_snake s')
      | EmptyString => String a EmptyString
      end
  end.

Definition is_separator (c : ascii) : bool := Js.is_char "-" c || Js.is_space c.

(** [s.replace(/[-\s]+/g, '_')]: one underscore for each run of hyphens and
    white space; [in_run] tells that the run has its underscore already. *)
Fixpoint separators_to_underscore (in_run : bool) (s : string) : string :=
  match s with
  | EmptyString => EmptyString
  | String c s' =>
      if is_separator c
      then if in_run then separators_to_underscore true s'
           else String "_" (separators_to_underscore true s')
      else String c (separators_to_underscore false s')
  end.

Definition toTableName (entityName : string) : string :=
  Js.toLowerCase (separators_to_underscore false (camel_to_snake entityName)).

Definition toColumnName (attributeName : string) : string :=
  Js.toLowerCase (separators_to_underscore false (camel_to_snake attributeName)).

Definition quoted (s : string) : string := Js.DQ ++ s ++ Js.DQ.

Definition is_pk (a : Attribute) : bool := keys_include PK (attr_keys a).

Definition generateCreateTable (entity : Entity) : Completion string :=
  let tableName := toTableName (ent_name entity) in
  (* Add columns *)
  bind
    (fold_left
       (fun acc attr =>
          bind acc (fun columns =>
          let colName := toColumnName (attr_name attr) in
          bind (mapType (attr_type attr)) (fun colType =>
          let colDef := "  " ++ quoted colName ++ " " ++ show_type colType in
          let colDef := if is_pk attr then colDef ++ " NOT NULL" else colDef in
          Normal (columns ++ [colDef])%list)))
       (ent_attributes entity) (Normal []))
    (fun columns =>
       (* Add primary key constraint *)
       let pkColumns :=
         map (fun a => quoted (toColumnName (attr_name a)))
           (filter is_pk (ent_attributes entity)) in
       let constraints :=
         if 0 <? List.length pkColumns
         then ["  PRIMARY KEY (" ++ Js.join ", " pkColumns ++ ")"]
         else [] in
       (* Add unique constraints *)
       let ukColumns :=
         filter (fun a => keys_include UK (attr_keys a) && negb (is_pk a))
           (ent_attributes entity) in
       let constraints :=
         fold_left
           (fun constraints ukCol =>
              (constraints
               ++ [("  UNIQUE (" ++ quoted (toColumnName (attr_name ukCol))
                    ++ ")")%string])%list)
           ukColumns constraints in
       let allParts := (columns ++ constraints)%list in
       Normal ("CREATE TABLE IF NOT EXISTS " ++ quoted tableName ++ " ("
               ++ Js.NL ++ Js.join ("," ++ Js.NL) allParts ++ Js.NL ++ ");")).

(** The search of [generateForeignKeys] through the keys of its map, up to the
    first one whose table name is the wanted one: the referenced table and
    column. *)
Fixpoint find_reference (entityMap : EntityMap.t) (possibleTable : string)
         (entries : list (string * Entity)) : option string * string :=
  match entries with
  | [] => (None, "id")
  | (entityName, _) :: rest =>
      if String.eqb (toTableName entityName) possibleTable then
        (Some possibleTable,
         match EntityMap.get entityName entityMap with
         | Some refEntity =>
             match find is_pk (ent_attributes refEntity) with
             | Some refPk => toColumnName (attr_name refPk)
             | None => "id"
             end
         | None => "id"
         end)
      else find_reference entityMap possibleTable rest
  end.

Definition foreign_key_statement (tableName colName refTable refColumn : string)
  : string :=
  let constraintName := "fk_" ++ tableName ++ "_" ++ colName in
  "ALTER TABLE " ++ quoted tableName ++ " ADD CONSTRAINT "
  ++ quoted constraintName ++ " "
  ++ "FOREIGN KEY (" ++ quoted colName ++ ") REFERENCES " ++ quoted refTable
  ++ " (" ++ quoted refColumn ++ ") ON DELETE CASCADE;".

Definition generateForeignKeys (schema : DatabaseSchema) : list string :=
  let entityMap :=
    EntityMap.of_entries
      (map (fun e => (Js.toLowerCase (ent_name e), e)) (schema_entities schema)) in
  fold_left
    (fun statements entity =>
       let tableName := toTableName (ent_name entity) in
       let fkColumns :=
         filter (fun a => keys_include FK (attr_keys a)) (ent_attributes entity) in
       fold_left
         (fun statements fkCol =>
            let colName := toColumnName (attr_name fkCol) in
            let '(refTable, refColumn) :=
              if Js.endsWith "_id" colName
              then find_reference entityMap (Js.slice_to_minus 3 colName) entityMap
              else (None, "id") in
            match refTable with
            | Some (String _ _ as refTable) =>
                (statements
                 ++ [foreign_key_statement tableName colName refTable refColumn])%list
            | _ => statements
            end)
         fkColumns statements)
    (schema_entities schema) [].

Definition generateDropTables (schema : DatabaseSchema) : list string :=
  let tables := map (fun e => toTableName (ent_name e)) (schema_entities schema) in
  map (fun t => "DROP TABLE IF EXISTS " ++ quoted t ++ " CASCADE;") tables.

(* ================================================================= *)
(** ** The CRUD query builder ([database/queryBuilder.ts]) *)

(** Numbers are IEEE 754 values: a signed zero, a signed infinity, [NaN], or a
    finite value that is not zero, given by its sign, mantissa and exponent. *)
Definition JsNumber : Type := spec_float.

Definition zero : JsNumber := S754_zero false.
Definition one : JsNumber := S754_finite false 1 0.

(** The values handed over as [any]. *)
Inductive Value : Type :=
| VUndefined
| VNull
| VBoolean (b : bool)
| VNumber (n : JsNumber)
| VString (s : string).

(** Zero, minus zero and [NaN] are falsy. *)
Definition truthy_number (n : JsNumber) : bool :=
  match n with
  | S754_zero _ | S754_nan => false
  | S754_infinity _ | S754_finite _ _ _ => true
  end.

Definition truthy_string (s : string) : bool :=
  match s with
  | EmptyString => false
  | String _ _ => true
  end.

Record QueryConfig : Type := mkQueryConfig {
  tableName : string;
  columns : list string;
  (** declared a string; [undefined] for an entity without attributes *)
  primaryKey : option string
}.

Record Query : Type := mkQuery {
  sql : string;
  params : list Value
}.

(** The text a template literal makes of the primary key. *)
Definition show_key (k : option string) : string :=
  match k with
  | Some s => s
  | None => "undefined"
  end.

Definition buildQueryConfig (entity : Entity) : QueryConfig :=
  let tableName := toTableName (ent_name entity) in
  let columns := map (fun a => toColumnName (attr_name a)) (ent_attributes entity) in
  let pkAttr := find is_pk (ent_attributes entity) in
  let primaryKey :=
    match pkAttr with
    | Some a => Some (toColumnName (attr_name a))
    | None => nth_error columns 0
    end in
  mkQueryConfig tableName columns primaryKey.

Inductive OrderDir : Type := ASC | DESC.

Definition show_dir (d : OrderDir) : string :=
  match d with ASC => "ASC" | DESC => "DESC" end.

Record SelectOptions : Type := mkSelectOptions {
  limit : option JsNumber;
  offset : option JsNumber;
  orderBy : option string;
  orderDir : option OrderDir
}.

(** [options?.field], and the truthiness tests on it. *)
Definition opt_field {A : Type} (f : SelectOptions -> option A)
           (options : option SelectOptions) : option A :=
  match options with
  | Some o => f o
  | None => None
  end.

Definition truthy_opt {A : Type} (truthy : A -> bool) (x : option A) : option A :=
  match x with
  | Some a => if truthy a then Some a else None
  | None => None
  end.

Definition placeholder (n : nat) : string := "$" ++ Js.of_nat n.

Definition selectAll (config : QueryConfig) (options : option SelectOptions)
  : Query :=
  let sql := "SELECT * FROM " ++ quoted (tableName config) in
  let params : list Value := [] in
  let sql :=
    match truthy_opt truthy_string (opt_field orderBy options) with
    | Some ob =>
        sql ++ " ORDER BY " ++ quoted ob ++ " "
        ++ show_dir (match opt_field orderDir options with
                     | Some d => d
                     | None => ASC
                     end)
    | None => sql
    end in
  let '(sql, params) :=
    match truthy_opt truthy_number (opt_field limit options) with
    | Some l =>
        (sql ++ " LIMIT " ++ placeholder (List.length params + 1),
         (params ++ [VNumber l])%list)
    | None => (sql, params)
    end in
  let '(sql, params) :=
    match truthy_opt truthy_number (opt_field offset options) with
    | Some o =>
        (sql ++ " OFFSET " ++ placeholder (List.length params + 1),
         (params ++ [VNumber o])%list)
    | None => (sql, params)
    end in
  mkQuery sql params.

Definition selectById (config : QueryConfig) (id : Value) : Query :=
  mkQuery
    ("SELECT * FROM " ++ quoted (tableName config) ++ " WHERE "
     ++ quoted (show_key (primaryKey config)) ++ " = $1")
    [id].

(** A record of data: its own properties, in the order of [Object.keys]. *)
Definition Data : Type := list (string * Value).

Definition object_keys (data : Data) : list string := map fst data.

(** [data[k]] for an own key. *)
Definition data_get (data : Data) (k : string) : Value :=
  match Obj.assoc k data with
  | Some v => v
  | None => VUndefined
  end.

(** [xs.map((x, i) => f x i)]. *)
Fixpoint mapi_from {A B : Type} (f : A -> nat -> B) (i : nat) (xs : list A)
  : list B :=
  match xs with
  | [] => []
  | x :: xs' => f x i :: mapi_from f (S i) xs'
  end.

Definition mapi {A B : Type} (f : A -> nat -> B) (xs : list A) : list B :=
  mapi_from f 0 xs.

Definition insert (config : QueryConfig) (data : Data) : Query :=
  let keys :=
    filter (fun k => names_include k (columns config)) (object_keys data) in
  let values := map (data_get data) keys in
  let placeholders := mapi (fun _ i => placeholder (i + 1)) keys in
  mkQuery
    ("INSERT INTO " ++ quoted (tableName config) ++ " ("
     ++ Js.join ", " (map quoted keys) ++ ") VALUES ("
     ++ Js.join ", " placeholders ++ ") RETURNING *")
    values.

(** [k !== config.primaryKey]. *)
Definition differs_from_key (k : string) (key : option string) : bool :=
  match key with
  | Some pk => negb (String.eqb k pk)
  | None => true
  end.

Definition update (config : QueryConfig) (id : Value) (data : Data) : Query :=
  let keys :=
    filter (fun k => names_include k (columns config)
                     && differs_from_key k (primaryKey config))
      (object_keys data) in
  let values := map (data_get data) keys in
  let setClauses :=
    mapi (fun k i => quoted k ++ " = " ++ placeholder (i + 1)) keys in
  mkQuery
    ("UPDATE " ++ quoted (tableName config) ++ " SET "
     ++ Js.join ", " setClauses ++ " WHERE "
     ++ quoted (show_key (primaryKey config)) ++ " = "
     ++ placeholder (List.length keys + 1) ++ " RETURNING *")
    (values ++ [id])%list.

Definition deleteById (config : QueryConfig) (id : Value) : Query :=
  mkQuery
    ("DELETE FROM " ++ quoted (tableName config) ++ " WHERE "
     ++ quoted (show_key (primaryKey config)) ++ " = $1 RETURNING *")
    [id].

Definition count (config : QueryConfig) : Query :=
  mkQuery ("SELECT COUNT(*) as count FROM " ++ quoted (tableName config)) [].

(* ================================================================= *)
(** * The vocabulary of the statements *)

(** *** The entity table *)

(** Every entity is stored under its own name. *)
Definition named (m : EntityMap.t) : Prop :=
  Forall (fun kv => ent_name (snd kv) = fst kv) m.

(** The keys are distinct, and every entity is stored under its own name. *)
Definition wf (m : EntityMap.t) : Prop := NoDup (EntityMap.keys m) /\ named m.

(** *** The states of the parser loop *)

(** The relationships name entities of the table. *)
Definition resolved (m : EntityMap.t) (rels : list Relationship) : Prop :=
  forall r, In r rels ->
    In (firstEntity r) (EntityMap.keys m) /\ In (secondEntity r) (EntityMap.keys m).

(** What every state of the loop satisfies. *)
Record Inv (st : ParserState) : Prop := mkInv {
  inv_wf : wf (entities st);
  inv_resolved : resolved (entities st) (relationships st);
  inv_block : inEntityBlock st = true ->
              inERDiagram st = true /\ currentEntity st <> None
}.

(** The state with another error list. *)
Definition set_errors (es : list string) (st : ParserState) : ParserState :=
  mkState (entities st) (relationships st) es (inERDiagram st)
    (currentEntity st) (inEntityBlock st) (lineNumber st).

(** The line reaches the attribute branch of the loop: it is not blank, not a
    comment, not the header, not a direction and not a closing brace. *)
Definition attribute_candidate (line : string) : bool :=
  negb (Re.test PATTERNS.EMPTY line || Re.test PATTERNS.COMMENT line)
  && negb (Re.test PATTERNS.ER_DIAGRAM_START line)
  && negb (Re.test PATTERNS.DIRECTION line)
  && negb (Re.test PATTERNS.ENTITY_BLOCK_END line).

(** *** The captures of a match *)

(** The groups of a pattern. *)
Fixpoint groups (r : Re.re) : list nat :=
  match r with
  | Re.Seq r1 r2 | Re.Alt r1 r2 => (groups r1 ++ groups r2)%list
  | Re.Star r1 => groups r1
  | Re.Grp i r1 => i :: groups r1
  | _ => []
  end.

(** Two capture lists that differ on the groups of [G] at most. *)
Definition agree_outside (G : list nat) (c c' : Re.Caps) : Prop :=
  forall i, ~ In i G -> Re.cap i c' = Re.cap i c.

(** The tokens at the two ends of the connector in [RELATIONSHIP]. *)
Definition left_tokens : list string := ["|o"; "o|"; "||"; "}|"; "}o"; "o{"; "|{"].
Definition right_tokens : list string := ["o|"; "o{"; "||"; "|o"; "|{"; "{|"; "{o"].

(** A cardinality field that holds a cardinality. *)
Definition is_cardinality (v : CardinalityValue) : Prop :=
  exists c, v = Card c.

Definition proper_relationship (r : Relationship) : Prop :=
  is_cardinality (firstCardinality r) /\ is_cardinality (secondCardinality r).

(** *** The cardinality codec *)

(** The tokens the codec knows. *)
Definition cardinality_alphabet : list string :=
  ["|o"; "o|"; "||"; "}o"; "o{"; "{o"; "}|"; "|{"; "{|"].

(** *** The type mapper *)

(** The entry of the table for a key, and the generic text type without one. *)
Definition own_or_text (key : string) : string :=
  match Obj.assoc key TYPE_MAPPING with
  | Some pgType => pgType
  | None => "TEXT"
  end.

(** The read [TYPE_MAPPING[key]] lands on an inherited property. *)
Definition hits_inherited (key : string) : bool :=
  match Obj.get TYPE_MAPPING key with
  | Obj.FromPrototype _ => true
  | _ => false
  end.

(** A read of the table made by [mapType] on this input lands on an inherited
    property. *)
Definition reads_inherited (mermaidType : string) : bool :=
  let normalized := Js.trim (Js.toLowerCase mermaidType) in
  if Js.endsWith "[]" normalized
  then hits_inherited (Js.slice_to_minus 2 normalized)
  else
    match Re.exec PARAMETERIZED normalized with
    | Some paramMatch =>
        match Obj.get TYPE_MAPPING (group 1 paramMatch) with
        | Obj.Own _ => false
        | Obj.FromPrototype _ => true
        | Obj.Undefined => hits_inherited normalized
        end
    | None => hits_inherited normalized
    end.

(** *** The CREATE TABLE statement in the words of the specification *)

Module CreateTableSpec.

(** The mapped type of an attribute. *)
Definition mapped_type (a : Attribute) : string :=
  match mapType (attr_type a) with
  | Normal t => show_type t
  | Throw _ => EmptyString
  end.

Definition column_name (a : Attribute) : string :=
  quoted (toColumnName (attr_name a)).

(** One column: the quoted normalized name, the mapped type, and NOT NULL
    exactly for an attribute that carries PK. *)
Definition column_definition (a : Attribute) : string :=
  let definition := "  " ++ column_name a ++ " " ++ mapped_type a in
  if keys_include PK (attr_keys a) then definition ++ " NOT NULL" else definition.

(** The PRIMARY KEY constraint over the PK columns in attribute order; none
    for an entity without a PK attribute. *)
Definition primary_key_constraint (attrs : list Attribute) : list string :=
  match filter (fun a => keys_include PK (attr_keys a)) attrs with
  | [] => []
  | pks => ["  PRIMARY KEY (" ++ Js.join ", " (map column_name pks) ++ ")"]
  end.

(** One UNIQUE constraint for each attribute that carries UK and not PK. *)
Definition unique_constraints (attrs : list Attribute) : list string :=
  map (fun a => "  UNIQUE (" ++ column_name a ++ ")")
      (filter (fun a => keys_include UK (attr_keys a)
                        && negb (keys_include PK (attr_keys a))) attrs).

Definition statement (entity : Entity) : string :=
  "CREATE TABLE IF NOT EXISTS " ++ quoted (toTableName (ent_name entity)) ++ " ("
  ++ Js.NL
  ++ Js.join ("," ++ Js.NL)
       (map column_definition (ent_attributes entity)
        ++ primary_key_constraint (ent_attributes entity)
        ++ unique_constraints (ent_attributes entity))%list
  ++ Js.NL ++ ");".

End CreateTableSpec.

(** *** The clauses of [selectAll] in the words of the specification

    Presence is read as the code tests it: a non-empty [orderBy], a [limit]
    and an [offset] that are neither zero nor [NaN]. *)

Module SelectAllSpec.

Definition given {A : Type} (truthy : A -> bool) (x : option A) : bool :=
  match x with
  | Some a => truthy a
  | None => false
  end.

Definition order_clause (options : option SelectOptions) : string :=
  match opt_field orderBy options with
  | Some ob =>
      if truthy_string ob
      then " ORDER BY " ++ quoted ob ++ " "
           ++ match opt_field orderDir options with
              | Some DESC => "DESC"
              | Some ASC | None => "ASC"
              end
      else ""
  | None => ""
  end.

Definition limit_clause (options : option SelectOptions) : string :=
  if given truthy_number (opt_field limit options) then " LIMIT $1" else "".

Definition offset_clause (options : option SelectOptions) : string :=
  if given truthy_number (opt_field offset options)
  then if given truthy_number (opt_field limit options)
       then " OFFSET $2" else " OFFSET $1"
  else "".

Definition number_param (x : option JsNumber) : list Value :=
  match x with
  | Some n => if truthy_number n then [VNumber n] else []
  | None => []
  end.

End SelectAllSpec.

(** *** The foreign keys, statement by statement *)

(** What the generator does for every schema: the reference it infers for a
    column flagged FK. *)
Definition lowered_entities (schema : DatabaseSchema) : EntityMap.t :=
  EntityMap.of_entries
    (map (fun e => (Js.toLowerCase (ent_name e), e)) (schema_entities schema)).

Definition inferred_reference (schema : DatabaseSchema) (fkCol : Attribute)
  : option (string * string) :=
  let colName := toColumnName (attr_name fkCol) in
  if Js.endsWith "_id" colName then
    match find_reference (lowered_entities schema)
            (Js.slice_to_minus 3 colName) (lowered_entities schema) with
    | (Some (String _ _ as refTable), refColumn) => Some (refTable, refColumn)
    | _ => None
    end
  else None.

Definition foreign_keys_of (schema : DatabaseSchema) (entity : Entity)
  : list string :=
  flat_map
    (fun fkCol =>
       match inferred_reference schema fkCol with
       | Some (refTable, refColumn) =>
           [foreign_key_statement (toTableName (ent_name entity))
              (toColumnName (attr_name fkCol)) refTable refColumn]
       | None => []
       end)
    (filter (fun a => keys_include FK (attr_keys a)) (ent_attributes entity)).

(** *** Inputs of the examples *)

(** The CUSTOMER entity of the specification. *)
Definition CUSTOMER : Entity :=
  mkEntity "CUSTOMER" None
    [ mkAttribute "customer_id" "int" [PK] None;
      mkAttribute "email" "string" [UK] None ].

(** A block of [A] with a line that is no attribute, and the same text with
    that line blanked. *)
Definition block_before : list string := ["erDiagram"; "A {"; "int id PK"].
Definition block_after : list string := ["string name UK"; "}"].
Definition block_with_bad_line : string :=
  Js.join Js.NL (block_before ++ "???" :: block_after).
Definition block_with_blank_line : string :=
  Js.join Js.NL (block_before ++ EmptyString :: block_after).

(** A block with a comment line. *)
Definition block_with_comment : string :=
  Js.join Js.NL ["erDiagram"; "A {"; "%% note"; "}"].

(** A relationship line that names an entity declared nowhere. *)
Definition undeclared_order : string :=
  Js.join Js.NL ["erDiagram"; "CUSTOMER ||--o{ ORDER : places"].

(** The example of the specification: [customer_id FK] on [Order], with an
    entity [Customer]. *)
Definition customer_order : DatabaseSchema :=
  mkSchema
    [ mkEntity "Customer" None [mkAttribute "id" "int" [PK] None];
      mkEntity "Order" None
        [ mkAttribute "order_id" "int" [PK] None;
          mkAttribute "customer_id" "int" [FK] None ] ]
    [].

(** An entity with a camel-case name, and two columns that point at it. *)
Definition order_items : DatabaseSchema :=
  mkSchema
    [ mkEntity "OrderItem" None [mkAttribute "id" "int" [PK] None];
      mkEntity "Review" None
        [ mkAttribute "review_id" "int" [PK] None;
          mkAttribute "order_item_id" "int" [FK] None ];
      mkEntity "Refund" None
        [ mkAttribute "refund_id" "int" [PK] None;
          mkAttribute "orderitem_id" "int" [FK] None ] ]
    [].

(** The diagram of the README. *)
Definition readme_diagram : string :=
  Js.join Js.NL
    [ "erDiagram";
      "    CUSTOMER {";
      "        int customer_id PK " ++ Js.DQ ++ "Primary key" ++ Js.DQ;
      "        string email UK " ++ Js.DQ ++ "Unique email" ++ Js.DQ;
      "        string name";
      "    }";
      "    ";
      "    ORDER {";
      "        int order_id PK";
      "        int customer_id FK";
      "        datetime order_date";
      "    }";
      "    ";
      "    CUSTOMER ||--o{ ORDER : " ++ Js.DQ ++ "places" ++ Js.DQ ].

Definition readme_schema : DatabaseSchema :=
  mkSchema
    [ mkEntity "CUSTOMER" None
        [ mkAttribute "customer_id" "int" [PK] (Some "Primary key");
          mkAttribute "email" "string" [UK] (Some "Unique email");
          mkAttribute "name" "string" [] None ];
      mkEntity "ORDER" None
        [ mkAttribute "order_id" "int" [PK] None;
          mkAttribute "customer_id" "int" [FK] None;
          mkAttribute "order_date" "datetime" [] None ] ]
    [ mkRelationship "CUSTOMER" "ORDER" (Card EXACTLY_ONE) (Card ZERO_OR_MORE)
        true "places" ].

(* ================================================================= *)
(** * Further vocabulary *)

(** *** The words of a pattern

    The texts a pattern can consume, whatever stands around them: the two
    anchors consume nothing. *)
Inductive lang : Re.re -> string -> Prop :=
| lang_Eps : lang Re.Eps EmptyString
| lang_Chr (p : ascii -> bool) (a : ascii) :
    p a = true -> lang (Re.Chr p) (String a EmptyString)
| lang_Seq (r1 r2 : Re.re) (w1 w2 : string) :
    lang r1 w1 -> lang r2 w2 -> lang (Re.Seq r1 r2) (w1 ++ w2)
| lang_Alt_l (r1 r2 : Re.re) (w : string) :
    lang r1 w -> lang (Re.Alt r1 r2) w
| lang_Alt_r (r1 r2 : Re.re) (w : string) :
    lang r2 w -> lang (Re.Alt r1 r2) w
| lang_Star_nil (r : Re.re) : lang (Re.Star r) EmptyString
| lang_Star_cons (r : Re.re) (w1 w2 : string) :
    lang r w1 -> lang (Re.Star r) w2 -> lang (Re.Star r) (w1 ++ w2)
| lang_Grp (i : nat) (r : Re.re) (w : string) :
    lang r w -> lang (Re.Grp i r) w
| lang_Bol : lang Re.Bol EmptyString
| lang_Eol : lang Re.Eol EmptyString.

(** Every character of a text passes a test. *)
Fixpoint all_chars (p : ascii -> bool) (s : string) : bool :=
  match s with
  | EmptyString => true
  | String c s' => p c && all_chars p s'
  end.

(** A text without a double quote. *)
Definition quote_free (s : string) : bool :=
  all_chars (PATTERNS.not_char PATTERNS.quote) s.

(** An identifier of the diagram language: a letter or an underscore, then
    letters, digits, underscores and hyphens. *)
Definition is_identifier (s : string) : bool :=
  match s with
  | EmptyString => false
  | String a rest => PATTERNS.ident_start a && all_chars PATTERNS.ident_char rest
  end.

(** A type of the diagram language: a letter, then letters, digits,
    underscores, hyphens, square brackets and parentheses. *)
Definition is_type_token (s : string) : bool :=
  match s with
  | EmptyString => false
  | String a rest => Js.is_alpha a && all_chars PATTERNS.type_char rest
  end.

(** The name of an entity as the parser leaves it: an identifier, or the text
    of the escaped-quote form followed by a backslash. *)
Definition entity_name_shape (n : string) : Prop :=
  is_identifier n = true
  \/ exists x, n = x ++ Js.BS /\ x <> EmptyString /\ quote_free x = true.

Definition well_formed_attribute (a : Attribute) : Prop :=
  is_identifier (attr_name a) = true /\ is_type_token (attr_type a) = true.

Definition well_formed_entity (e : Entity) : Prop :=
  entity_name_shape (ent_name e) /\ Forall well_formed_attribute (ent_attributes e).

(** The last character of a text. *)
Fixpoint last_char (s : string) : option ascii :=
  match s with
  | EmptyString => None
  | String c EmptyString => Some c
  | String _ s' => last_char s'
  end.

(** The entities of a state of the loop, the open one included, are well
    formed. *)
Definition names_ok (st : ParserState) : Prop :=
  Forall (fun kv => well_formed_entity (snd kv)) (entities st)
  /\ (forall cur, currentEntity st = Some cur -> well_formed_entity cur).

(** The characters of a plain SQL identifier in lower case. *)
Definition is_snake (c : ascii) : bool :=
  Js.is_lower c || Js.is_digit c || Js.is_char "_" c.

(** A character that the normalizer leaves alone: no ASCII capital, no
    hyphen, no white space, and no capital of the Latin-1 range. *)
Definition is_normal (c : ascii) : bool :=
  negb (is_separator c) && Ascii.eqb (Js.lower_char c) c.

(** What the loop has gathered, without the count of lines and the errors. *)
Definition core (st : ParserState)
  : EntityMap.t * list Relationship * bool * option Entity * bool :=
  (entities st, relationships st, inERDiagram st, currentEntity st,
   inEntityBlock st).

(** A line the loop skips wherever it stands: blank, or a comment. *)
Definition skipped_line (rawLine : string) : bool :=
  Re.test PATTERNS.EMPTY (Js.trim rawLine)
  || Re.test PATTERNS.COMMENT (Js.trim rawLine).

(** A line that is the header of a diagram. *)
Definition header_line (rawLine : string) : bool :=
  Re.test PATTERNS.ER_DIAGRAM_START (Js.trim rawLine).

(** The error the loop records for line [n] (counted from 0) of [lines]. *)
Definition error_of_line (lines : list string) (n : nat) (e : string) : Prop :=
  exists rawLine,
    nth_error lines n = Some rawLine
    /\ Re.exec PATTERNS.ATTRIBUTE (Js.trim rawLine) = None
    /\ e = attribute_error (S n) (Js.trim rawLine).

(** The errors of a result, as the validator reads them. *)
Definition reported (result : ParseResult) : list string :=
  match result_errors result with
  | Some es => es
  | None => []
  end.

(** The result for an input in which nothing is found. *)
Definition empty_result : ParseResult :=
  mkParseResult true (Some (mkSchema [] [])) None.

(** *** Texts a pattern takes at the first try

    [accepts r w rest f]: in front of [rest], the pattern consumes [w] at its
    first try, leaves the captures [f c], and hands over to what follows; it
    keeps this choice when what follows succeeds.  [rejects r s]: the pattern
    fails on [s] without reaching what follows. *)
Definition accepts (r : Re.re) (w rest : string) (f : Re.Caps -> Re.Caps)
  : Prop :=
  forall pos c k res,
    k (pos + String.length w) rest (f c) = Some res ->
    Re.rmatch r pos (w ++ rest) c k = Some res.

Definition rejects (r : Re.re) (s : string) : Prop :=
  forall pos c k, Re.rmatch r pos s c k = None.

(** The loop of a star, with its fuel. *)
Definition star_loop (r : Re.re) (k : nat -> string -> Re.Caps -> option Re.Caps)
  : nat -> nat -> string -> Re.Caps -> option Re.Caps :=
  fix loop (fuel pos : nat) (s : string) (c : Re.Caps) {struct fuel}
    : option Re.Caps :=
    match fuel with
    | 0 => k pos s c
    | S fuel' =>
        match Re.rmatch r pos s c
                (fun pos' s' c' =>
                   if pos <? pos' then loop fuel' pos' s' c' else None)
        with
        | Some c' => Some c'
        | None => k pos s c
        end
    end.

(** The text starts with no character of a class. *)
Definition stops (p : ascii -> bool) (rest : string) : bool :=
  match rest with
  | EmptyString => true
  | String a _ => negb (p a)
  end.

(** *** An attribute, written as a line of a block *)

Definition key_name (k : AttributeKey) : string :=
  match k with
  | PK => "PK"
  | FK => "FK"
  | UK => "UK"
  end.

Definition keys_text (ks : list AttributeKey) : string :=
  Js.join ", " (map key_name ks).

(** The keys after the first one, each behind a comma and a space. *)
Fixpoint keys_tail (ks : list AttributeKey) : string :=
  match ks with
  | [] => EmptyString
  | k :: ks' => ", " ++ key_name k ++ keys_tail ks'
  end.

Definition keys_part (ks : list AttributeKey) : string :=
  match ks with
  | [] => EmptyString
  | _ :: _ => " " ++ keys_text ks
  end.

Definition comment_part (comment : option string) : string :=
  match comment with
  | None => EmptyString
  | Some text => " " ++ Js.DQ ++ text ++ Js.DQ
  end.

(** The type, the name, the keys with commas between them and the comment
    between double quotes, one space apart. *)
Definition attribute_line (a : Attribute) : string :=
  attr_type a ++ " " ++ attr_name a ++ keys_part (attr_keys a)
  ++ comment_part (attr_comment a).

(** An attribute that can be written so: its type and its name are tokens of
    the language and its comment holds no double quote. *)
Definition writable_attribute (a : Attribute) : Prop :=
  is_type_token (attr_type a) = true
  /\ is_identifier (attr_name a) = true
  /\ match attr_comment a with
     | Some text => quote_free text = true
     | None => True
     end.

(** The parts of the attribute pattern. *)
Definition key_chunk : Re.re :=
  Re.Cat [Re.Star Re.ws; Re.Lit ","; Re.Star Re.ws; PATTERNS.key_word].

Definition keys_pattern : Re.re :=
  Re.Cat [Re.Plus Re.ws;
          Re.Grp 3 (Re.Seq PATTERNS.key_word (Re.Star key_chunk))].

Definition comment_pattern : Re.re :=
  Re.Cat [Re.Plus Re.ws; Re.Lit Js.DQ;
          Re.Grp 4 (Re.Star (Re.Chr (PATTERNS.not_char PATTERNS.quote)));
          Re.Lit Js.DQ].

(** The captures of the attribute pattern on the line of an attribute. *)
Definition with_keys (ks : list AttributeKey) (c : Re.Caps) : Re.Caps :=
  match ks with
  | [] => c
  | _ :: _ => (3, keys_text ks) :: c
  end.

Definition with_comment (comment : option string) (c : Re.Caps) : Re.Caps :=
  match comment with
  | Some text => (4, text) :: c
  | None => c
  end.

Definition attribute_captures (a : Attribute) : Re.Caps :=
  with_comment (attr_comment a)
    (with_keys (attr_keys a) [(2, attr_name a); (1, attr_type a)]).

(** An attribute with a parameterized type, two keys and a comment. *)
Definition keyed_attribute : Attribute :=
  mkAttribute "customer_id" "varchar(36)" [PK; FK] (Some "who placed it").

(** *** The records handed to the query builder *)

(** The key of a record is a column of the table. *)
Definition known_column (config : QueryConfig) (k : string) : bool :=
  names_include k (columns config).

(** The key of a record may be set by [update]. *)
Definition settable_column (config : QueryConfig) (k : string) : bool :=
  names_include k (columns config) && differs_from_key k (primaryKey config).

(** A record without the properties whose key fails a test. *)
Definition restrict (keep : string -> bool) (data : Data) : Data :=
  filter (fun kv => keep (fst kv)) data.

(** *** The foreign keys of a schema *)

(** The attributes flagged FK, entity by entity. *)
Definition fk_attributes (schema : DatabaseSchema) : list Attribute :=
  flat_map
    (fun e => filter (fun a => keys_include FK (attr_keys a)) (ent_attributes e))
    (schema_entities schema).

(** The name the generator compares with a column without its suffix: the
    table name of the lower-cased name of an entity. *)
Definition lookup_name (e : Entity) : string :=
  toTableName (Js.toLowerCase (ent_name e)).

(** A statement of the generator comes from an FK attribute of an entity of
    the schema whose column is the lookup name of an entity of the schema
    followed by the suffix. *)
Definition inferred_from (schema : DatabaseSchema) (statement : string) : Prop :=
  exists entity fkCol target refColumn,
    In entity (schema_entities schema)
    /\ In fkCol (ent_attributes entity)
    /\ keys_include FK (attr_keys fkCol) = true
    /\ In target (schema_entities schema)
    /\ lookup_name target <> ""
    /\ toColumnName (attr_name fkCol) = lookup_name target ++ "_id"
    /\ statement
       = foreign_key_statement (toTableName (ent_name entity))
           (toColumnName (attr_name fkCol)) (lookup_name target) refColumn.

(** *** The whole script ([generateSchemaSQL]) *)

Record SchemaSQL : Type := mkSchemaSQL {
  createTables : list string;
  foreignKeys : list string;
  dropTables : list string;
  fullScript : string
}.

(** [xs.map(f)] for a callback that may throw: the first throw ends the call. *)
Fixpoint map_completion {A B : Type} (f : A -> Completion B) (xs : list A)
  : Completion (list B) :=
  match xs with
  | [] => Normal []
  | x :: xs' =>
      bind (f x) (fun y =>
      bind (map_completion f xs') (fun ys => Normal (y :: ys)))
  end.

Definition generateSchemaSQL (schema : DatabaseSchema) : Completion SchemaSQL :=
  bind (map_completion generateCreateTable (schema_entities schema))
    (fun createTables =>
       let foreignKeys := generateForeignKeys schema in
       let dropTables := generateDropTables schema in
       let fullScript :=
         Js.join (Js.NL ++ Js.NL)
           (["-- Generated by MCP Mermaid ER Server"; "-- Create Tables"]
            ++ createTables
            ++ [EmptyString; "-- Foreign Key Constraints"]
            ++ foreignKeys)%list in
       Normal (mkSchemaSQL createTables foreignKeys dropTables fullScript)).

(** The type of an attribute is mapped without a throw. *)
Definition type_maps (a : Attribute) : Prop :=
  exists t, mapType (attr_type a) = Normal t.

(** The statement that drops the table of an entity. *)
Definition drop_statement (e : Entity) : string :=
  "DROP TABLE IF EXISTS " ++ quoted (toTableName (ent_name e)) ++ " CASCADE;".

(** The statement that creates the table of an entity starts with its name. *)
Definition creates_table_of (e : Entity) (statement : string) : Prop :=
  generateCreateTable e = Normal statement
  /\ Js.startsWith
       ("CREATE TABLE IF NOT EXISTS " ++ quoted (toTableName (ent_name e)) ++ " (")
       statement = true.

(** *** Lines that a pattern cannot take *)

(** Every character a pattern can consume passes a test. *)
Fixpoint within (P : ascii -> bool) (r : Re.re) : Prop :=
  match r with
  | Re.Chr p => forall a, p a = true -> P a = true
  | Re.Seq r1 r2 | Re.Alt r1 r2 => within P r1 /\ within P r2
  | Re.Star r1 | Re.Grp _ r1 => within P r1
  | _ => True
  end.

(** The pattern ends with the end of the text. *)
Fixpoint to_end (r : Re.re) : bool :=
  match r with
  | Re.Eol => true
  | Re.Seq _ r2 => to_end r2
  | _ => false
  end.

Definition letter_or_space (c : ascii) : bool := Js.is_alpha c || Js.is_space c.

Definition no_space (c : ascii) : bool := negb (Js.is_space c).

(** A line as the loop sees it once trimmed: it starts with a letter or an
    underscore, holds a space, and ends with a character that is no white
    space. *)
Definition word_line (line : string) : Prop :=
  (exists a rest, line = String a rest /\ PATTERNS.ident_start a = true)
  /\ (exists c, last_char line = Some c /\ Js.is_space c = false)
  /\ all_chars Js.is_alpha line = false.

(** A text without a line feed. *)
Definition no_line_feed (s : string) : bool :=
  all_chars (fun c => negb (Ascii.eqb c Js.LF)) s.

(** *** A schema written as a diagram

    One block for each entity, with one line for each attribute, and then one
    line for each relationship, under the header. *)

Definition left_token (v : CardinalityValue) : string :=
  match v with
  | Card ZERO_OR_ONE => "|o"
  | Card EXACTLY_ONE => "||"
  | Card ZERO_OR_MORE => "}o"
  | Card ONE_OR_MORE => "}|"
  | NotACardinality _ => EmptyString
  end.

Definition right_token (v : CardinalityValue) : string :=
  match v with
  | Card ZERO_OR_ONE => "o|"
  | Card EXACTLY_ONE => "||"
  | Card ZERO_OR_MORE => "o{"
  | Card ONE_OR_MORE => "|{"
  | NotACardinality _ => EmptyString
  end.

Definition connector (identifying : bool) : string :=
  if identifying then "--" else "..".

(** The alias of an entity, between square brackets after its name. *)
Definition alias_text (alias : option string) : string :=
  match alias with
  | Some text => "[" ++ text ++ "]"
  | None => EmptyString
  end.

Definition block_start_line (name : string) (alias : option string) : string :=
  name ++ alias_text alias ++ " {".

Definition entity_lines (e : Entity) : list string :=
  (block_start_line (ent_name e) (ent_alias e)
   :: map attribute_line (ent_attributes e) ++ ["}"])%list.

Definition relationship_line (r : Relationship) : string :=
  firstEntity r ++ " " ++ left_token (firstCardinality r)
  ++ connector (identifying r) ++ right_token (secondCardinality r)
  ++ " " ++ secondEntity r ++ " " ++ ":" ++ " "
  ++ Js.DQ ++ label r ++ Js.DQ.

Definition diagram_lines (s : DatabaseSchema) : list string :=
  ("erDiagram"
   :: flat_map entity_lines (schema_entities s)
   ++ map relationship_line (schema_relationships s))%list.

Definition write_diagram (s : DatabaseSchema) : string :=
  Js.join Js.NL (diagram_lines s).

(** What can be written so and read back: attributes that are writable, hold
    no line feed and do not read as a direction statement; entities with an
    identifier as name, distinct names, and no alias or an alias that is not
    empty and holds no double quote, no closing bracket and no line feed;
    relationships between entities of the schema, with cardinalities of the
    enumeration and a label that is not empty, is trimmed and holds no double
    quote and no line feed. *)
Definition plain_attribute (a : Attribute) : Prop :=
  writable_attribute a
  /\ match attr_comment a with
     | Some text => no_line_feed text = true
     | None => True
     end
  /\ Re.test PATTERNS.DIRECTION (attribute_line a) = false.

Definition plain_alias (alias : option string) : Prop :=
  match alias with
  | Some text =>
      text <> EmptyString
      /\ quote_free text = true
      /\ all_chars (PATTERNS.not_char "]") text = true
      /\ no_line_feed text = true
  | None => True
  end.

(** The captures of the pattern of a block start on such a line. *)
Definition block_captures (name : string) (alias : option string) : Re.Caps :=
  match alias with
  | Some text => [(2, "[" ++ text ++ "]"); (3, text); (1, name)]
  | None => [(1, name)]
  end.

Definition plain_entity (e : Entity) : Prop :=
  is_identifier (ent_name e) = true
  /\ plain_alias (ent_alias e)
  /\ Forall plain_attribute (ent_attributes e).

Definition plain_label (text : string) : Prop :=
  text <> EmptyString
  /\ quote_free text = true
  /\ no_line_feed text = true
  /\ Js.trim text = text.

Definition plain_relationship (names : list string) (r : Relationship) : Prop :=
  In (firstEntity r) names
  /\ In (secondEntity r) names
  /\ proper_relationship r
  /\ plain_label (label r).

Definition plain_schema (s : DatabaseSchema) : Prop :=
  NoDup (map ent_name (schema_entities s))
  /\ Forall plain_entity (schema_entities s)
  /\ Forall (plain_relationship (map ent_name (schema_entities s)))
            (schema_relationships s).

(** A state of the loop inside the block of an entity without attributes yet. *)
Definition open_block : ParserState :=
  mkState [] [] [] true (Some (mkEntity "A" None [])) true 2.

(** An attribute whose line reads as a direction statement. *)
Definition direction_attribute : Attribute :=
  mkAttribute "TB" "direction" [] None.

(* ================================================================= *)
(** ** The names and types of the GraphQL schema ([api/graphqlSchema.ts]) *)

(** The separators of a name: hyphen, underscore and white space. *)
Definition is_name_separator (c : ascii) : bool :=
  Js.is_char "-" c || Js.is_char "_" c || Js.is_space c.

(** [c.toUpperCase()] for a text of one character. *)
Definition upper_of (c : ascii) : string := Js.toUpperCase (String c EmptyString).

(** The first replacement of [toTypeName]: every run of separators goes, and
    the character after it, if there is one, is put in upper case.  (A run
    takes the line terminators of the range with it, so that the dot of the
    pattern always finds the character that follows.) *)
Fixpoint capitalize_after_separators (after_run : bool) (s : string) : string :=
  match s with
  | EmptyString => EmptyString
  | String c s' =>
      if is_name_separator c then capitalize_after_separators true s'
      else if after_run
           then upper_of c ++ capitalize_after_separators false s'
           else String c (capitalize_after_separators false s')
  end.

(** The second replacement: the first character, unless it is a line
    terminator, is put in upper case. *)
Definition capitalize_first (s : string) : string :=
  match s with
  | EmptyString => EmptyString
  | String c s' =>
      if Js.is_line_terminator c then s else upper_of c ++ s'
  end.

Definition toTypeName (entityName : string) : string :=
  capitalize_first (capitalize_after_separators false entityName).

Definition toCamelCase (entityName : string) : string :=
  let pascal := toTypeName entityName in
  match pascal with
  | EmptyString => EmptyString
  | String c rest => String (Js.lower_char c) rest
  end.

(** The characters whose upper case lies in the range of the model: all but
    the micro sign and the y with diaeresis. *)
Definition upper_in_range (c : ascii) : bool :=
  negb (Js.code c =? 181) && negb (Js.code c =? 255).

(** A state of the loop in which an entity is declared already. *)
Definition declared_customer : ParserState :=
  mkState
    [("CUSTOMER", mkEntity "CUSTOMER" None [mkAttribute "old" "int" [] None])]
    [] [] true None false 5.

(** A relationship of that entity with one that is not declared. *)
Definition customer_places_order : Relationship :=
  mkRelationship "CUSTOMER" "ORDER" (Card EXACTLY_ONE) (Card ZERO_OR_MORE)
    true "places".

(** The line of an attribute with an asterisk in front of its name. *)
Definition starred_line (a : Attribute) : string :=
  attr_type a ++ " " ++ ("*" ++ attr_name a) ++ keys_part (attr_keys a)
  ++ comment_part (attr_comment a).

(** *** Lines outside of a block *)

(** The line opens a block. *)
Definition opens_block (rawLine : string) : bool :=
  match Re.exec PATTERNS.ENTITY_BLOCK_START (Js.trim rawLine) with
  | Some _ => true
  | None => false
  end.

(** The loop has met no block: it is outside of a block, has recorded no
    error, and holds entities without attributes only. *)
Definition no_block_yet (st : ParserState) : Prop :=
  inEntityBlock st = false
  /\ currentEntity st = None
  /\ errors st = []
  /\ Forall (fun kv => ent_attributes (snd kv) = []) (entities st).

(** A diagram with a relationship and lines that are none of the language. *)
Definition stray_lines : string :=
  Js.join Js.NL
    [ "erDiagram"; "A ||--o{ B : has"; "this is no line of a diagram"; "}";
      "int id PK" ].

(** An entity with an alias. *)
Definition aliased_person : Entity :=
  mkEntity "p" (Some "Person") [mkAttribute "name" "string" [] None].

(* ================================================================= *)
(** * Properties *)

(** ** The entity table *)

Module EntityMapFacts.
Import EntityMap.

Lemma has_In (k : string) (m : t) : has k m = true <-> In k (keys m).
Proof.
  unfold has, keys. rewrite existsb_exists. split.
  - intros [[k' v] [Hin Heq]]. simpl in Heq. apply String.eqb_eq in Heq.
    subst k'. apply in_map_iff. exists (k, v). auto.
  - intros Hin. apply in_map_iff in Hin. destruct Hin as [[k' v] [Heq Hin]].
    simpl in Heq. subst k'. exists (k, v). split; [assumption|].
    simpl. apply String.eqb_refl.
Qed.

Lemma keys_set (k : string) (v : Entity) (m : t) (k' : string) :
  In k' (keys (set k v m)) <-> k' = k \/ In k' (keys m).
Proof.
  induction m as [|[k0 v0] m IH]; simpl.
  - intuition.
  - destruct (String.eqb k0 k) eqn:E; simpl.
    + apply String.eqb_eq in E. subst k0. intuition.
    + unfold keys in IH. rewrite IH. intuition.
Qed.

Lemma set_NoDup (k : string) (v : Entity) (m : t) :
  NoDup (keys m) -> NoDup (keys (set k v m)).
Proof.
  induction m as [|[k0 v0] m IH]; simpl; intros Hnd.
  - constructor; [intros []|constructor].
  - inversion Hnd as [|? ? Hnotin Hnd']; subst.
    destruct (String.eqb k0 k) eqn:E; simpl.
    + apply String.eqb_eq in E. subst k0. constructor; assumption.
    + constructor; [|apply IH; assumption].
      intros Hin. apply (keys_set k v m k0) in Hin. destruct Hin as [->|Hin].
      * rewrite String.eqb_refl in E. discriminate.
      * contradiction.
Qed.

Lemma set_named (k : string) (v : Entity) (m : t) :
  ent_name v = k -> named m -> named (set k v m).
Proof.
  intros Hv. unfold named. induction m as [|[k0 v0] m IH]; simpl; intros Hm.
  - constructor; [assumption|constructor].
  - inversion Hm as [|x l Hx Hl Heq]. destruct (String.eqb k0 k).
    + constructor; assumption.
    + constructor; [assumption|apply IH; assumption].
Qed.

Lemma named_values (m : t) : named m -> map ent_name (values m) = keys m.
Proof.
  unfold named, values, keys. induction 1 as [|[k v] m Hkv _ IH]; simpl.
  - reflexivity.
  - simpl in Hkv. rewrite Hkv, IH. reflexivity.
Qed.

Lemma set_wf (k : string) (v : Entity) (m : t) :
  ent_name v = k -> wf m -> wf (set k v m).
Proof.
  intros Hv [Hnd Hn]. split; [apply set_NoDup|apply set_named]; assumption.
Qed.

Lemma ensure_wf (k : string) (v : Entity) (m : t) :
  ent_name v = k -> wf m -> wf (ensure k v m).
Proof.
  intros Hv Hm. unfold ensure. destruct (has k m); [assumption|].
  apply set_wf; assumption.
Qed.

Lemma ensure_keeps (k : string) (v : Entity) (m : t) (k' : string) :
  In k' (keys m) -> In k' (keys (ensure k v m)).
Proof.
  intros Hin. unfold ensure. destruct (has k m); [assumption|].
  apply keys_set. right. assumption.
Qed.

Lemma ensure_has (k : string) (v : Entity) (m : t) :
  In k (keys (ensure k v m)).
Proof.
  unfold ensure. destruct (has k m) eqn:E.
  - apply has_In. assumption.
  - apply keys_set. left. reflexivity.
Qed.

Lemma set_keeps (k : string) (v : Entity) (m : t) (k' : string) :
  In k' (keys m) -> In k' (keys (set k v m)).
Proof. intros Hin. apply keys_set. right. assumption. Qed.

End EntityMapFacts.

(** ** Invariants of the parser loop *)

Section ParserInvariant.
Import EntityMapFacts.

Lemma resolved_mono (m m' : EntityMap.t) (rels : list Relationship) :
  (forall k, In k (EntityMap.keys m) -> In k (EntityMap.keys m')) ->
  resolved m rels -> resolved m' rels.
Proof.
  intros Hsub Hr r Hin. destruct (Hr r Hin). split; apply Hsub; assumption.
Qed.

Lemma Inv_initial : Inv initial.
Proof.
  constructor; simpl.
  - split; constructor.
  - intros r [].
  - discriminate.
Qed.

Lemma Inv_step (st : ParserState) (rawLine : string) :
  Inv st -> Inv (step st rawLine).
Proof.
  intros [Hwf Hres Hblk]. unfold step.
  destruct (Re.test PATTERNS.EMPTY (Js.trim rawLine)
            || Re.test PATTERNS.COMMENT (Js.trim rawLine));
    [constructor; assumption|].
  destruct (Re.test PATTERNS.ER_DIAGRAM_START (Js.trim rawLine)).
  { constructor; simpl; try assumption.
    intros H. split; [reflexivity|apply Hblk; assumption]. }
  destruct (inERDiagram st) eqn:Hin; simpl;
    [|constructor; simpl; rewrite ?Hin; assumption].
  destruct (Re.test PATTERNS.DIRECTION (Js.trim rawLine));
    [constructor; simpl; rewrite ?Hin; assumption|].
  destruct (Re.test PATTERNS.ENTITY_BLOCK_END (Js.trim rawLine)).
  { destruct (currentEntity st) as [cur|]; constructor; simpl;
      try assumption; try discriminate.
    - apply set_wf; [reflexivity|assumption].
    - eapply resolved_mono; [|eassumption]. intros k. apply set_keeps. }
  destruct (if inEntityBlock st then currentEntity st else None) as [cur|] eqn:Hcur.
  { destruct (Re.exec PATTERNS.ATTRIBUTE (Js.trim rawLine));
      constructor; simpl; rewrite ?Hin; try assumption.
    intros _. split; [reflexivity|discriminate]. }
  destruct (Re.exec PATTERNS.ENTITY_BLOCK_START (Js.trim rawLine)).
  { constructor; simpl; rewrite ?Hin; try assumption.
    intros _. split; [reflexivity|discriminate]. }
  destruct (Re.exec PATTERNS.RELATIONSHIP (Js.trim rawLine)) as [relMatch|].
  { constructor; simpl; rewrite ?Hin; try assumption.
    - apply ensure_wf; [reflexivity|]. apply ensure_wf; [reflexivity|assumption].
    - intros r Hr. apply in_app_or in Hr. destruct Hr as [Hr|[<-|[]]].
      + destruct (Hres r Hr). split; do 2 apply ensure_keeps; assumption.
      + split; [apply ensure_keeps|]; apply ensure_has. }
  destruct (Re.exec PATTERNS.STANDALONE_ENTITY (Js.trim rawLine)).
  { constructor; simpl; rewrite ?Hin; try assumption.
    - apply ensure_wf; [reflexivity|assumption].
    - eapply resolved_mono; [|eassumption]. intros k. apply ensure_keeps. }
  constructor; simpl; rewrite ?Hin; assumption.
Qed.

Lemma Inv_run (lines : list string) (st : ParserState) :
  Inv st -> Inv (run st lines).
Proof.
  revert st. induction lines as [|l lines IH]; intros st Hst; simpl.
  - assumption.
  - apply IH. apply Inv_step. assumption.
Qed.

Lemma close_wf (st : ParserState) : Inv st -> wf (close st).
Proof.
  intros [Hwf _ _]. unfold close. destruct (currentEntity st) as [cur|].
  - apply set_wf; [reflexivity|assumption].
  - assumption.
Qed.

Lemma close_resolved (st : ParserState) :
  Inv st -> resolved (close st) (relationships st).
Proof.
  intros [_ Hres _]. unfold close. destruct (currentEntity st) as [cur|].
  - eapply resolved_mono; [|eassumption]. intros k. apply set_keeps.
  - assumption.
Qed.

End ParserInvariant.

(** ** The checks of the validator on a well-formed schema *)

Lemma indexOf_first (x : string) (pre rest : list string) :
  ~ In x pre -> indexOf x (pre ++ x :: rest) = List.length pre.
Proof.
  induction pre as [|p pre IH]; simpl; intros Hnot.
  - rewrite String.eqb_refl. reflexivity.
  - destruct (String.eqb p x) eqn:E.
    + apply String.eqb_eq in E. exfalso. apply Hnot. left. assumption.
    + f_equal. apply IH. intros Hin. apply Hnot. right. assumption.
Qed.

Lemma duplicates_from_NoDup (rest pre : list string) :
  NoDup (pre ++ rest) ->
  duplicates_from (pre ++ rest) (List.length pre) rest = [].
Proof.
  revert pre. induction rest as [|x rest IH]; intros pre Hnd; simpl.
  - reflexivity.
  - assert (Hx : ~ In x pre).
    { apply NoDup_remove_2 in Hnd. intros Hin. apply Hnd.
      apply in_or_app. left. assumption. }
    rewrite (indexOf_first x pre rest Hx), Nat.eqb_refl.
    specialize (IH (pre ++ [x])%list).
    rewrite <- app_assoc, length_app in IH. simpl in IH.
    rewrite Nat.add_1_r in IH. apply IH. assumption.
Qed.

Lemma duplicates_NoDup (names : list string) :
  NoDup names -> duplicates names = [].
Proof. intros Hnd. apply (duplicates_from_NoDup names []). assumption. Qed.

Lemma names_include_In (name : string) (names : list string) :
  names_include name names = true <-> In name names.
Proof.
  unfold names_include. rewrite existsb_exists. split.
  - intros [x [Hin Heq]]. apply String.eqb_eq in Heq. subst. assumption.
  - intros Hin. exists name. split; [assumption|apply String.eqb_refl].
Qed.

Lemma dangling_errors_resolved (s : DatabaseSchema) :
  (forall r, In r (schema_relationships s) ->
     In (firstEntity r) (map ent_name (schema_entities s)) /\
     In (secondEntity r) (map ent_name (schema_entities s))) ->
  dangling_errors s = [].
Proof.
  unfold dangling_errors. generalize (map ent_name (schema_entities s)).
  intros names. induction (schema_relationships s) as [|r rels IH];
    intros Hres; simpl.
  - reflexivity.
  - destruct (Hres r (or_introl eq_refl)) as [H1 H2].
    apply names_include_In in H1. apply names_include_In in H2.
    rewrite H1, H2. simpl. apply IH.
    intros r' Hr'. apply Hres. right. assumption.
Qed.

(** ** C1 and C9: the result of the parser *)

(** C1.  For every input, [parseERDiagram] reports success exactly when the
    error list it has gathered is empty; it hands back a schema whatever the
    outcome; and its [errors] field is absent when the list is empty and holds
    the list when it is not. *)
Theorem parseERDiagram_success_iff_no_errors (input : string) :
  let st := run initial (Js.split Js.LF input) in
  let r := parseERDiagram input in
  (success r = true <-> errors st = []) /\
  (success r = false <-> errors st <> []) /\
  (exists s, schema r = Some s) /\
  (errors st = [] <-> result_errors r = None) /\
  (errors st <> [] <-> result_errors r = Some (errors st)).
Proof.
  intros st r. subst r. unfold parseERDiagram, parseLines, result_of.
  fold st. simpl. destruct (errors st) as [|e es]; simpl.
  - repeat split; try reflexivity; try discriminate; try congruence;
      eauto.
  - repeat split; try reflexivity; try discriminate; try congruence;
      eauto.
Qed.

(** C9.  For every input, the schema handed back by [parseERDiagram] has no two
    entities of the same name, and both entity names of each of its
    relationships are names of its entities; hence the duplicate-name check and
    the dangling-reference check of [validateERDiagram] add no error, and the
    errors of the validator are those of the parse followed by the header
    check. *)
Theorem parser_schema_well_formed (input : string) :
  exists s,
    schema (parseERDiagram input) = Some s /\
    NoDup (map ent_name (schema_entities s)) /\
    (forall r, In r (schema_relationships s) ->
       In (firstEntity r) (map ent_name (schema_entities s)) /\
       In (secondEntity r) (map ent_name (schema_entities s))) /\
    duplicate_errors s = [] /\
    dangling_errors s = [] /\
    validation_errors (validateERDiagram input) =
      (errors (run initial (Js.split Js.LF input)) ++ header_errors input)%list.
Proof.
  pose (st := run initial (Js.split Js.LF input)).
  assert (HI : Inv st) by (apply Inv_run, Inv_initial).
  pose proof (close_wf st HI) as [Hnd Hnamed].
  pose proof (close_resolved st HI) as Hres.
  pose proof (EntityMapFacts.named_values _ Hnamed) as Hnames.
  exists (mkSchema (EntityMap.values (close st)) (relationships st)).
  assert (Hno : NoDup (map ent_name (EntityMap.values (close st))))
    by (rewrite Hnames; assumption).
  assert (Hin : forall r, In r (relationships st) ->
             In (firstEntity r) (map ent_name (EntityMap.values (close st))) /\
             In (secondEntity r) (map ent_name (EntityMap.values (close st))))
    by (rewrite Hnames; assumption).
  assert (Hdup : duplicate_errors
                   (mkSchema (EntityMap.values (close st)) (relationships st)) = []).
  { unfold duplicate_errors. simpl. rewrite (duplicates_NoDup _ Hno).
    reflexivity. }
  assert (Hdang : dangling_errors
                    (mkSchema (EntityMap.values (close st)) (relationships st)) = []).
  { apply dangling_errors_resolved. simpl. assumption. }
  repeat split; try assumption.
  - apply Hin. assumption.
  - apply Hin. assumption.
  - unfold validateERDiagram, parseERDiagram, parseLines, result_of.
    fold st. cbv zeta. cbn [schema result_errors validation_errors].
    rewrite Hdup, Hdang. rewrite !app_nil_r.
    destruct (errors st); reflexivity.
Qed.

(** ** C5: a line of an entity block that is no attribute *)

Section BadAttributeLine.

Lemma set_errors_same (st : ParserState) : set_errors (errors st) st = st.
Proof. destruct st; reflexivity. Qed.

(** A branch of the loop that leaves the error list as it is. *)
Ltac no_new_error :=
  exists []; intros; rewrite app_nil_r; reflexivity.

(** The loop only ever appends to the error list, and nothing else of the
    state depends on that list. *)
Lemma step_frame (st : ParserState) (rawLine : string) :
  exists delta, forall es,
    step (set_errors es st) rawLine = set_errors (es ++ delta) (step st rawLine).
Proof.
  unfold step; simpl.
  destruct (Re.test PATTERNS.EMPTY (Js.trim rawLine)
            || Re.test PATTERNS.COMMENT (Js.trim rawLine)); [no_new_error|].
  destruct (Re.test PATTERNS.ER_DIAGRAM_START (Js.trim rawLine));
    [no_new_error|].
  destruct (negb (inERDiagram st)); [no_new_error|].
  destruct (Re.test PATTERNS.DIRECTION (Js.trim rawLine)); [no_new_error|].
  destruct (Re.test PATTERNS.ENTITY_BLOCK_END (Js.trim rawLine));
    [destruct (currentEntity st); no_new_error|].
  destruct (if inEntityBlock st then currentEntity st else None).
  { destruct (Re.exec PATTERNS.ATTRIBUTE (Js.trim rawLine)); [no_new_error|].
    exists [attribute_error (S (lineNumber st)) (Js.trim rawLine)].
    intros es. reflexivity. }
  destruct (Re.exec PATTERNS.ENTITY_BLOCK_START (Js.trim rawLine));
    [no_new_error|].
  destruct (Re.exec PATTERNS.RELATIONSHIP (Js.trim rawLine)); [no_new_error|].
  destruct (Re.exec PATTERNS.STANDALONE_ENTITY (Js.trim rawLine));
    no_new_error.
Qed.

Lemma run_frame (lines : list string) (st : ParserState) :
  exists delta, forall es,
    run (set_errors es st) lines = set_errors (es ++ delta) (run st lines).
Proof.
  revert st. induction lines as [|l lines IH]; intros st; simpl.
  - exists []. intros es. rewrite app_nil_r. reflexivity.
  - destruct (step_frame st l) as [d1 H1].
    destruct (IH (step st l)) as [d2 H2].
    exists (d1 ++ d2)%list. intros es.
    rewrite H1, H2, app_assoc. reflexivity.
Qed.

Lemma lineNumber_step (st : ParserState) (rawLine : string) :
  lineNumber (step st rawLine) = S (lineNumber st).
Proof.
  unfold step.
  repeat match goal with
         | |- context [if ?b then _ else _] => destruct b
         | |- context [match ?x with _ => _ end] => destruct x
         end; reflexivity.
Qed.

Lemma lineNumber_run (lines : list string) (st : ParserState) :
  lineNumber (run st lines) = lineNumber st + List.length lines.
Proof.
  revert st. induction lines as [|l lines IH]; intros st.
  - simpl. lia.
  - change (run st (l :: lines)) with (run (step st l) lines).
    rewrite IH, lineNumber_step. simpl. lia.
Qed.

Lemma run_app (st : ParserState) (pre : list string) (l : string)
      (post : list string) :
  run st (pre ++ l :: post) = run (step (run st pre) l) post.
Proof. unfold run. rewrite fold_left_app. reflexivity. Qed.

(** The turn of the loop on such a line inside a block: the error is appended,
    the line is counted, and the rest of the state stays. *)
Lemma step_bad_attribute (st : ParserState) (rawLine : string) :
  Inv st ->
  inEntityBlock st = true ->
  attribute_candidate (Js.trim rawLine) = true ->
  Re.exec PATTERNS.ATTRIBUTE (Js.trim rawLine) = None ->
  step st rawLine =
  set_errors
    (errors st ++ [attribute_error (S (lineNumber st)) (Js.trim rawLine)])
    (step st EmptyString).
Proof.
  intros [_ _ Hblk] Hin Hcand Hno. destruct (Hblk Hin) as [Hd Hcur].
  unfold attribute_candidate in Hcand.
  apply andb_prop in Hcand. destruct Hcand as [Hcand H4].
  apply andb_prop in Hcand. destruct Hcand as [Hcand H3].
  apply andb_prop in Hcand. destruct Hcand as [H1 H2].
  apply negb_true_iff in H1, H2, H3, H4.
  unfold step. rewrite H1, H2, H3, H4, Hd, Hin, Hno. simpl.
  destruct (currentEntity st) as [cur|]; [|congruence].
  reflexivity.
Qed.

End BadAttributeLine.

(** C5, as amended.  Let the lines of an input be [pre], then [bad], then
    [post], where [bad] stands inside an entity block, reaches the attribute
    branch (it is not blank, a comment, the header, a direction or a closing
    brace) and fails the attribute pattern.  Then the parser records exactly one
    error for it, the text [Line n: Unable to parse attribute: ] followed by the
    trimmed line between double quotes, with [n] the 1-based number of the
    line, placed between the errors of the lines before and those of the lines
    after; parsing fails but goes on, and the schema handed back is the one of
    the input that has a blank line in the place of [bad]: every attribute,
    entity and relationship of the other lines is kept. *)
Theorem bad_attribute_line_recorded_and_skipped
        (input blanked : string) (pre post : list string) (bad : string) :
  Js.split Js.LF input = (pre ++ bad :: post)%list ->
  Js.split Js.LF blanked = (pre ++ EmptyString :: post)%list ->
  inEntityBlock (run initial pre) = true ->
  attribute_candidate (Js.trim bad) = true ->
  Re.exec PATTERNS.ATTRIBUTE (Js.trim bad) = None ->
  let message :=
    "Line " ++ Js.of_nat (S (List.length pre)) ++ ": Unable to parse attribute: "
    ++ Js.DQ ++ Js.trim bad ++ Js.DQ in
  exists after,
    errors (run initial (Js.split Js.LF blanked))
      = (errors (run initial pre) ++ after)%list /\
    result_errors (parseERDiagram input)
      = Some (errors (run initial pre) ++ message :: after)%list /\
    success (parseERDiagram input) = false /\
    schema (parseERDiagram input) = schema (parseERDiagram blanked).
Proof.
  intros Hin Hbl Hblock Hcand Hno message.
  set (st := run initial pre) in *.
  assert (HI : Inv st) by (apply Inv_run, Inv_initial).
  pose proof (step_bad_attribute st bad HI Hblock Hcand Hno) as Hstep.
  assert (Hn : lineNumber st = List.length pre)
    by (unfold st; rewrite lineNumber_run; reflexivity).
  rewrite Hn in Hstep.
  change (attribute_error (S (List.length pre)) (Js.trim bad))
    with message in Hstep.
  pose (X := step st EmptyString).
  assert (HX : errors X = errors st) by reflexivity.
  destruct (run_frame post X) as [after Hframe].
  assert (Hblank : run initial (pre ++ EmptyString :: post) =
                   set_errors (errors st ++ after) (run X post)).
  { rewrite run_app. fold st. fold X.
    rewrite <- (set_errors_same X) at 1. rewrite HX. apply Hframe. }
  assert (Hbad : run initial (pre ++ bad :: post) =
                 set_errors ((errors st ++ [message]) ++ after) (run X post)).
  { rewrite run_app. fold st. rewrite Hstep. fold X. apply Hframe. }
  exists after.
  unfold parseERDiagram, parseLines. rewrite Hin, Hbl, Hbad, Hblank.
  unfold result_of. simpl. rewrite <- app_assoc. simpl.
  repeat split.
  - destruct (errors st); reflexivity.
  - destruct (errors st); reflexivity.
Qed.

(** The fourth line of a block of six. *)
Lemma bad_attribute_line_witness :
  exists after,
    errors (run initial (Js.split Js.LF block_with_blank_line))
      = (errors (run initial block_before) ++ after)%list /\
    result_errors (parseERDiagram block_with_bad_line)
      = Some (errors (run initial block_before)
              ++ ("Line 4: Unable to parse attribute: " ++ Js.DQ ++ "???"
                  ++ Js.DQ)%string
                 :: after)%list /\
    success (parseERDiagram block_with_bad_line) = false /\
    schema (parseERDiagram block_with_bad_line) = schema (parseERDiagram block_with_blank_line).
Proof.
  apply (bad_attribute_line_recorded_and_skipped
           block_with_bad_line block_with_blank_line block_before block_after "???");
    vm_compute; reflexivity.
Defined.

(** The claim C5 as it is worded fails twice.  The text recorded is not the one
    the claim gives (it starts with a capital and puts the line between double
    quotes); and a line of a block that fails the attribute pattern is not
    always recorded: a comment line is skipped before the pattern is tried. *)

Lemma attribute_error_text_counterexample :
  (result_errors (parseERDiagram (Js.join Js.NL ["erDiagram"; "A {"; "???"; "}"]))
   = Some ["Line 3: Unable to parse attribute: " ++ Js.DQ ++ "???" ++ Js.DQ]
   /\ result_errors (parseERDiagram (Js.join Js.NL ["erDiagram"; "A {"; "???"; "}"]))
      <> Some ["Line 3: unable to parse attribute: ???"])
  /\ (inEntityBlock (run initial ["erDiagram"; "A {"]) = true
      /\ Re.exec PATTERNS.ATTRIBUTE (Js.trim "%% note") = None
      /\ result_errors (parseERDiagram block_with_comment) = None).
Proof.
  split; [split|repeat split]; try (vm_compute; reflexivity).
  vm_compute. discriminate.
Qed.

(** ** Facts on strings *)

Module StringFacts.

Lemma append_assoc (a b c : string) : (a ++ b) ++ c = a ++ (b ++ c).
Proof. induction a as [|x a IH]; simpl; [reflexivity|rewrite IH; reflexivity]. Qed.

Lemma append_nil_r (a : string) : a ++ "" = a.
Proof. induction a as [|x a IH]; simpl; [reflexivity|rewrite IH; reflexivity]. Qed.

Lemma append_nonempty_r (a b : string) : b <> "" -> a ++ b <> "".
Proof.
  intros Hb. destruct a; simpl; [assumption|discriminate].
Qed.

Lemma append_nonempty_l (a b : string) : a <> "" -> a ++ b <> "".
Proof.
  intros Ha. destruct a; simpl; [congruence|discriminate].
Qed.

End StringFacts.

(** ** The captures of a match *)

Module ReFacts.
Import Re.

Lemma agree_refl (G : list nat) (c : Caps) : agree_outside G c c.
Proof. intros i _. reflexivity. Qed.

Lemma agree_trans (G1 G2 G : list nat) (c1 c2 c3 : Caps) :
  incl G1 G -> incl G2 G ->
  agree_outside G1 c1 c2 -> agree_outside G2 c2 c3 -> agree_outside G c1 c3.
Proof.
  intros H1 H2 A1 A2 i Hi. rewrite A2, A1; auto.
Qed.

(** A match that succeeds has called its continuation, with captures that
    differ from the ones it started with on the groups of the pattern at
    most. *)
Lemma rmatch_continues (r : re) :
  forall pos s c k res,
    rmatch r pos s c k = Some res ->
    exists pos' s' c',
      k pos' s' c' = Some res /\ agree_outside (groups r) c c'.
Proof.
  induction r as [|p|r1 IH1 r2 IH2|r1 IH1 r2 IH2|r1 IH1|i r1 IH1| |];
    intros pos s c k res H; simpl in H.
  - exists pos, s, c. split; [assumption|apply agree_refl].
  - destruct s as [|a s']; [discriminate|]. destruct (p a); [|discriminate].
    exists (S pos), s', c. split; [assumption|apply agree_refl].
  - apply IH1 in H. destruct H as [pos1 [s1 [c1 [H A1]]]].
    apply IH2 in H. destruct H as [pos2 [s2 [c2 [H A2]]]].
    exists pos2, s2, c2. split; [assumption|].
    simpl. eapply agree_trans; [| |exact A1|exact A2];
      [apply incl_appl|apply incl_appr]; apply incl_refl.
  - destruct (rmatch r1 pos s c k) as [res1|] eqn:E1.
    + injection H as ->. apply IH1 in E1. destruct E1 as [pos1 [s1 [c1 [H A1]]]].
      exists pos1, s1, c1. split; [assumption|].
      simpl. intros i Hi. apply A1. intros Hin. apply Hi.
      apply in_or_app. left. assumption.
    + apply IH2 in H. destruct H as [pos2 [s2 [c2 [H A2]]]].
      exists pos2, s2, c2. split; [assumption|].
      simpl. intros i Hi. apply A2. intros Hin. apply Hi.
      apply in_or_app. right. assumption.
  - set (fuel := String.length s) in H. clearbody fuel. revert pos s c H.
    induction fuel as [|fuel IHf]; intros pos s c H.
    + exists pos, s, c. split; [assumption|apply agree_refl].
    + match type of H with
      | match ?X with _ => _ end = _ => destruct X as [res1|] eqn:E1
      end.
      * injection H as ->. apply IH1 in E1.
        destruct E1 as [pos1 [s1 [c1 [H A1]]]].
        destruct (pos <? pos1); [|discriminate].
        apply IHf in H. destruct H as [pos2 [s2 [c2 [H A2]]]].
        exists pos2, s2, c2. split; [assumption|].
        simpl in *. eapply agree_trans; [| |exact A1|exact A2]; apply incl_refl.
      * exists pos, s, c. split; [assumption|apply agree_refl].
  - apply IH1 in H. destruct H as [pos1 [s1 [c1 [H A1]]]].
    eexists _, _, _. split; [exact H|].
    intros j Hj. simpl in Hj. simpl.
    destruct (j =? i) eqn:E.
    + apply Nat.eqb_eq in E. exfalso. apply Hj. left. symmetry. assumption.
    + apply A1. intros Hin. apply Hj. right. assumption.
  - destruct (pos =? 0); [|discriminate].
    exists pos, s, c. split; [assumption|apply agree_refl].
  - destruct s; [|discriminate].
    exists pos, EmptyString, c. split; [assumption|apply agree_refl].
Qed.

Lemma take_append (l s' : string) (pos : nat) :
  Js.take (pos + String.length l - pos) (l ++ s') = l.
Proof.
  replace (pos + String.length l - pos) with (String.length l) by lia.
  unfold Js.take. induction l as [|a l IH]; simpl.
  - destruct s'; reflexivity.
  - rewrite IH. reflexivity.
Qed.

(** A literal consumes itself and leaves the captures alone. *)
Lemma rmatch_Lit (l : string) :
  l <> EmptyString ->
  forall pos s c k res,
    rmatch (Lit l) pos s c k = Some res ->
    exists s', s = l ++ s' /\ k (pos + String.length l) s' c = Some res.
Proof.
  induction l as [|a l IH]; intros Hne pos s c k res H; [congruence|].
  destruct l as [|b l].
  - simpl in H. destruct s as [|a' s']; [discriminate|].
    unfold Js.is_char in H. destruct (Ascii.eqb a' a) eqn:E; [|discriminate].
    apply Ascii.eqb_eq in E. subst a'. exists s'. split; [reflexivity|].
    simpl. rewrite Nat.add_1_r. assumption.
  - change (Lit (String a (String b l)))
      with (Seq (Chr (Js.is_char a)) (Lit (String b l))) in H.
    simpl rmatch in H. destruct s as [|a' s']; [discriminate|].
    unfold Js.is_char in H at 1. destruct (Ascii.eqb a' a) eqn:E; [|discriminate].
    apply Ascii.eqb_eq in E. subst a'.
    apply IH in H; [|discriminate]. destruct H as [s'' [-> H]].
    exists s''. split; [reflexivity|].
    simpl String.length. rewrite <- Nat.add_succ_comm. assumption.
Qed.

Lemma rmatch_Any_Lit (lits : list string) :
  Forall (fun l => l <> EmptyString) lits ->
  forall pos s c k res,
    rmatch (Any (map Lit lits)) pos s c k = Some res ->
    exists l s', In l lits /\ s = l ++ s'
                 /\ k (pos + String.length l) s' c = Some res.
Proof.
  induction 1 as [|l lits Hl Hlits IH]; intros pos s c k res H.
  - simpl in H. destruct s; discriminate.
  - destruct lits as [|l2 lits].
    + simpl in H. apply rmatch_Lit in H; [|assumption].
      destruct H as [s' [-> H]]. exists l, s'. simpl. auto.
    + change (Any (map Lit (l :: l2 :: lits)))
        with (Alt (Lit l) (Any (map Lit (l2 :: lits)))) in H.
      simpl rmatch in H.
      destruct (rmatch (Lit l) pos s c k) as [res1|] eqn:E1.
      * injection H as ->. apply rmatch_Lit in E1; [|assumption].
        destruct E1 as [s' [-> H]]. exists l, s'. simpl. auto.
      * apply IH in H. destruct H as [l' [s' [Hin [-> H]]]].
        exists l', s'. split; [right; assumption|auto].
Qed.

(** A group over literal alternatives captures one of them. *)
Lemma rmatch_Grp_Any_Lit (i : nat) (lits : list string) :
  Forall (fun l => l <> EmptyString) lits ->
  forall pos s c k res,
    rmatch (Grp i (Any (map Lit lits))) pos s c k = Some res ->
    exists l s', In l lits /\ k (pos + String.length l) s' ((i, l) :: c) = Some res.
Proof.
  intros Hne pos s c k res H. simpl in H.
  apply (rmatch_Any_Lit lits Hne) in H.
  destruct H as [l [s' [Hin [-> H]]]].
  rewrite take_append in H. exists l, s'. auto.
Qed.

(** The head of a sequence runs with the rest as its continuation. *)
Lemma Cat_cons (r r' : re) (rs : list re) :
  forall pos s c k res,
    rmatch (Cat (r :: r' :: rs)) pos s c k = Some res ->
    rmatch r pos s c (fun pos' s' c' => rmatch (Cat (r' :: rs)) pos' s' c' k)
    = Some res.
Proof. intros. assumption. Qed.

(** A search that succeeds is a match at some position. *)
Lemma exec_from_rmatch (r : re) (s : string) :
  forall pos m,
    exec_from r pos s = Some m ->
    exists pos' s', rmatch r pos' s' [] (fun _ _ c => Some c) = Some m.
Proof.
  induction s as [|a s IH]; intros pos m H; simpl in H.
  - destruct (rmatch r pos EmptyString [] (fun _ _ c => Some c)) eqn:E;
      [|discriminate].
    injection H as ->. eauto.
  - destruct (rmatch r pos (String a s) [] (fun _ _ c => Some c)) eqn:E.
    + injection H as ->. eauto.
    + eapply IH. eassumption.
Qed.

End ReFacts.

(** Groups 2 and 4 of a match of [RELATIONSHIP] are tokens of the connector. *)
Lemma RELATIONSHIP_cardinality_groups (line : string) (m : Re.Caps) :
  Re.exec PATTERNS.RELATIONSHIP line = Some m ->
  (exists l, In l left_tokens /\ Re.cap 2 m = Some l) /\
  (exists l, In l right_tokens /\ Re.cap 4 m = Some l).
Proof.
  intros H. apply ReFacts.exec_from_rmatch in H. destruct H as [pos [s H]].
  unfold PATTERNS.RELATIONSHIP in H.
  (* Bol, white space, the first name, white space *)
  do 4 (apply ReFacts.Cat_cons, ReFacts.rmatch_continues in H;
        destruct H as [? [? [? [H _]]]]).
  (* the left token *)
  apply ReFacts.Cat_cons in H.
  change (Re.Any [Re.Lit "|o"; Re.Lit "o|"; Re.Lit "||"; Re.Lit "}|";
                  Re.Lit "}o"; Re.Lit "o{"; Re.Lit "|{"])
    with (Re.Any (map Re.Lit left_tokens)) in H.
  apply ReFacts.rmatch_Grp_Any_Lit in H;
    [|repeat constructor; discriminate].
  destruct H as [l [s1 [Hl H]]].
  assert (H2 := H).
  apply ReFacts.rmatch_continues in H2. destruct H2 as [? [? [c2 [Hfin A2]]]].
  injection Hfin as <-.
  split.
  { exists l. split; [assumption|]. rewrite A2; [simpl; reflexivity|].
    vm_compute. intuition discriminate. }
  (* the line style, then the right token *)
  apply ReFacts.Cat_cons, ReFacts.rmatch_continues in H.
  destruct H as [? [? [? [H _]]]].
  apply ReFacts.Cat_cons in H.
  change (Re.Any [Re.Lit "o|"; Re.Lit "o{"; Re.Lit "||"; Re.Lit "|o";
                  Re.Lit "|{"; Re.Lit "{|"; Re.Lit "{o"])
    with (Re.Any (map Re.Lit right_tokens)) in H.
  apply ReFacts.rmatch_Grp_Any_Lit in H;
    [|repeat constructor; discriminate].
  destruct H as [r [s2 [Hr H]]].
  apply ReFacts.rmatch_continues in H. destruct H as [? [? [c4 [Hfin A4]]]].
  injection Hfin as <-.
  exists r. split; [assumption|]. rewrite A4; [simpl; reflexivity|].
  vm_compute. intuition discriminate.
Qed.

(** The relationships of the parser hold cardinalities: the tokens that reach
    the codec through [RELATIONSHIP] are tokens of its alphabet. *)
Lemma tokens_decode :
  Forall (fun l => is_cardinality (parseCardinality l))
         (left_tokens ++ right_tokens).
Proof. repeat constructor; eexists; reflexivity. Qed.

Lemma relationship_of_match_proper (line : string) (m : Re.Caps) :
  Re.exec PATTERNS.RELATIONSHIP line = Some m ->
  proper_relationship (relationship_of_match m).
Proof.
  intros H. apply RELATIONSHIP_cardinality_groups in H.
  destruct H as [[l [Hl H2]] [r [Hr H4]]].
  pose proof tokens_decode as Hdec. rewrite Forall_forall in Hdec.
  unfold proper_relationship, relationship_of_match, group. simpl.
  rewrite H2, H4. split; apply Hdec; apply in_or_app; [left|right]; assumption.
Qed.

Lemma step_proper (st : ParserState) (rawLine : string) :
  Forall proper_relationship (relationships st) ->
  Forall proper_relationship (relationships (step st rawLine)).
Proof.
  intros Hst. unfold step.
  repeat match goal with
         | |- context [Re.exec PATTERNS.RELATIONSHIP ?l] =>
             destruct (Re.exec PATTERNS.RELATIONSHIP l) eqn:Hrel
         | |- context [if ?b then _ else _] => destruct b
         | |- context [match ?x with _ => _ end] => destruct x
         end; simpl; try assumption;
    (apply Forall_app; split; [assumption|];
     constructor; [|constructor];
     eapply relationship_of_match_proper; eassumption).
Qed.

Lemma parsed_relationships_proper (input : string) (s : DatabaseSchema) :
  schema (parseERDiagram input) = Some s ->
  Forall proper_relationship (schema_relationships s).
Proof.
  unfold parseERDiagram, parseLines, result_of. simpl. intros [= <-]. simpl.
  generalize (Js.split Js.LF input). intros lines.
  assert (H : Forall proper_relationship (relationships initial))
    by constructor.
  revert H. generalize initial. induction lines as [|l lines IH]; intros st H.
  - assumption.
  - apply (IH (step st l)). apply step_proper. assumption.
Qed.

(** ** C8: the cardinality codec *)

Lemma remove_spaces_idempotent (s : string) :
  remove_spaces (remove_spaces s) = remove_spaces s.
Proof.
  induction s as [|c s IH]; simpl; [reflexivity|].
  destruct (Js.is_space c) eqn:E; simpl; [assumption|].
  rewrite E, IH. reflexivity.
Qed.

(** White space inside a token does not count. *)
Lemma parseCardinality_ignores_spaces (symbol : string) :
  parseCardinality (remove_spaces symbol) = parseCardinality symbol.
Proof. unfold parseCardinality. rewrite remove_spaces_idempotent. reflexivity. Qed.

(** The fixed alphabet, in both orientations. *)
Lemma parseCardinality_alphabet :
  parseCardinality "|o" = Card ZERO_OR_ONE /\
  parseCardinality "o|" = Card ZERO_OR_ONE /\
  parseCardinality "||" = Card EXACTLY_ONE /\
  parseCardinality "}o" = Card ZERO_OR_MORE /\
  parseCardinality "o{" = Card ZERO_OR_MORE /\
  parseCardinality "{o" = Card ZERO_OR_MORE /\
  parseCardinality "}|" = Card ONE_OR_MORE /\
  parseCardinality "|{" = Card ONE_OR_MORE /\
  parseCardinality "{|" = Card ONE_OR_MORE.
Proof. repeat split. Qed.

(** A token outside the alphabet decodes to [EXACTLY_ONE] when, white space
    removed, it is not the name of a property the symbol table inherits. *)
Lemma parseCardinality_unknown (symbol : string) :
  names_include (remove_spaces symbol) cardinality_alphabet = false ->
  Obj.inherited (remove_spaces symbol) = None ->
  parseCardinality symbol = Card EXACTLY_ONE.
Proof.
  unfold parseCardinality, names_include, cardinality_alphabet, Obj.get.
  generalize (remove_spaces symbol). intros n Hn Hinh. simpl in Hn.
  repeat (apply orb_false_elim in Hn; destruct Hn as [? Hn]).
  repeat match goal with
         | H : String.eqb n ?t = false |- _ => rewrite H; revert H
         end.
  intros. cbn [orb]. unfold CARDINALITY_SYMBOLS. cbn [Obj.assoc].
  rewrite !(String.eqb_sym _ n).
  repeat match goal with
         | H : String.eqb n ?t = false |- _ => rewrite H; clear H
         end.
  rewrite Hinh. reflexivity.
Qed.

(** C8 fails on the code at the token [constructor].  The token is outside the
    alphabet and holds no white space, and the codec hands back the function
    the symbol table inherits under that name, not [EXACTLY_ONE]. *)
Theorem parseCardinality_inherited_name :
  remove_spaces "constructor" = "constructor" /\
  names_include "constructor" cardinality_alphabet = false /\
  Obj.get CARDINALITY_SYMBOLS "constructor" = Obj.FromPrototype Obj.constructor /\
  parseCardinality "constructor" = NotACardinality Obj.constructor /\
  parseCardinality "constructor" <> Card EXACTLY_ONE.
Proof. repeat split. discriminate. Qed.

(** ** C6: the type mapper *)

Lemma assoc_In {A : Type} (k : string) (l : list (string * A)) (a : A) :
  Obj.assoc k l = Some a -> In (k, a) l.
Proof.
  induction l as [|[k' a'] l IH]; simpl; [discriminate|].
  destruct (String.eqb k' k) eqn:E.
  - apply String.eqb_eq in E. intros [= ->]. left. congruence.
  - intros H. right. apply IH. assumption.
Qed.

Lemma TYPE_MAPPING_nonempty :
  Forall (fun kv => snd kv <> EmptyString) TYPE_MAPPING.
Proof. repeat constructor; discriminate. Qed.

Lemma own_or_text_nonempty (key : string) : own_or_text key <> "".
Proof.
  unfold own_or_text. destruct (Obj.assoc key TYPE_MAPPING) as [v|] eqn:E.
  - apply assoc_In in E.
    pose proof TYPE_MAPPING_nonempty as H. rewrite Forall_forall in H.
    apply (H _ E).
  - discriminate.
Qed.

Lemma mapping_or_text_own (key : string) :
  hits_inherited key = false -> mapping_or_text key = PgType (own_or_text key).
Proof.
  unfold hits_inherited, mapping_or_text, own_or_text, Obj.get.
  destruct (Obj.assoc key TYPE_MAPPING); [reflexivity|].
  destruct (Obj.inherited key); [discriminate|reflexivity].
Qed.

(** Away from the inherited names [mapType] returns a non-empty string: for the
    array form the entry of the base type (or the text type) with the brackets
    appended, for a plain name its entry, or the text type when it has none. *)
Lemma mapType_outside_inherited (mermaidType : string) :
  reads_inherited mermaidType = false ->
  let normalized := Js.trim (Js.toLowerCase mermaidType) in
  exists pg,
    mapType mermaidType = Normal (PgType pg) /\
    pg <> "" /\
    (Js.endsWith "[]" normalized = true ->
     pg = own_or_text (Js.slice_to_minus 2 normalized) ++ "[]") /\
    (Js.endsWith "[]" normalized = false ->
     Re.exec PARAMETERIZED normalized = None ->
     pg = own_or_text normalized) /\
    (Js.endsWith "[]" normalized = false ->
     Re.exec PARAMETERIZED normalized = None ->
     Obj.assoc normalized TYPE_MAPPING = None ->
     pg = "TEXT").
Proof.
  unfold reads_inherited, mapType. cbv zeta.
  set (normalized := Js.trim (Js.toLowerCase mermaidType)).
  assert (Hplain : hits_inherited normalized = false ->
            exists pg, Normal (mapping_or_text normalized) = Normal (PgType pg) /\
                       pg <> "" /\ pg = own_or_text normalized).
  { intros H. exists (own_or_text normalized).
    rewrite (mapping_or_text_own _ H).
    split; [reflexivity|split; [apply own_or_text_nonempty|reflexivity]]. }
  destruct (Js.endsWith "[]" normalized) eqn:Harr.
  - intros Hinh. rewrite (mapping_or_text_own _ Hinh). simpl show_type.
    eexists. split; [reflexivity|].
    split; [apply StringFacts.append_nonempty_r; discriminate|].
    repeat split; try reflexivity; discriminate.
  - destruct (Re.exec PARAMETERIZED normalized) as [paramMatch|] eqn:Hpar.
    + destruct (Obj.get TYPE_MAPPING (group 1 paramMatch)) as [pgBaseType|m|].
      * intros _. destruct (Js.includes "(" pgBaseType);
          (eexists; split; [reflexivity|];
           split; [apply StringFacts.append_nonempty_r; discriminate|];
           repeat split; intros; discriminate).
      * discriminate.
      * intros Hinh. destruct (Hplain Hinh) as [pg [H1 [H2 H3]]].
        exists pg. repeat split; try assumption; intros; discriminate.
    + intros Hinh. destruct (Hplain Hinh) as [pg [H1 [H2 H3]]].
      exists pg. repeat split; try assumption; try discriminate.
      * intros _ _. exact H3.
      * intros _ _ Hnone. rewrite H3. unfold own_or_text. rewrite Hnone.
        reflexivity.
Qed.

(** C6, as amended.  For every input on which [mapType] reads no inherited
    property of its table, it returns a non-empty SQL type; a plain name
    without an entry maps to the generic text type; and an input whose
    lower-cased, trimmed form ends in a pair of brackets maps to the entry of
    the table for the base type (the generic text type when the base has no
    entry) with the brackets appended.  For each base type of the table this
    is [mapType] of the base with the brackets appended. *)
Theorem mapType_total_and_array_form (mermaidType : string) :
  reads_inherited mermaidType = false ->
  let normalized := Js.trim (Js.toLowerCase mermaidType) in
  (exists pg,
     mapType mermaidType = Normal (PgType pg) /\
     pg <> "" /\
     (Js.endsWith "[]" normalized = true ->
      pg = own_or_text (Js.slice_to_minus 2 normalized) ++ "[]") /\
     (Js.endsWith "[]" normalized = false ->
      Re.exec PARAMETERIZED normalized = None ->
      Obj.assoc normalized TYPE_MAPPING = None ->
      pg = "TEXT")) /\
  Forall (fun kv =>
            mapType (fst kv) = Normal (PgType (snd kv)) /\
            mapType (fst kv ++ "[]") = Normal (PgType (snd kv ++ "[]")))
         TYPE_MAPPING.
Proof.
  intros Hinh normalized. split.
  - destruct (mapType_outside_inherited mermaidType Hinh)
      as [pg [H1 [H2 [H3 [_ H5]]]]].
    exists pg. repeat split; assumption.
  - repeat constructor.
Qed.

(** An array of integers. *)
Lemma mapType_total_and_array_form_witness :
  exists pg,
    mapType "int[]" = Normal (PgType pg) /\ pg <> "" /\ pg = "INTEGER" ++ "[]".
Proof.
  destruct (mapType_total_and_array_form "int[]" eq_refl)
    as [[pg [H1 [H2 [H3 _]]]] _].
  exists pg. split; [exact H1|]. split; [exact H2|]. exact (H3 eq_refl).
Defined.

(** The claim C6 as it is worded fails on an array of a parameterized type:
    the base is looked up in the table as it stands, and is not mapped by
    [mapType] itself. *)
Lemma mapType_array_of_parameterized_counterexample :
  mapType "varchar(100)[]" = Normal (PgType "TEXT[]") /\
  mapType "varchar(100)" = Normal (PgType "VARCHAR(100)") /\
  "TEXT[]" <> "VARCHAR(100)" ++ "[]".
Proof. repeat split. discriminate. Qed.

(** On the two lower-case names the table inherits, [mapType] hands back a
    value that is no string, or throws. *)
Lemma mapType_inherited_names :
  mapType "constructor" = Normal (PgInherited Obj.constructor) /\
  mapType "constructor(5)"
    = Throw "TypeError: pgBaseType.includes is not a function" /\
  mapType "constructor[]"
    = Normal (PgType "function Object() { [native code] }[]").
Proof. repeat split. Qed.

(** ** C3: the CREATE TABLE statement *)

Lemma fold_left_push {A B : Type} (f : A -> B) (l : list A) (init : list B) :
  fold_left (fun acc x => (acc ++ [f x])%list) l init = (init ++ map f l)%list.
Proof.
  revert init. induction l as [|x l IH]; intros init; simpl.
  - rewrite app_nil_r. reflexivity.
  - rewrite IH, <- app_assoc. reflexivity.
Qed.

Lemma columns_loop (attrs : list Attribute) (columns : list string) :
  Forall (fun a => reads_inherited (attr_type a) = false) attrs ->
  fold_left
    (fun acc attr =>
       bind acc (fun columns =>
       let colName := toColumnName (attr_name attr) in
       bind (mapType (attr_type attr)) (fun colType =>
       let colDef := "  " ++ quoted colName ++ " " ++ show_type colType in
       let colDef := if is_pk attr then colDef ++ " NOT NULL" else colDef in
       Normal (columns ++ [colDef])%list)))
    attrs (Normal columns)
  = Normal (columns ++ map CreateTableSpec.column_definition attrs)%list.
Proof.
  intros Hok. revert columns.
  induction Hok as [|a attrs Ha _ IH]; intros columns; simpl.
  - rewrite app_nil_r. reflexivity.
  - destruct (mapType_outside_inherited _ Ha) as [pg [Hpg _]].
    rewrite Hpg. simpl bind. rewrite IH, <- app_assoc. simpl.
    unfold CreateTableSpec.column_definition, CreateTableSpec.mapped_type,
      CreateTableSpec.column_name, is_pk.
    rewrite Hpg. reflexivity.
Qed.

(** C3, as amended.  For every entity whose attribute types [mapType] maps
    without reading an inherited property, [generateCreateTable] emits the
    CREATE TABLE IF NOT EXISTS statement made of one column definition for each
    attribute in attribute order (the quoted normalized column name, the type
    [mapType] returns for it, and NOT NULL exactly when the keys of the
    attribute contain PK), followed, when at least one attribute carries PK, by
    one PRIMARY KEY constraint listing the PK columns in attribute order,
    followed by one UNIQUE constraint for each attribute that carries UK and
    not PK. *)
Theorem generateCreateTable_layout (entity : Entity) :
  Forall (fun a => reads_inherited (attr_type a) = false)
         (ent_attributes entity) ->
  generateCreateTable entity = Normal (CreateTableSpec.statement entity) /\
  Forall (fun a => mapType (attr_type a)
                   = Normal (PgType (CreateTableSpec.mapped_type a)))
         (ent_attributes entity).
Proof.
  intros Hok. split.
  - pose proof (columns_loop _ [] Hok) as Hcolumns. cbv zeta in Hcolumns.
    unfold generateCreateTable. rewrite Hcolumns.
    simpl bind. rewrite fold_left_push.
    unfold CreateTableSpec.statement, CreateTableSpec.primary_key_constraint,
      CreateTableSpec.unique_constraints, CreateTableSpec.column_name, is_pk.
    destruct (filter (fun a => keys_include PK (attr_keys a))
                     (ent_attributes entity)); reflexivity.
  - rewrite Forall_forall in *. intros a Ha.
    destruct (mapType_outside_inherited _ (Hok a Ha)) as [pg [Hpg _]].
    unfold CreateTableSpec.mapped_type. rewrite Hpg. reflexivity.
Qed.

(** For CUSTOMER: a PRIMARY KEY on customer_id and a UNIQUE constraint on
    email. *)
Lemma generateCreateTable_layout_witness :
  generateCreateTable CUSTOMER =
  Normal (Js.join Js.NL
            [ "CREATE TABLE IF NOT EXISTS " ++ quoted "customer" ++ " (";
              "  " ++ quoted "customer_id" ++ " INTEGER NOT NULL,";
              "  " ++ quoted "email" ++ " VARCHAR(255),";
              "  PRIMARY KEY (" ++ quoted "customer_id" ++ "),";
              "  UNIQUE (" ++ quoted "email" ++ ")";
              ");" ]).
Proof.
  assert (H : Forall (fun a => reads_inherited (attr_type a) = false)
                     (ent_attributes CUSTOMER))
    by (repeat constructor).
  destruct (generateCreateTable_layout CUSTOMER H) as [Hgen _].
  rewrite Hgen. reflexivity.
Defined.

(** The claim C3 as it is worded fails on an entity without a PK attribute,
    such as the entity the parser makes of a name met in a relationship only:
    the statement holds no PRIMARY KEY constraint. *)
Lemma generateCreateTable_without_pk_counterexample :
  generateCreateTable (mkEntity "ORDER" None [])
  = Normal ("CREATE TABLE IF NOT EXISTS " ++ quoted "order" ++ " ("
            ++ Js.NL ++ Js.NL ++ ");")
  /\ Js.includes "PRIMARY KEY"
       ("CREATE TABLE IF NOT EXISTS " ++ quoted "order" ++ " ("
        ++ Js.NL ++ Js.NL ++ ");") = false.
Proof. split; reflexivity. Qed.

(** An attribute whose type is a call-like use of an inherited name makes the
    generator throw. *)
Lemma generateCreateTable_throws :
  generateCreateTable
    (mkEntity "T" None [mkAttribute "x" "constructor(5)" [] None])
  = Throw "TypeError: pgBaseType.includes is not a function".
Proof. reflexivity. Qed.

(** ** C7: the SELECT statement over a table *)

(** C7, as amended.  For every configuration and every options value,
    [selectAll] returns SELECT * FROM the quoted table name, followed by an
    ORDER BY clause exactly when [orderBy] is a non-empty string (with
    [orderDir], or ASC without one), then by a LIMIT clause exactly when
    [limit] is given and is neither zero nor NaN, then by an OFFSET clause
    exactly when [offset] is given and is neither zero nor NaN; each of the two
    pushes its value on the parameters, and the placeholders are numbered from
    [$1] in the order of the clauses. *)
Theorem selectAll_clauses (config : QueryConfig) (options : option SelectOptions) :
  sql (selectAll config options)
  = "SELECT * FROM " ++ quoted (tableName config)
    ++ SelectAllSpec.order_clause options
    ++ SelectAllSpec.limit_clause options
    ++ SelectAllSpec.offset_clause options
  /\ params (selectAll config options)
     = (SelectAllSpec.number_param (opt_field limit options)
        ++ SelectAllSpec.number_param (opt_field offset options))%list.
Proof.
  unfold selectAll, SelectAllSpec.order_clause, SelectAllSpec.limit_clause,
    SelectAllSpec.offset_clause, SelectAllSpec.number_param,
    SelectAllSpec.given, truthy_opt.
  destruct (opt_field orderBy options) as [ob|];
    [destruct (truthy_string ob)|];
    (destruct (opt_field limit options) as [l|];
       [destruct (truthy_number l)|]);
    (destruct (opt_field offset options) as [o|];
       [destruct (truthy_number o)|]);
    try destruct (opt_field orderDir options) as [[|]|];
    cbn [sql params List.length Nat.add app];
    change (placeholder 1) with "$1"; change (placeholder 2) with "$2";
    rewrite ?StringFacts.append_assoc, ?StringFacts.append_nil_r;
    split; reflexivity.
Qed.

(** The claim C7 as it is worded fails on a limit of zero: the limit is
    present, and the statement has no LIMIT clause and no parameter.  The same
    holds of an offset of zero and of an empty [orderBy]. *)
Lemma selectAll_zero_limit_counterexample :
  selectAll (buildQueryConfig CUSTOMER)
    (Some (mkSelectOptions (Some zero) None None None))
  = mkQuery ("SELECT * FROM " ++ quoted "customer") []
  /\ selectAll (buildQueryConfig CUSTOMER)
       (Some (mkSelectOptions None (Some zero) (Some EmptyString) None))
     = mkQuery ("SELECT * FROM " ++ quoted "customer") [].
Proof. split; reflexivity. Qed.

(** ** C4: user data and the SQL text *)

(** The identifier and the records do not reach the text of [selectById],
    [deleteById] and [count]. *)
Lemma selectById_sql_independent (config : QueryConfig) (id id' : Value) :
  sql (selectById config id) = sql (selectById config id').
Proof. reflexivity. Qed.

Lemma deleteById_sql_independent (config : QueryConfig) (id id' : Value) :
  sql (deleteById config id) = sql (deleteById config id').
Proof. reflexivity. Qed.

(** The text of [insert] and of [update] depends on the keys of the record
    only, not on its values. *)
Lemma insert_sql_independent (config : QueryConfig) (data data' : Data) :
  object_keys data = object_keys data' ->
  sql (insert config data) = sql (insert config data').
Proof. unfold insert. simpl. intros ->. reflexivity. Qed.

Lemma update_sql_independent (config : QueryConfig) (id id' : Value)
      (data data' : Data) :
  object_keys data = object_keys data' ->
  sql (update config id data) = sql (update config id' data').
Proof. unfold update. simpl. intros ->. reflexivity. Qed.

(** The keys that reach the text of [insert] are columns of the table. *)
Lemma insert_keys_are_columns (config : QueryConfig) (data : Data) (k : string) :
  In k (filter (fun k => names_include k (columns config)) (object_keys data)) ->
  In k (columns config).
Proof.
  intros H. apply filter_In in H. destruct H as [_ H].
  apply names_include_In. assumption.
Qed.

(** Whatever non-empty text [orderBy] holds is copied into the statement. *)
Lemma selectAll_orderBy_verbatim (config : QueryConfig) (ob : string) :
  truthy_string ob = true ->
  selectAll config (Some (mkSelectOptions None None (Some ob) None))
  = mkQuery ("SELECT * FROM " ++ quoted (tableName config)
             ++ " ORDER BY " ++ quoted ob ++ " ASC") [].
Proof.
  intros Hob. unfold selectAll. simpl. rewrite Hob.
  rewrite !StringFacts.append_assoc. reflexivity.
Qed.

(** C4 fails on the code at [selectAll]: the [orderBy] option is written into
    the statement as it comes, between two double quotes, and no parameter is
    made of it.  Two options that differ in [orderBy] only give two texts, and
    an [orderBy] that holds a double quote leaves the quoted identifier. *)
Theorem selectAll_orderBy_reaches_sql :
  let config := buildQueryConfig CUSTOMER in
  let injected := "email" ++ Js.DQ ++ "; DROP TABLE " ++ Js.DQ ++ "customer" in
  selectAll config (Some (mkSelectOptions None None (Some injected) None))
  = mkQuery ("SELECT * FROM " ++ Js.DQ ++ "customer" ++ Js.DQ
             ++ " ORDER BY " ++ Js.DQ ++ "email" ++ Js.DQ
             ++ "; DROP TABLE " ++ Js.DQ ++ "customer" ++ Js.DQ ++ " ASC") []
  /\ sql (selectAll config (Some (mkSelectOptions None None (Some injected) None)))
     <> sql (selectAll config (Some (mkSelectOptions None None (Some "email") None)))
  /\ Js.includes injected
       (sql (selectAll config (Some (mkSelectOptions None None (Some injected) None))))
     = true
  /\ names_include injected (columns config) = false.
Proof. repeat split. vm_compute. discriminate. Qed.

(** ** C10: an entity without attributes *)

Lemma filter_none {A : Type} (f : A -> bool) (l : list A) :
  (forall x, f x = false) -> filter f l = [].
Proof.
  intros Hf. induction l as [|x l IH]; simpl; [reflexivity|].
  rewrite Hf. assumption.
Qed.

(** C10.  For every entity with an empty attribute list, [buildQueryConfig]
    yields a configuration with no column and an undefined primary key, and
    [selectById], [update] and [deleteById] still build a statement, whose
    WHERE clause names the column [undefined]. *)
Theorem buildQueryConfig_without_attributes
        (entity : Entity) (id : Value) (data : Data) :
  ent_attributes entity = [] ->
  let config := buildQueryConfig entity in
  let table := quoted (toTableName (ent_name entity)) in
  config = mkQueryConfig (toTableName (ent_name entity)) [] None
  /\ selectById config id
     = mkQuery ("SELECT * FROM " ++ table ++ " WHERE " ++ quoted "undefined"
                ++ " = $1") [id]
  /\ update config id data
     = mkQuery ("UPDATE " ++ table ++ " SET  WHERE " ++ quoted "undefined"
                ++ " = $1 RETURNING *") [id]
  /\ deleteById config id
     = mkQuery ("DELETE FROM " ++ table ++ " WHERE " ++ quoted "undefined"
                ++ " = $1 RETURNING *") [id].
Proof.
  intros Hempty config table. subst config table.
  unfold buildQueryConfig. rewrite Hempty. cbn [map find nth_error].
  repeat split.
  unfold update. cbn [columns primaryKey tableName].
  rewrite (filter_none
             (fun k => names_include k [] && differs_from_key k None))
    by reflexivity.
  reflexivity.
Qed.

(** The entity ORDER that the parser makes of a relationship line has no
    attribute; the query by identifier built for it names the column
    [undefined]. *)
Lemma buildQueryConfig_without_attributes_witness :
  (exists s, schema (parseERDiagram undeclared_order) = Some s
             /\ In (mkEntity "ORDER" None []) (schema_entities s))
  /\ selectById (buildQueryConfig (mkEntity "ORDER" None [])) (VNumber one)
     = mkQuery ("SELECT * FROM " ++ quoted "order" ++ " WHERE "
                ++ quoted "undefined" ++ " = $1") [VNumber one].
Proof.
  split.
  - eexists. split; [reflexivity|]. right. left. reflexivity.
  - apply (buildQueryConfig_without_attributes
             (mkEntity "ORDER" None []) (VNumber one) [] eq_refl).
Defined.

(** ** C2: the inference of foreign keys *)

Lemma generateForeignKeys_customer_order :
  generateForeignKeys customer_order
  = [ "ALTER TABLE " ++ quoted "order" ++ " ADD CONSTRAINT "
      ++ quoted "fk_order_customer_id" ++ " FOREIGN KEY ("
      ++ quoted "customer_id" ++ ") REFERENCES " ++ quoted "customer"
      ++ " (" ++ quoted "id" ++ ") ON DELETE CASCADE;" ].
Proof. reflexivity. Qed.

(** A column that matches no table gives no statement. *)
Lemma generateForeignKeys_no_match :
  generateForeignKeys
    (mkSchema [mkEntity "Order" None [mkAttribute "customer_id" "int" [FK] None]] [])
  = [].
Proof. reflexivity. Qed.

(** C2 fails on the code for an entity whose name has a camel-case boundary.
    The table of [OrderItem] is [order_item], and the column [order_item_id]
    without its suffix is that very name; yet no constraint is emitted for it.
    The column [orderitem_id] gets a constraint instead, on a table
    [orderitem] that is the table of no entity of the schema. *)
Theorem generateForeignKeys_camel_case_entity :
  toTableName "OrderItem" = "order_item"
  /\ Js.slice_to_minus 3 (toColumnName "order_item_id") = "order_item"
  /\ toTableName (Js.toLowerCase "OrderItem") = "orderitem"
  /\ names_include "orderitem"
       (map (fun e => toTableName (ent_name e)) (schema_entities order_items))
     = false
  /\ generateForeignKeys order_items
     = [ "ALTER TABLE " ++ quoted "refund" ++ " ADD CONSTRAINT "
         ++ quoted "fk_refund_orderitem_id" ++ " FOREIGN KEY ("
         ++ quoted "orderitem_id" ++ ") REFERENCES " ++ quoted "orderitem"
         ++ " (" ++ quoted "id" ++ ") ON DELETE CASCADE;" ].
Proof. repeat split. Qed.

Lemma fold_left_ext {A B : Type} (f g : A -> B -> A) (l : list B) (init : A) :
  (forall a b, f a b = g a b) -> fold_left f l init = fold_left g l init.
Proof.
  intros Hfg. revert init. induction l as [|x l IH]; intros init; simpl.
  - reflexivity.
  - rewrite Hfg. apply IH.
Qed.

Lemma fold_left_emit {A B : Type} (emit : A -> list B) (l : list A)
      (init : list B) :
  fold_left (fun acc x => (acc ++ emit x)%list) l init
  = (init ++ flat_map emit l)%list.
Proof.
  revert init. induction l as [|x l IH]; intros init; simpl.
  - rewrite app_nil_r. reflexivity.
  - rewrite IH, <- app_assoc. reflexivity.
Qed.

(** The statements come entity by entity and, within an entity, FK column by
    FK column, one for each column whose reference is inferred. *)
Lemma generateForeignKeys_flat_map (schema : DatabaseSchema) :
  generateForeignKeys schema
  = flat_map (foreign_keys_of schema) (schema_entities schema).
Proof.
  unfold generateForeignKeys. fold (lowered_entities schema).
  rewrite <- (app_nil_l (flat_map _ _)). rewrite <- fold_left_emit.
  apply fold_left_ext. intros statements entity.
  unfold foreign_keys_of. rewrite <- fold_left_emit.
  apply fold_left_ext. intros acc fkCol.
  unfold inferred_reference.
  destruct (Js.endsWith "_id" (toColumnName (attr_name fkCol))).
  - destruct (find_reference _ _ _) as [[[|c t]|] refColumn];
      try (rewrite app_nil_r); reflexivity.
  - rewrite app_nil_r. reflexivity.
Qed.

(** The search finds a table exactly when the lower-cased name of some entity
    normalizes to the wanted name; the column is then the first PK column of
    the entity stored under the first such name, or [id]. *)
Lemma find_reference_spec (entityMap : EntityMap.t) (possibleTable : string)
      (entries : list (string * Entity)) :
  find_reference entityMap possibleTable entries
  = match find (fun kv => String.eqb (toTableName (fst kv)) possibleTable)
               entries with
    | Some (entityName, _) =>
        (Some possibleTable,
         match EntityMap.get entityName entityMap with
         | Some refEntity =>
             match find is_pk (ent_attributes refEntity) with
             | Some refPk => toColumnName (attr_name refPk)
             | None => "id"
             end
         | None => "id"
         end)
    | None => (None, "id")
    end.
Proof.
  induction entries as [|[entityName e] entries IH]; simpl.
  - reflexivity.
  - destruct (String.eqb (toTableName entityName) possibleTable);
      [reflexivity|assumption].
Qed.

(** ** The diagram of the README, end to end *)

Example readme_diagram_parses :
  parseERDiagram readme_diagram = mkParseResult true (Some readme_schema) None
  /\ validateERDiagram readme_diagram = mkValidation true [].
Proof. split; vm_compute; reflexivity. Qed.

Example readme_diagram_foreign_keys :
  generateForeignKeys readme_schema
  = [ "ALTER TABLE " ++ quoted "order" ++ " ADD CONSTRAINT "
      ++ quoted "fk_order_customer_id" ++ " FOREIGN KEY ("
      ++ quoted "customer_id" ++ ") REFERENCES " ++ quoted "customer"
      ++ " (" ++ quoted "customer_id" ++ ") ON DELETE CASCADE;" ].
Proof. vm_compute. reflexivity. Qed.

(* ================================================================= *)
(** * Further properties *)

(** ** The matcher is sound for the words of a pattern *)

Module ReSound.
Import Re.

Lemma length_append (a b : string) :
  String.length (a ++ b) = String.length a + String.length b.
Proof. induction a as [|x a IH]; simpl; [reflexivity|rewrite IH; reflexivity]. Qed.

Ltac done_here :=
  repeat split;
  first [assumption | constructor; assumption | apply ReFacts.agree_refl].

(** A match that succeeds has consumed a word of the pattern before calling
    its continuation. *)
Lemma rmatch_sound (r : re) :
  forall pos s c k res,
    rmatch r pos s c k = Some res ->
    exists w s' c',
      s = w ++ s' /\ lang r w
      /\ k (pos + String.length w) s' c' = Some res
      /\ agree_outside (groups r) c c'.
Proof.
  induction r as [|p|r1 IH1 r2 IH2|r1 IH1 r2 IH2|r1 IH1|i r1 IH1| |];
    intros pos s c k res H; simpl in H.
  - exists EmptyString, s, c. simpl. rewrite Nat.add_0_r.
    done_here.
  - destruct s as [|a s']; [discriminate|]. destruct (p a) eqn:Hp; [|discriminate].
    exists (String a EmptyString), s', c. simpl. rewrite Nat.add_1_r.
    done_here.
  - apply IH1 in H. destruct H as [w1 [s1 [c1 [-> [L1 [H A1]]]]]].
    apply IH2 in H. destruct H as [w2 [s2 [c2 [-> [L2 [H A2]]]]]].
    exists (w1 ++ w2), s2, c2.
    rewrite StringFacts.append_assoc, length_append, Nat.add_assoc.
    split; [reflexivity|]. split; [constructor; assumption|].
    split; [assumption|].
    simpl. eapply ReFacts.agree_trans; [| |exact A1|exact A2];
      [apply incl_appl|apply incl_appr]; apply incl_refl.
  - destruct (rmatch r1 pos s c k) as [res1|] eqn:E1.
    + injection H as ->. apply IH1 in E1.
      destruct E1 as [w [s1 [c1 [-> [L [H A1]]]]]].
      exists w, s1, c1.
      split; [reflexivity|]. split; [apply lang_Alt_l; assumption|].
      split; [assumption|].
      simpl. intros i Hi. apply A1. intros Hin. apply Hi.
      apply in_or_app. left. assumption.
    + apply IH2 in H. destruct H as [w [s2 [c2 [-> [L [H A2]]]]]].
      exists w, s2, c2.
      split; [reflexivity|]. split; [apply lang_Alt_r; assumption|].
      split; [assumption|].
      simpl. intros i Hi. apply A2. intros Hin. apply Hi.
      apply in_or_app. right. assumption.
  - set (fuel := String.length s) in H. clearbody fuel. revert pos s c H.
    induction fuel as [|fuel IHf]; intros pos s c H.
    + exists EmptyString, s, c. simpl. rewrite Nat.add_0_r.
      done_here.
    + match type of H with
      | match ?X with _ => _ end = _ => destruct X as [res1|] eqn:E1
      end.
      * injection H as ->. apply IH1 in E1.
        destruct E1 as [w1 [s1 [c1 [-> [L1 [H A1]]]]]].
        destruct (pos <? pos + String.length w1); [|discriminate].
        apply IHf in H. destruct H as [w2 [s2 [c2 [-> [L2 [H A2]]]]]].
        exists (w1 ++ w2), s2, c2.
        rewrite StringFacts.append_assoc, length_append, Nat.add_assoc.
        split; [reflexivity|]. split; [apply lang_Star_cons; assumption|].
        split; [assumption|].
        simpl in *. eapply ReFacts.agree_trans; [| |exact A1|exact A2];
          apply incl_refl.
      * exists EmptyString, s, c. simpl. rewrite Nat.add_0_r.
        done_here.
  - apply IH1 in H. destruct H as [w [s1 [c1 [-> [L [H A1]]]]]].
    eexists w, s1, _.
    split; [reflexivity|]. split; [constructor; assumption|].
    split; [exact H|].
    intros j Hj. simpl in Hj. simpl.
    destruct (j =? i) eqn:E.
    + apply Nat.eqb_eq in E. exfalso. apply Hj. left. symmetry. assumption.
    + apply A1. intros Hin. apply Hj. right. assumption.
  - destruct (pos =? 0); [|discriminate].
    exists EmptyString, s, c. simpl. rewrite Nat.add_0_r.
    done_here.
  - destruct s; [|discriminate].
    exists EmptyString, EmptyString, c. simpl. rewrite Nat.add_0_r.
    done_here.
Qed.

(** A group that matches captures a word of its pattern. *)
Lemma rmatch_Grp_sound (i : nat) (r : re) :
  forall pos s c k res,
    rmatch (Grp i r) pos s c k = Some res ->
    exists w pos' s' c',
      lang r w /\ k pos' s' ((i, w) :: c') = Some res.
Proof.
  intros pos s c k res H. simpl in H. apply rmatch_sound in H.
  destruct H as [w [s' [c' [-> [L [H _]]]]]].
  rewrite ReFacts.take_append in H. eauto 8.
Qed.

End ReSound.

(** ** Facts on prefixes, suffixes and classes of characters *)

Module TextFacts.

Lemma all_chars_append (p : ascii -> bool) (a b : string) :
  all_chars p (a ++ b) = all_chars p a && all_chars p b.
Proof.
  induction a as [|x a IH]; simpl; [reflexivity|].
  rewrite IH, andb_assoc. reflexivity.
Qed.

Lemma all_chars_weaken (p q : ascii -> bool) (s : string) :
  (forall c, p c = true -> q c = true) ->
  all_chars p s = true -> all_chars q s = true.
Proof.
  intros Hpq. induction s as [|x s IH]; simpl; [reflexivity|].
  intros H. apply andb_prop in H. destruct H as [Hx Hs].
  rewrite (Hpq _ Hx), (IH Hs). reflexivity.
Qed.

Lemma all_chars_drop (p : ascii -> bool) (n : nat) (s : string) :
  all_chars p s = true -> all_chars p (Js.drop n s) = true.
Proof.
  revert s. induction n as [|n IH]; intros s H; [destruct s; assumption|].
  destruct s as [|x s]; simpl; [reflexivity|].
  simpl in H. apply andb_prop in H. apply IH. apply H.
Qed.

Lemma prefix_split (p s : string) :
  String.prefix p s = true -> s = p ++ Js.drop (String.length p) s.
Proof.
  revert s. induction p as [|a p IH]; intros s H; simpl.
  - destruct s; reflexivity.
  - destruct s as [|b s]; simpl in H; [discriminate|].
    destruct (ascii_dec a b) as [->|]; [|discriminate].
    f_equal. apply IH. assumption.
Qed.

Lemma prefix_append (p s : string) : String.prefix p (p ++ s) = true.
Proof.
  induction p as [|a p IH]; simpl; [destruct s; reflexivity|].
  destruct (ascii_dec a a); [assumption|contradiction].
Qed.

Lemma drop_append (p s : string) : Js.drop (String.length p) (p ++ s) = s.
Proof.
  induction p as [|a p IH]; simpl; [destruct s; reflexivity|assumption].
Qed.

Lemma take_prefix (p s : string) : Js.take (String.length p) (p ++ s) = p.
Proof.
  unfold Js.take. induction p as [|a p IH]; simpl.
  - destruct s; reflexivity.
  - rewrite IH. reflexivity.
Qed.

(** A text that starts with [p] holds the characters of [p]. *)
Lemma startsWith_all_chars (q : ascii -> bool) (p s : string) :
  all_chars q s = true -> all_chars q p = false -> Js.startsWith p s = false.
Proof.
  intros Hs Hp. unfold Js.startsWith.
  destruct (String.prefix p s) eqn:E; [|reflexivity].
  apply prefix_split in E. rewrite E, all_chars_append in Hs.
  apply andb_prop in Hs. destruct Hs as [Hs _]. congruence.
Qed.

Lemma endsWith_inv (suf s : string) :
  Js.endsWith suf s = true ->
  Js.drop (String.length s - String.length suf) s = suf.
Proof.
  unfold Js.endsWith. intros H. apply andb_prop in H. destruct H as [_ H].
  apply String.eqb_eq. assumption.
Qed.

Lemma endsWith_all_chars (q : ascii -> bool) (suf s : string) :
  all_chars q s = true -> all_chars q suf = false -> Js.endsWith suf s = false.
Proof.
  intros Hs Hsuf. destruct (Js.endsWith suf s) eqn:E; [|reflexivity].
  apply endsWith_inv in E.
  pose proof (all_chars_drop q (String.length s - String.length suf) s Hs) as H.
  rewrite E in H. congruence.
Qed.

Lemma endsWith_append (a suf : string) : Js.endsWith suf (a ++ suf) = true.
Proof.
  unfold Js.endsWith. rewrite ReSound.length_append.
  replace (String.length a + String.length suf - String.length suf)
    with (String.length a) by lia.
  rewrite drop_append, String.eqb_refl.
  replace (String.length suf <=? String.length a + String.length suf)
    with true; [reflexivity|].
  symmetry. apply Nat.leb_le. lia.
Qed.

Lemma slice_to_minus_append (a suf : string) :
  Js.slice_to_minus (String.length suf) (a ++ suf) = a.
Proof.
  unfold Js.slice_to_minus. rewrite ReSound.length_append.
  replace (String.length a + String.length suf - String.length suf)
    with (String.length a) by lia.
  apply take_prefix.
Qed.

Lemma remove_trailing_append (a suf : string) :
  remove_trailing suf (a ++ suf) = a.
Proof.
  unfold remove_trailing. rewrite endsWith_append. apply slice_to_minus_append.
Qed.

Lemma remove_leading_append (p s : string) :
  remove_leading p (p ++ s) = s.
Proof.
  unfold remove_leading, Js.startsWith. rewrite prefix_append. apply drop_append.
Qed.

End TextFacts.

(** ** The names the patterns let through *)

Module NameFacts.
Import Re PATTERNS TextFacts.

Lemma last_char_append (s : string) (c : ascii) :
  last_char (s ++ String c EmptyString) = Some c.
Proof.
  induction s as [|x s IH]; simpl; [reflexivity|].
  rewrite IH. destruct (s ++ String c EmptyString) eqn:E; [|reflexivity].
  destruct s; discriminate.
Qed.

Lemma last_char_drop (n : nat) (s : string) :
  Js.drop n s <> EmptyString -> last_char (Js.drop n s) = last_char s.
Proof.
  revert s. induction n as [|n IH]; intros s H; [destruct s; reflexivity|].
  destruct s as [|x s]; [reflexivity|]. simpl in *.
  rewrite (IH s H). destruct s; [|reflexivity].
  destruct n; simpl in H; congruence.
Qed.

Lemma endsWith_other_last (suf s : string) (c d : ascii) :
  c <> d ->
  Js.endsWith (suf ++ String d EmptyString) (s ++ String c EmptyString) = false.
Proof.
  intros Hcd.
  destruct (Js.endsWith _ _) eqn:E; [|reflexivity].
  apply endsWith_inv in E.
  assert (Hne : Js.drop
                  (String.length (s ++ String c EmptyString)
                   - String.length (suf ++ String d EmptyString))
                  (s ++ String c EmptyString) <> EmptyString).
  { rewrite E. destruct suf; discriminate. }
  apply last_char_drop in Hne. rewrite E, !last_char_append in Hne.
  congruence.
Qed.

(** A text whose characters all pass a test that some character of [p] fails
    loses nothing to [remove_ends p]. *)
Lemma remove_ends_same (q : ascii -> bool) (p s : string) :
  all_chars q s = true -> all_chars q p = false -> remove_ends p s = s.
Proof.
  intros Hs Hp. unfold remove_ends, remove_leading, remove_trailing.
  rewrite (startsWith_all_chars q p s Hs Hp).
  rewrite (endsWith_all_chars q p s Hs Hp). reflexivity.
Qed.

Lemma identifier_chars (w : string) :
  is_identifier w = true -> all_chars ident_char w = true.
Proof.
  destruct w as [|a w]; [discriminate|]. simpl. intros H.
  apply andb_prop in H. destruct H as [Ha Hw]. rewrite Hw, andb_true_r.
  unfold ident_start in Ha. unfold ident_char.
  apply orb_prop in Ha. destruct Ha as [->| ->]; simpl;
    rewrite ?orb_true_r; reflexivity.
Qed.

Lemma ident_char_not_quote (c : ascii) :
  ident_char c = true -> not_char quote c = true.
Proof.
  unfold not_char, Js.is_char. destruct (Ascii.eqb c quote) eqn:E;
    [|reflexivity].
  apply Ascii.eqb_eq in E. subst c. discriminate.
Qed.

(** An identifier passes [cleanEntityName] unchanged. *)
Lemma cleanEntityName_identifier (w : string) :
  is_identifier w = true -> cleanEntityName w = w.
Proof.
  intros H. apply identifier_chars in H. unfold cleanEntityName.
  rewrite (remove_ends_same ident_char Js.DQ w H eq_refl).
  apply (remove_ends_same ident_char (Js.BS ++ Js.DQ) _ H eq_refl).
Qed.

(** The escaped-quote form loses its two quotes and its leading backslash; the
    trailing backslash stays. *)
Lemma cleanEntityName_escaped (x : string) :
  cleanEntityName (Js.BS ++ Js.DQ ++ x ++ Js.BS ++ Js.DQ) = x ++ Js.BS.
Proof.
  unfold cleanEntityName.
  assert (H1 : remove_ends Js.DQ (Js.BS ++ Js.DQ ++ x ++ Js.BS ++ Js.DQ)
               = (Js.BS ++ Js.DQ) ++ (x ++ Js.BS)).
  { unfold remove_ends.
    change (remove_leading Js.DQ (Js.BS ++ Js.DQ ++ x ++ Js.BS ++ Js.DQ))
      with (Js.BS ++ Js.DQ ++ x ++ Js.BS ++ Js.DQ).
    replace (Js.BS ++ Js.DQ ++ x ++ Js.BS ++ Js.DQ)
      with (((Js.BS ++ Js.DQ) ++ (x ++ Js.BS)) ++ Js.DQ)
      by (rewrite !StringFacts.append_assoc; reflexivity).
    apply remove_trailing_append. }
  rewrite H1. unfold remove_ends. rewrite remove_leading_append.
  unfold remove_trailing.
  change (Js.BS ++ Js.DQ) with (Js.BS ++ String quote EmptyString).
  change (x ++ Js.BS) with (x ++ String (ascii_of_nat 92) EmptyString).
  rewrite endsWith_other_last; [reflexivity|discriminate].
Qed.

Lemma lang_Eps_inv (w : string) : lang Eps w -> w = EmptyString.
Proof. intros H. inversion H. reflexivity. Qed.

Lemma lang_Chr_inv (p : ascii -> bool) (w : string) :
  lang (Chr p) w -> exists a, w = String a EmptyString /\ p a = true.
Proof. intros H. inversion H; subst. eauto. Qed.

Lemma lang_Seq_inv (r1 r2 : re) (w : string) :
  lang (Seq r1 r2) w ->
  exists w1 w2, w = w1 ++ w2 /\ lang r1 w1 /\ lang r2 w2.
Proof. intros H. inversion H; subst. eauto. Qed.

Lemma lang_Alt_inv (r1 r2 : re) (w : string) :
  lang (Alt r1 r2) w -> lang r1 w \/ lang r2 w.
Proof. intros H. inversion H; subst; auto. Qed.

Lemma lang_Star_Chr (p : ascii -> bool) (w : string) :
  lang (Star (Chr p)) w -> all_chars p w = true.
Proof.
  intros H. remember (Star (Chr p)) as r eqn:Hr.
  induction H as [| | | | | |r0 w1 w2 L1 _ L2 IH2| | |]; try discriminate.
  - reflexivity.
  - injection Hr as ->. rewrite all_chars_append, IH2 by reflexivity.
    apply lang_Chr_inv in L1. destruct L1 as [a [-> Ha]]. simpl.
    rewrite Ha. reflexivity.
Qed.

Lemma lang_Lit (l w : string) : lang (Lit l) w -> w = l.
Proof.
  revert w. induction l as [|a l IH]; intros w H.
  - apply lang_Eps_inv. assumption.
  - destruct l as [|b l].
    + simpl in H. apply lang_Chr_inv in H. destruct H as [a' [-> Ha]].
      unfold Js.is_char in Ha. apply Ascii.eqb_eq in Ha. subst. reflexivity.
    + change (Lit (String a (String b l)))
        with (Seq (Chr (Js.is_char a)) (Lit (String b l))) in H.
      apply lang_Seq_inv in H. destruct H as [w1 [w2 [-> [L1 L2]]]].
      apply IH in L2. subst w2.
      apply lang_Chr_inv in L1. destruct L1 as [a' [-> Ha]].
      unfold Js.is_char in Ha. apply Ascii.eqb_eq in Ha. subst. reflexivity.
Qed.

Lemma lang_identifier (w : string) :
  lang (Seq (Chr ident_start) (Star (Chr ident_char))) w ->
  is_identifier w = true.
Proof.
  intros H. apply lang_Seq_inv in H. destruct H as [w1 [w2 [-> [L1 L2]]]].
  apply lang_Chr_inv in L1. destruct L1 as [a [-> Ha]].
  apply lang_Star_Chr in L2. simpl. rewrite Ha, L2. reflexivity.
Qed.

Lemma lang_type_token (w : string) :
  lang (Seq (Chr Js.is_alpha) (Star (Chr type_char))) w ->
  is_type_token w = true.
Proof.
  intros H. apply lang_Seq_inv in H. destruct H as [w1 [w2 [-> [L1 L2]]]].
  apply lang_Chr_inv in L1. destruct L1 as [a [-> Ha]].
  apply lang_Star_Chr in L2. simpl. rewrite Ha, L2. reflexivity.
Qed.

(** The name of an attribute, with or without its leading asterisk. *)
Lemma lang_attribute_name (w : string) :
  lang (Cat [Opt (Lit "*"); Chr ident_start; Star (Chr ident_char)]) w ->
  is_identifier (remove_leading "*" w) = true.
Proof.
  intros H. change (Cat [Opt (Lit "*"); Chr ident_start; Star (Chr ident_char)])
    with (Seq (Alt (Lit "*") Eps)
              (Seq (Chr ident_start) (Star (Chr ident_char)))) in H.
  apply lang_Seq_inv in H. destruct H as [w1 [w2 [-> [L1 L2]]]].
  apply lang_identifier in L2.
  apply lang_Alt_inv in L1. destruct L1 as [L1|L1].
  - apply lang_Lit in L1. subst w1. rewrite remove_leading_append. assumption.
  - apply lang_Eps_inv in L1. subst w1. simpl append.
    unfold remove_leading.
    rewrite (startsWith_all_chars ident_char "*" w2
               (identifier_chars w2 L2) eq_refl).
    assumption.
Qed.

Lemma lang_entity_name (w : string) :
  lang entity_name w ->
  is_identifier w = true
  \/ exists x, w = Js.BS ++ Js.DQ ++ x ++ Js.BS ++ Js.DQ
               /\ x <> EmptyString /\ quote_free x = true.
Proof.
  unfold entity_name. intros H. apply lang_Alt_inv in H. destruct H as [H|H].
  - left. apply lang_identifier. assumption.
  - right.
    change (Cat [Lit Js.BS; Lit Js.DQ; Plus (Chr (not_char quote));
                 Lit Js.BS; Lit Js.DQ])
      with (Seq (Lit Js.BS)
             (Seq (Lit Js.DQ)
                (Seq (Seq (Chr (not_char quote)) (Star (Chr (not_char quote))))
                   (Seq (Lit Js.BS) (Lit Js.DQ))))) in H.
    apply lang_Seq_inv in H. destruct H as [w1 [r1 [-> [L1 H]]]].
    apply lang_Seq_inv in H. destruct H as [w2 [r2 [-> [L2 H]]]].
    apply lang_Seq_inv in H. destruct H as [w3 [r3 [-> [L3 H]]]].
    apply lang_Seq_inv in H. destruct H as [w4 [w5 [-> [L4 L5]]]].
    apply lang_Lit in L1, L2, L4, L5. subst.
    apply lang_Seq_inv in L3. destruct L3 as [a [b [-> [La Lb]]]].
    apply lang_Chr_inv in La. destruct La as [c [-> Hc]].
    apply lang_Star_Chr in Lb.
    exists (String c EmptyString ++ b). repeat split.
    + discriminate.
    + unfold quote_free. simpl. rewrite Hc, Lb. reflexivity.
Qed.

(** What [cleanEntityName] makes of a name the patterns let through. *)
Lemma cleaned_entity_name (w : string) :
  lang entity_name w -> entity_name_shape (cleanEntityName w).
Proof.
  intros H. apply lang_entity_name in H.
  destruct H as [H|[x [-> [Hne Hq]]]].
  - left. rewrite cleanEntityName_identifier; assumption.
  - right. rewrite cleanEntityName_escaped. exists x. auto.
Qed.

End NameFacts.

(** ** The captures of the patterns of the parser *)

Module CaptureFacts.
Import Re PATTERNS.

(** A group of a sequence that matches holds a word of its pattern, when the
    patterns after it do not set the same group. *)
Lemma group_of_sequence (i : nat) (r x : re) (rest : list re) :
  ~ In i (groups (Cat (x :: rest))) ->
  forall (pre : list re) pos s c m,
    rmatch (Cat (pre ++ Grp i r :: x :: rest)) pos s c (fun _ _ c => Some c)
    = Some m ->
    exists w, lang r w /\ cap i m = Some w.
Proof.
  intros Hnot pre. induction pre as [|a pre IH]; intros pos s c m H.
  - simpl app in H. apply ReFacts.Cat_cons in H.
    apply ReSound.rmatch_Grp_sound in H.
    destruct H as [w [pos' [s' [c' [L H]]]]].
    apply ReFacts.rmatch_continues in H.
    destruct H as [? [? [c2 [Hfin A]]]]. injection Hfin as <-.
    exists w. split; [assumption|].
    rewrite (A i Hnot). simpl. rewrite Nat.eqb_refl. reflexivity.
  - assert (Hcons : exists r' rs, (pre ++ Grp i r :: x :: rest)%list = r' :: rs).
    { destruct pre; simpl; eauto. }
    destruct Hcons as [r' [rs Hcons]].
    simpl app in H. rewrite Hcons in H.
    apply ReFacts.Cat_cons, ReFacts.rmatch_continues in H.
    destruct H as [pos1 [s1 [c1 [H _]]]].
    rewrite <- Hcons in H. eapply IH. eassumption.
Qed.

Lemma group_of_pattern (i : nat) (r x : re) (rest pre : list re)
      (line : string) (m : Caps) :
  ~ In i (groups (Cat (x :: rest))) ->
  exec (Cat (pre ++ Grp i r :: x :: rest)) line = Some m ->
  exists w, lang r w /\ cap i m = Some w.
Proof.
  intros Hnot H. apply ReFacts.exec_from_rmatch in H.
  destruct H as [pos [s H]]. eapply group_of_sequence; eassumption.
Qed.

Ltac not_set_later := vm_compute; intuition discriminate.

(** The type and the name of an attribute line. *)
Lemma ATTRIBUTE_groups (line : string) (m : Caps) :
  exec ATTRIBUTE line = Some m ->
  well_formed_attribute (attribute_of_match m).
Proof.
  intros H. unfold ATTRIBUTE in H.
  assert (H1 : exists w, lang (Seq (Chr Js.is_alpha) (Star (Chr type_char))) w
                         /\ cap 1 m = Some w).
  { eapply (group_of_pattern 1 _ _ _ [Bol; Star ws]);
      [|exact H]. not_set_later. }
  assert (H2 : exists w,
             lang (Cat [Opt (Lit "*"); Chr ident_start; Star (Chr ident_char)]) w
             /\ cap 2 m = Some w).
  { eapply (group_of_pattern 2 _ _ _
              [Bol; Star ws;
               Grp 1 (Seq (Chr Js.is_alpha) (Star (Chr type_char))); Plus ws]);
      [|exact H]. not_set_later. }
  destruct H1 as [t [Lt Ht]]. destruct H2 as [n [Ln Hn]].
  apply NameFacts.lang_type_token in Lt.
  apply NameFacts.lang_attribute_name in Ln.
  unfold attribute_of_match, group. rewrite Ht, Hn.
  destruct (Js.startsWith "*" n && _); split; assumption.
Qed.

Lemma ENTITY_BLOCK_START_name (line : string) (m : Caps) :
  exec ENTITY_BLOCK_START line = Some m ->
  entity_name_shape (cleanEntityName (group 1 m)).
Proof.
  intros H. unfold ENTITY_BLOCK_START in H.
  assert (H1 : exists w, lang entity_name w /\ cap 1 m = Some w).
  { eapply (group_of_pattern 1 _ _ _ [Bol; Star ws]); [|exact H].
    not_set_later. }
  destruct H1 as [w [L Hw]]. unfold group. rewrite Hw.
  apply NameFacts.cleaned_entity_name. assumption.
Qed.

Lemma STANDALONE_ENTITY_name (line : string) (m : Caps) :
  exec STANDALONE_ENTITY line = Some m ->
  entity_name_shape (cleanEntityName (group 1 m)).
Proof.
  intros H. unfold STANDALONE_ENTITY in H.
  assert (H1 : exists w, lang entity_name w /\ cap 1 m = Some w).
  { eapply (group_of_pattern 1 _ _ _ [Bol; Star ws]); [|exact H].
    not_set_later. }
  destruct H1 as [w [L Hw]]. unfold group. rewrite Hw.
  apply NameFacts.cleaned_entity_name. assumption.
Qed.

Lemma RELATIONSHIP_names (line : string) (m : Caps) :
  exec RELATIONSHIP line = Some m ->
  entity_name_shape (firstEntity (relationship_of_match m))
  /\ entity_name_shape (secondEntity (relationship_of_match m)).
Proof.
  intros H. unfold RELATIONSHIP in H.
  assert (H1 : exists w, lang entity_name w /\ cap 1 m = Some w).
  { eapply (group_of_pattern 1 _ _ _ [Bol; Star ws]); [|exact H].
    not_set_later. }
  assert (H5 : exists w, lang entity_name w /\ cap 5 m = Some w).
  { eapply (group_of_pattern 5 _ _ _
              [Bol; Star ws; Grp 1 entity_name; Star ws;
               Grp 2 (Any [Lit "|o"; Lit "o|"; Lit "||"; Lit "}|"; Lit "}o";
                           Lit "o{"; Lit "|{"]);
               Grp 3 (Any [Lit "--"; Lit ".."]);
               Grp 4 (Any [Lit "o|"; Lit "o{"; Lit "||"; Lit "|o"; Lit "|{";
                           Lit "{|"; Lit "{o"]);
               Star ws]); [|exact H].
    not_set_later. }
  destruct H1 as [w1 [L1 Hw1]]. destruct H5 as [w5 [L5 Hw5]].
  unfold relationship_of_match, group. simpl. rewrite Hw1, Hw5.
  split; apply NameFacts.cleaned_entity_name; assumption.
Qed.

End CaptureFacts.

(** ** The names of a parsed schema *)

Lemma set_Forall (P : Entity -> Prop) (k : string) (v : Entity)
      (m : EntityMap.t) :
  P v -> Forall (fun kv => P (snd kv)) m ->
  Forall (fun kv => P (snd kv)) (EntityMap.set k v m).
Proof.
  intros Hv. induction m as [|[k' v'] m IH]; simpl; intros Hm.
  - constructor; [assumption|constructor].
  - inversion Hm as [|x l Hx Hl Heq]. destruct (String.eqb k' k).
    + constructor; assumption.
    + constructor; [assumption|apply IH; assumption].
Qed.

Lemma ensure_Forall (P : Entity -> Prop) (k : string) (v : Entity)
      (m : EntityMap.t) :
  P v -> Forall (fun kv => P (snd kv)) m ->
  Forall (fun kv => P (snd kv)) (ensure k v m).
Proof.
  intros Hv Hm. unfold ensure. destruct (EntityMap.has k m); [assumption|].
  apply set_Forall; assumption.
Qed.

Lemma names_ok_initial : names_ok initial.
Proof. split; [constructor|discriminate]. Qed.

Lemma names_ok_step (st : ParserState) (rawLine : string) :
  names_ok st -> names_ok (step st rawLine).
Proof.
  intros [Hent Hcur]. unfold step.
  destruct (Re.test PATTERNS.EMPTY (Js.trim rawLine)
            || Re.test PATTERNS.COMMENT (Js.trim rawLine));
    [split; assumption|].
  destruct (Re.test PATTERNS.ER_DIAGRAM_START (Js.trim rawLine));
    [split; assumption|].
  destruct (negb (inERDiagram st)); [split; assumption|].
  destruct (Re.test PATTERNS.DIRECTION (Js.trim rawLine));
    [split; assumption|].
  destruct (Re.test PATTERNS.ENTITY_BLOCK_END (Js.trim rawLine)).
  { destruct (currentEntity st) as [cur|] eqn:E; split; simpl;
      try assumption; try discriminate.
    apply set_Forall; [apply Hcur; reflexivity|assumption]. }
  destruct (if inEntityBlock st then currentEntity st else None)
    as [cur|] eqn:Ecur.
  { assert (Hc : currentEntity st = Some cur)
      by (destruct (inEntityBlock st); [assumption|discriminate]).
    destruct (Re.exec PATTERNS.ATTRIBUTE (Js.trim rawLine)) as [m|] eqn:Em;
      split; simpl; try assumption.
    intros cur' [= <-]. destruct (Hcur cur Hc) as [Hn Ha].
    split; simpl; [assumption|].
    apply Forall_app. split; [assumption|].
    constructor; [|constructor].
    eapply CaptureFacts.ATTRIBUTE_groups. eassumption. }
  destruct (Re.exec PATTERNS.ENTITY_BLOCK_START (Js.trim rawLine))
    as [m|] eqn:Em.
  { split; simpl; [assumption|].
    intros cur' [= <-]. split; simpl; [|constructor].
    eapply CaptureFacts.ENTITY_BLOCK_START_name. eassumption. }
  destruct (Re.exec PATTERNS.RELATIONSHIP (Js.trim rawLine)) as [m|] eqn:Er.
  { destruct (CaptureFacts.RELATIONSHIP_names _ _ Er) as [H1 H2].
    split; simpl; [|assumption].
    apply ensure_Forall; [split; simpl; [assumption|constructor]|].
    apply ensure_Forall; [split; simpl; [assumption|constructor]|].
    assumption. }
  destruct (Re.exec PATTERNS.STANDALONE_ENTITY (Js.trim rawLine))
    as [m|] eqn:Es.
  { split; simpl; [|assumption].
    apply ensure_Forall; [|assumption].
    split; simpl; [|constructor].
    eapply CaptureFacts.STANDALONE_ENTITY_name. eassumption. }
  split; assumption.
Qed.

Lemma names_ok_run (lines : list string) (st : ParserState) :
  names_ok st -> names_ok (run st lines).
Proof.
  revert st. induction lines as [|l lines IH]; intros st H; simpl.
  - assumption.
  - apply IH, names_ok_step. assumption.
Qed.

Lemma names_ok_close (st : ParserState) :
  names_ok st -> Forall well_formed_entity (EntityMap.values (close st)).
Proof.
  intros [Hent Hcur]. unfold EntityMap.values. rewrite Forall_map.
  unfold close. destruct (currentEntity st) as [cur|].
  - apply set_Forall; [apply Hcur; reflexivity|assumption].
  - assumption.
Qed.

(** X1.  Whatever the input, every entity of the schema the parser hands back
    has a name that is an identifier, or the text of an escaped-quote name
    followed by a backslash; and every attribute has an identifier for a name
    (the leading asterisk is gone) and a type made of a letter followed by
    letters, digits, underscores, hyphens, brackets and parentheses. *)
Theorem parsed_names_well_formed (input : string) :
  exists s,
    schema (parseERDiagram input) = Some s
    /\ Forall well_formed_entity (schema_entities s).
Proof.
  eexists. split; [reflexivity|]. simpl.
  apply names_ok_close, names_ok_run, names_ok_initial.
Qed.

(** ** The normalizer of names *)

Module NormalFacts.
Import TextFacts.

Ltac by_cases_on_char c :=
  destruct c as [[|] [|] [|] [|] [|] [|] [|] [|]];
  vm_compute; intros; first [reflexivity | discriminate].

Lemma camel_to_snake_chars (q : ascii -> bool) (s : string) :
  q "_"%char = true ->
  all_chars q s = true -> all_chars q (camel_to_snake s) = true.
Proof.
  intros Hu. induction s as [|a s IH]; [reflexivity|].
  intros H. simpl in H. apply andb_prop in H. destruct H as [Ha Hs].
  specialize (IH Hs). simpl. destruct s as [|b s].
  - simpl. rewrite Ha. reflexivity.
  - destruct (Js.is_lower a && Js.is_upper b); simpl all_chars;
      rewrite Ha, ?Hu; exact IH.
Qed.

Lemma separators_to_underscore_chars (q : ascii -> bool) (s : string) :
  q "_"%char = true ->
  all_chars q s = true ->
  forall in_run,
    all_chars (fun c => q c && negb (is_separator c))
              (separators_to_underscore in_run s) = true.
Proof.
  intros Hu. induction s as [|a s IH]; [reflexivity|].
  intros H in_run. simpl in H. apply andb_prop in H. destruct H as [Ha Hs].
  simpl. destruct (is_separator a) eqn:Esep.
  - destruct in_run; [apply IH; assumption|].
    simpl. rewrite Hu. simpl. apply IH. assumption.
  - simpl. rewrite Ha, Esep. simpl. apply IH. assumption.
Qed.

Lemma toLowerCase_chars (p q : ascii -> bool) (s : string) :
  (forall c, p c = true -> q (Js.lower_char c) = true) ->
  all_chars p s = true -> all_chars q (Js.toLowerCase s) = true.
Proof.
  intros Hpq. induction s as [|a s IH]; [reflexivity|].
  simpl. intros H. apply andb_prop in H. destruct H as [Ha Hs].
  rewrite (Hpq _ Ha), (IH Hs). reflexivity.
Qed.

(** The normalized name holds the characters of the name, lower-cased, and
    underscores. *)
Lemma toTableName_chars (p q : ascii -> bool) (s : string) :
  p "_"%char = true ->
  (forall c, p c && negb (is_separator c) = true ->
             q (Js.lower_char c) = true) ->
  all_chars p s = true -> all_chars q (toTableName s) = true.
Proof.
  intros Hu Hpq Hs. unfold toTableName.
  apply (toLowerCase_chars (fun c => p c && negb (is_separator c)) q); [assumption|].
  apply separators_to_underscore_chars; [assumption|].
  apply camel_to_snake_chars; assumption.
Qed.

Lemma lower_keeps_no_quote (c : ascii) :
  PATTERNS.not_char PATTERNS.quote c && negb (is_separator c) = true ->
  PATTERNS.not_char PATTERNS.quote (Js.lower_char c) = true.
Proof. by_cases_on_char c. Qed.

Lemma lower_identifier_char (c : ascii) :
  PATTERNS.ident_char c && negb (is_separator c) = true ->
  is_snake (Js.lower_char c) = true.
Proof. by_cases_on_char c. Qed.

Lemma toTableName_quote_free (s : string) :
  quote_free s = true -> quote_free (toTableName s) = true.
Proof.
  apply toTableName_chars; [reflexivity|apply lower_keeps_no_quote].
Qed.

Lemma toColumnName_identifier (s : string) :
  is_identifier s = true -> all_chars is_snake (toColumnName s) = true.
Proof.
  intros H. apply NameFacts.identifier_chars in H. revert H.
  apply (toTableName_chars PATTERNS.ident_char is_snake);
    [reflexivity|apply lower_identifier_char].
Qed.

Lemma entity_name_quote_free (n : string) :
  entity_name_shape n -> quote_free n = true.
Proof.
  intros [H|[x [-> [_ Hx]]]].
  - apply NameFacts.identifier_chars in H. revert H.
    apply all_chars_weaken. apply NameFacts.ident_char_not_quote.
  - unfold quote_free in *. rewrite all_chars_append, Hx. reflexivity.
Qed.

End NormalFacts.

(** X2.  Whatever the input, the table name the generators derive from each
    entity of the parsed schema holds no double quote, and the column name
    they derive from each attribute is made of lower-case letters, digits and
    underscores only: a name written between double quotes in a generated
    statement is closed by its own closing quote. *)
Theorem parsed_identifiers_stay_quoted (input : string) :
  exists s,
    schema (parseERDiagram input) = Some s
    /\ forall e, In e (schema_entities s) ->
         quote_free (toTableName (ent_name e)) = true
         /\ forall a, In a (ent_attributes e) ->
              all_chars is_snake (toColumnName (attr_name a)) = true.
Proof.
  eexists. split; [reflexivity|]. simpl.
  pose proof (names_ok_close _ (names_ok_run (Js.split Js.LF input) _
                                  names_ok_initial)) as H.
  rewrite Forall_forall in H. intros e He. destruct (H e He) as [Hn Ha].
  split.
  - apply NormalFacts.toTableName_quote_free,
      NormalFacts.entity_name_quote_free. assumption.
  - rewrite Forall_forall in Ha. intros a Hin.
    apply NormalFacts.toColumnName_identifier. apply (Ha a Hin).
Qed.

Module Idempotence.
Import TextFacts NormalFacts.

Lemma lower_is_normal (c : ascii) :
  true && negb (is_separator c) = true -> is_normal (Js.lower_char c) = true.
Proof. by_cases_on_char c. Qed.

Lemma normal_not_upper (c : ascii) : is_normal c = true -> Js.is_upper c = false.
Proof. by_cases_on_char c. Qed.

Lemma normal_not_separator (c : ascii) :
  is_normal c = true -> is_separator c = false.
Proof. by_cases_on_char c. Qed.

Lemma normal_lower (c : ascii) : is_normal c = true -> Js.lower_char c = c.
Proof.
  unfold is_normal. intros H. apply andb_prop in H. destruct H as [_ H].
  apply Ascii.eqb_eq. assumption.
Qed.

Lemma camel_to_snake_normal (s : string) :
  all_chars is_normal s = true -> camel_to_snake s = s.
Proof.
  induction s as [|a s IH]; [reflexivity|].
  intros H. simpl in H. apply andb_prop in H. destruct H as [Ha Hs].
  simpl. destruct s as [|b s]; [reflexivity|].
  assert (Hb : Js.is_upper b = false).
  { simpl in Hs. apply andb_prop in Hs. apply normal_not_upper, Hs. }
  rewrite Hb, andb_false_r. rewrite (IH Hs). reflexivity.
Qed.

Lemma separators_to_underscore_normal (s : string) (in_run : bool) :
  all_chars is_normal s = true -> separators_to_underscore in_run s = s.
Proof.
  revert in_run. induction s as [|a s IH]; intros in_run H; [reflexivity|].
  simpl in H. apply andb_prop in H. destruct H as [Ha Hs].
  simpl. rewrite (normal_not_separator a Ha), (IH false Hs). reflexivity.
Qed.

Lemma toLowerCase_normal (s : string) :
  all_chars is_normal s = true -> Js.toLowerCase s = s.
Proof.
  induction s as [|a s IH]; [reflexivity|].
  intros H. simpl in H. apply andb_prop in H. destruct H as [Ha Hs].
  simpl. rewrite (normal_lower a Ha), (IH Hs). reflexivity.
Qed.

Lemma toTableName_normal (s : string) :
  all_chars is_normal (toTableName s) = true.
Proof.
  apply (toTableName_chars (fun _ => true) is_normal);
    [reflexivity|apply lower_is_normal|].
  induction s as [|a s IH]; [reflexivity|exact IH].
Qed.

Lemma toTableName_fixed (s : string) :
  all_chars is_normal s = true -> toTableName s = s.
Proof.
  intros H. unfold toTableName.
  rewrite (camel_to_snake_normal s H),
    (separators_to_underscore_normal s false H).
  apply toLowerCase_normal. assumption.
Qed.

End Idempotence.

(** X3.  Normalizing a name twice is normalizing it once: the normalized name
    holds no capital, no hyphen and no white space, and the normalizer leaves
    such a text as it is. *)
Theorem toTableName_idempotent (name : string) :
  toTableName (toTableName name) = toTableName name
  /\ toColumnName (toColumnName name) = toColumnName name
  /\ all_chars is_normal (toTableName name) = true.
Proof.
  pose proof (Idempotence.toTableName_normal name) as H.
  repeat split; try assumption; apply Idempotence.toTableName_fixed; assumption.
Qed.

(** ** White space around a text *)

Module TrimFacts.

Lemma trimEnd_head (c : ascii) (s : string) :
  Js.is_space c = false ->
  exists t, Js.trimEnd (String c s) = String c t.
Proof.
  intros Hc. simpl. destruct (Js.trimEnd s); [rewrite Hc|]; eauto.
Qed.

Lemma trimStart_trimEnd (s : string) :
  Js.trimStart (Js.trimEnd s) = Js.trimEnd (Js.trimStart s).
Proof.
  induction s as [|c s IH]; [reflexivity|].
  destruct (Js.is_space c) eqn:Hc.
  - simpl Js.trimStart at 2. rewrite Hc, <- IH. simpl Js.trimEnd.
    destruct (Js.trimEnd s) as [|d t]; [rewrite Hc; reflexivity|].
    simpl. rewrite Hc. reflexivity.
  - simpl Js.trimStart at 2. rewrite Hc.
    destruct (trimEnd_head c s Hc) as [t Ht]. rewrite Ht. simpl.
    rewrite Hc. reflexivity.
Qed.

Lemma trimStart_idempotent (s : string) :
  Js.trimStart (Js.trimStart s) = Js.trimStart s.
Proof.
  induction s as [|c s IH]; [reflexivity|].
  simpl. destruct (Js.is_space c) eqn:Hc; [assumption|].
  simpl. rewrite Hc. reflexivity.
Qed.

Lemma trimEnd_idempotent (s : string) :
  Js.trimEnd (Js.trimEnd s) = Js.trimEnd s.
Proof.
  induction s as [|c s IH]; [reflexivity|].
  simpl. destruct (Js.trimEnd s) as [|d t] eqn:E.
  - destruct (Js.is_space c) eqn:Hc; [reflexivity|].
    simpl. rewrite Hc. reflexivity.
  - change (Js.trimEnd (String c (String d t)))
      with (match Js.trimEnd (String d t) with
            | EmptyString =>
                if Js.is_space c then EmptyString else String c EmptyString
            | u => String c u
            end).
    rewrite IH. reflexivity.
Qed.

Lemma trim_idempotent (s : string) : Js.trim (Js.trim s) = Js.trim s.
Proof.
  unfold Js.trim.
  rewrite (trimStart_trimEnd (Js.trimStart s)).
  rewrite trimStart_idempotent, trimEnd_idempotent. reflexivity.
Qed.

End TrimFacts.

(** ** The loop of the parser, line by line *)

Lemma step_trim (st : ParserState) (rawLine : string) :
  step st (Js.trim rawLine) = step st rawLine.
Proof. unfold step. rewrite TrimFacts.trim_idempotent. reflexivity. Qed.

Lemma run_trim (lines : list string) (st : ParserState) :
  run st (map Js.trim lines) = run st lines.
Proof.
  revert st. induction lines as [|l lines IH]; intros st; [reflexivity|].
  simpl. rewrite step_trim. apply IH.
Qed.

(** X4.  Two inputs whose lines are the same up to the white space around each
    line (indentation, trailing blanks, a carriage return before the line
    feed) give the same result: the same schema, the same errors with the same
    line numbers. *)
Theorem parse_ignores_white_space_around_lines (input input' : string) :
  map Js.trim (Js.split Js.LF input) = map Js.trim (Js.split Js.LF input') ->
  parseERDiagram input = parseERDiagram input'.
Proof.
  intros H. unfold parseERDiagram, parseLines.
  rewrite <- (run_trim (Js.split Js.LF input)),
    <- (run_trim (Js.split Js.LF input')), H.
  reflexivity.
Qed.

Lemma parse_ignores_white_space_witness :
  parseERDiagram
    (Js.join (String (ascii_of_nat 13) Js.NL)
       ["erDiagram"; "  A {"; "    int id PK"; "  }"])
  = parseERDiagram (Js.join Js.NL ["erDiagram"; "A {"; "int id PK"; "}"]).
Proof.
  apply parse_ignores_white_space_around_lines. vm_compute. reflexivity.
Defined.

(** The count of lines and the errors have no part in what the loop gathers. *)
Lemma step_core (st st' : ParserState) (rawLine : string) :
  core st = core st' -> core (step st rawLine) = core (step st' rawLine).
Proof.
  destruct st, st'. unfold core. simpl. intros [= -> -> -> -> ->].
  unfold step. simpl.
  repeat match goal with
         | |- context [if ?b then _ else _] => destruct b
         | |- context [match ?x with _ => _ end] => destruct x
         end; reflexivity.
Qed.

Lemma run_core (lines : list string) (st st' : ParserState) :
  core st = core st' -> core (run st lines) = core (run st' lines).
Proof.
  revert st st'. induction lines as [|l lines IH]; intros st st' H;
    [assumption|].
  simpl. apply IH, step_core. assumption.
Qed.

Lemma step_skipped (st : ParserState) (rawLine : string) :
  skipped_line rawLine = true -> core (step st rawLine) = core st.
Proof.
  unfold skipped_line, step. intros ->. reflexivity.
Qed.

Lemma schema_of_core (st st' : ParserState) :
  core st = core st' -> schema (result_of st) = schema (result_of st').
Proof.
  destruct st, st'. unfold core. simpl. intros [= -> -> -> -> ->].
  reflexivity.
Qed.

(** X5.  A blank line or a comment line can be put in or taken out anywhere
    in an input, inside a block too, without any change to the schema that is
    parsed. *)
Theorem blank_and_comment_lines_do_not_count
        (input input' : string) (pre post : list string) (line : string) :
  Js.split Js.LF input = (pre ++ line :: post)%list ->
  Js.split Js.LF input' = (pre ++ post)%list ->
  skipped_line line = true ->
  schema (parseERDiagram input) = schema (parseERDiagram input').
Proof.
  intros H H' Hskip. unfold parseERDiagram, parseLines. rewrite H, H'.
  apply schema_of_core. rewrite run_app.
  unfold run at 3. rewrite fold_left_app. fold (run initial pre).
  fold (run (run initial pre) post).
  apply run_core, step_skipped. assumption.
Qed.

Lemma blank_and_comment_lines_witness :
  schema (parseERDiagram
            (Js.join Js.NL ["erDiagram"; "A {"; "%% the key"; "int id PK"; "}"]))
  = schema (parseERDiagram (Js.join Js.NL ["erDiagram"; "A {"; "int id PK"; "}"])).
Proof.
  apply (blank_and_comment_lines_do_not_count _ _
           ["erDiagram"; "A {"] ["int id PK"; "}"] "%% the key");
    vm_compute; reflexivity.
Defined.

Lemma reported_errors (st : ParserState) :
  reported (result_of st) = errors st.
Proof.
  unfold reported, result_of. simpl. destruct (errors st); reflexivity.
Qed.

Lemma step_errors (st : ParserState) (rawLine : string) :
  errors (step st rawLine) = errors st
  \/ (Re.exec PATTERNS.ATTRIBUTE (Js.trim rawLine) = None
      /\ errors (step st rawLine)
         = (errors st ++ [attribute_error (S (lineNumber st)) (Js.trim rawLine)])%list).
Proof.
  unfold step.
  destruct (Re.test PATTERNS.EMPTY (Js.trim rawLine)
            || Re.test PATTERNS.COMMENT (Js.trim rawLine)); [left; reflexivity|].
  destruct (Re.test PATTERNS.ER_DIAGRAM_START (Js.trim rawLine));
    [left; reflexivity|].
  destruct (negb (inERDiagram st)); [left; reflexivity|].
  destruct (Re.test PATTERNS.DIRECTION (Js.trim rawLine)); [left; reflexivity|].
  destruct (Re.test PATTERNS.ENTITY_BLOCK_END (Js.trim rawLine)).
  { destruct (currentEntity st); left; reflexivity. }
  destruct (if inEntityBlock st then currentEntity st else None).
  - destruct (Re.exec PATTERNS.ATTRIBUTE (Js.trim rawLine)).
    + left; reflexivity.
    + right. split; reflexivity.
  - destruct (Re.exec PATTERNS.ENTITY_BLOCK_START (Js.trim rawLine));
      [left; reflexivity|].
    destruct (Re.exec PATTERNS.RELATIONSHIP (Js.trim rawLine));
      [left; reflexivity|].
    destruct (Re.exec PATTERNS.STANDALONE_ENTITY (Js.trim rawLine));
      left; reflexivity.
Qed.

Lemma nth_error_middle {A : Type} (pre : list A) (x : A) (post : list A) :
  nth_error (pre ++ x :: post) (List.length pre) = Some x.
Proof. induction pre as [|p pre IH]; simpl; [reflexivity|assumption]. Qed.

Lemma run_errors_located (lines pre : list string) (st : ParserState) :
  lineNumber st = List.length pre ->
  Forall (fun e => exists n, error_of_line (pre ++ lines) n e) (errors st) ->
  Forall (fun e => exists n, error_of_line (pre ++ lines) n e)
         (errors (run st lines)).
Proof.
  revert pre st. induction lines as [|l lines IH]; intros pre st Hn Hst.
  - assumption.
  - change (run st (l :: lines)) with (run (step st l) lines).
    replace (pre ++ l :: lines)%list with ((pre ++ [l]) ++ lines)%list in *
      by (rewrite <- app_assoc; reflexivity).
    apply IH.
    + rewrite lineNumber_step, Hn, length_app. simpl. lia.
    + destruct (step_errors st l) as [-> | [Hno ->]]; [assumption|].
      apply Forall_app. split; [assumption|].
      constructor; [|constructor].
      exists (List.length pre). exists l. rewrite Hn.
      split; [|split; [assumption|reflexivity]].
      rewrite <- app_assoc. apply nth_error_middle.
Qed.

(** X6.  Every error the parser reports is the attribute error of a line of
    the input: it carries the number of that line, counted from 1 over all the
    lines of the input, blank ones too, and the line as trimmed, and that line
    does not match the attribute pattern. *)
Theorem parse_errors_point_at_lines (input : string) :
  Forall (fun e => exists n, error_of_line (Js.split Js.LF input) n e)
         (reported (parseERDiagram input)).
Proof.
  unfold parseERDiagram, parseLines. rewrite reported_errors.
  apply (run_errors_located (Js.split Js.LF input) [] initial).
  - reflexivity.
  - constructor.
Qed.

(** Before the header, a line leaves everything but the count as it is. *)
Lemma step_before_header (st : ParserState) (rawLine : string) :
  inERDiagram st = false ->
  header_line rawLine = false ->
  step st rawLine
  = mkState (entities st) (relationships st) (errors st) false
      (currentEntity st) (inEntityBlock st) (S (lineNumber st)).
Proof.
  unfold step, header_line. intros Hin ->. rewrite Hin. simpl.
  destruct (Re.test PATTERNS.EMPTY (Js.trim rawLine)
            || Re.test PATTERNS.COMMENT (Js.trim rawLine)); reflexivity.
Qed.

Lemma run_before_header (lines : list string) (st : ParserState) :
  inERDiagram st = false ->
  forallb (fun l => negb (header_line l)) lines = true ->
  run st lines
  = mkState (entities st) (relationships st) (errors st) false
      (currentEntity st) (inEntityBlock st) (lineNumber st + List.length lines).
Proof.
  revert st. induction lines as [|l lines IH]; intros st Hin Hall.
  - simpl. rewrite Nat.add_0_r. destruct st. simpl in *. subst. reflexivity.
  - simpl in Hall. apply andb_prop in Hall. destruct Hall as [Hl Hall].
    apply negb_true_iff in Hl.
    change (run st (l :: lines)) with (run (step st l) lines).
    rewrite (step_before_header st l Hin Hl).
    rewrite IH; [|reflexivity|assumption]. simpl.
    f_equal. lia.
Qed.

(** X7.  When no line of the input is the header of a diagram, nothing is read:
    the result is a success with no entity, no relationship and no error,
    whatever the lines hold; and the validator then reports the missing header
    only when the word of the header occurs nowhere in the input, in any
    case of letters. *)
Theorem input_without_header (input : string) :
  forallb (fun l => negb (header_line l)) (Js.split Js.LF input) = true ->
  parseERDiagram input = empty_result
  /\ validation_errors (validateERDiagram input) = header_errors input.
Proof.
  intros H.
  assert (Hp : parseERDiagram input = empty_result).
  { unfold parseERDiagram, parseLines.
    rewrite (run_before_header _ initial eq_refl H). reflexivity. }
  split; [assumption|].
  unfold validateERDiagram. rewrite Hp. unfold empty_result.
  cbn [schema result_errors validation_errors app].
  change (duplicate_errors (mkSchema [] [])) with (@nil string).
  change (dangling_errors (mkSchema [] [])) with (@nil string).
  rewrite !app_nil_r. reflexivity.
Qed.

Lemma input_without_header_witness :
  parseERDiagram
    (Js.join Js.NL ["%% an erDiagram"; "CUSTOMER {"; "not an attribute"; "}"])
  = empty_result
  /\ validation_errors
       (validateERDiagram
          (Js.join Js.NL ["%% an erDiagram"; "CUSTOMER {"; "not an attribute"; "}"]))
     = header_errors
         (Js.join Js.NL ["%% an erDiagram"; "CUSTOMER {"; "not an attribute"; "}"]).
Proof.
  apply input_without_header. vm_compute. reflexivity.
Defined.

(** X8.  For every input, each relationship of the schema carries two
    cardinalities of the enumeration: the connector pattern lets through only
    tokens the codec knows, so that no default and no inherited property is
    ever read for a parsed relationship. *)
Theorem parsed_cardinalities_are_proper (input : string) :
  exists s,
    schema (parseERDiagram input) = Some s
    /\ Forall proper_relationship (schema_relationships s).
Proof.
  exists (mkSchema
            (EntityMap.values (close (run initial (Js.split Js.LF input))))
            (relationships (run initial (Js.split Js.LF input)))).
  split; [reflexivity|].
  apply (parsed_relationships_proper input). reflexivity.
Qed.

(** ** Lines that the attribute pattern takes *)

Module Accepts.
Import Re StringFacts TextFacts ReSound.

Lemma accepts_Eps (rest : string) : accepts Eps "" rest (fun c => c).
Proof.
  intros pos c k res H. simpl in *. rewrite Nat.add_0_r in H. assumption.
Qed.

Lemma accepts_Chr (p : ascii -> bool) (a : ascii) (rest : string) :
  p a = true -> accepts (Chr p) (String a "") rest (fun c => c).
Proof.
  intros Hp pos c k res H. simpl in *. rewrite Hp.
  rewrite Nat.add_1_r in H. assumption.
Qed.

Lemma accepts_Seq (r1 r2 : re) (w1 w2 w rest : string) (f1 f2 : Caps -> Caps) :
  w = w1 ++ w2 ->
  accepts r1 w1 (w2 ++ rest) f1 ->
  accepts r2 w2 rest f2 ->
  accepts (Seq r1 r2) w rest (fun c => f2 (f1 c)).
Proof.
  intros -> H1 H2 pos c k res H. simpl. rewrite append_assoc.
  apply H1. apply H2.
  rewrite length_append, Nat.add_assoc in H. assumption.
Qed.

Lemma accepts_Alt_l (r1 r2 : re) (w rest : string) (f : Caps -> Caps) :
  accepts r1 w rest f -> accepts (Alt r1 r2) w rest f.
Proof.
  intros H1 pos c k res H. simpl. rewrite (H1 pos c k res H). reflexivity.
Qed.

Lemma accepts_Alt_r (r1 r2 : re) (w rest : string) (f : Caps -> Caps) :
  rejects r1 (w ++ rest) -> accepts r2 w rest f -> accepts (Alt r1 r2) w rest f.
Proof.
  intros H1 H2 pos c k res H. simpl. rewrite H1. apply H2. assumption.
Qed.

Lemma accepts_Grp (i : nat) (r : re) (w rest : string) (f : Caps -> Caps) :
  accepts r w rest f -> accepts (Grp i r) w rest (fun c => (i, w) :: f c).
Proof.
  intros H1 pos c k res H. simpl. apply H1.
  rewrite ReFacts.take_append. assumption.
Qed.

Lemma accepts_Eol : accepts Eol "" "" (fun c => c).
Proof.
  intros pos c k res H. simpl in *. rewrite Nat.add_0_r in H. assumption.
Qed.

Lemma star_loop_eq (r : re) (pos : nat) (s : string) (c : Caps)
      (k : nat -> string -> Caps -> option Caps) :
  rmatch (Star r) pos s c k = star_loop r k (String.length s) pos s c.
Proof. reflexivity. Qed.

(** A star over a class runs to the end of the characters of the class. *)
Lemma star_loop_class (p : ascii -> bool) (rest : string)
      (k : nat -> string -> Caps -> option Caps) (res : Caps) :
  stops p rest = true ->
  forall w fuel pos c,
    String.length w <= fuel ->
    all_chars p w = true ->
    k (pos + String.length w) rest c = Some res ->
    star_loop (Chr p) k fuel pos (w ++ rest) c = Some res.
Proof.
  intros Hstop. induction w as [|a w IH]; intros fuel pos c Hfuel Hall H.
  - simpl in H. rewrite Nat.add_0_r in H. simpl.
    destruct fuel as [|fuel]; simpl; [assumption|].
    destruct rest as [|b rest]; [assumption|].
    simpl in Hstop. apply negb_true_iff in Hstop. rewrite Hstop. assumption.
  - simpl in Hall. apply andb_prop in Hall. destruct Hall as [Ha Hall].
    destruct fuel as [|fuel]; [simpl in Hfuel; lia|].
    simpl in Hfuel. simpl. rewrite Ha.
    assert (Hlt : (pos <? S pos) = true) by (apply Nat.ltb_lt; lia).
    rewrite Hlt.
    fold (star_loop (Chr p) k).
    rewrite (IH fuel (S pos) c); [reflexivity|lia|assumption|].
    simpl in H. rewrite Nat.add_succ_r in H. assumption.
Qed.

Lemma accepts_Star_class (p : ascii -> bool) (w rest : string) :
  all_chars p w = true -> stops p rest = true ->
  accepts (Star (Chr p)) w rest (fun c => c).
Proof.
  intros Hall Hstop pos c k res H. rewrite star_loop_eq.
  apply star_loop_class; try assumption.
  rewrite length_append. lia.
Qed.

Lemma accepts_Plus_class (p : ascii -> bool) (a : ascii) (w rest : string) :
  p a = true -> all_chars p w = true -> stops p rest = true ->
  accepts (Plus (Chr p)) (String a w) rest (fun c => c).
Proof.
  intros Ha Hall Hstop. unfold Plus.
  apply (accepts_Seq _ _ (String a "") w _ _ (fun c => c) (fun c => c));
    [reflexivity| |].
  - apply accepts_Chr. assumption.
  - apply accepts_Star_class; assumption.
Qed.

Lemma accepts_Lit (l rest : string) :
  l <> "" -> accepts (Lit l) l rest (fun c => c).
Proof.
  induction l as [|a l IH]; intros Hne; [congruence|].
  destruct l as [|b l].
  - apply accepts_Chr. unfold Js.is_char. apply Ascii.eqb_refl.
  - change (Lit (String a (String b l)))
      with (Seq (Chr (Js.is_char a)) (Lit (String b l))).
    apply (accepts_Seq _ _ (String a "") (String b l) _ _ (fun c => c) (fun c => c));
      [reflexivity| |].
    + apply accepts_Chr. unfold Js.is_char. apply Ascii.eqb_refl.
    + apply IH. discriminate.
Qed.

End Accepts.

Module AttributeLine.
Import Re StringFacts TextFacts ReSound Accepts.

Ltac seq w1 w2 f1 f2 :=
  apply (accepts_Seq _ _ w1 w2 _ _ f1 f2); [try reflexivity| |].
Ltac seq_plain w1 w2 :=
  seq w1 w2 (fun c : Caps => c) (fun c : Caps => c).

Lemma ltb_succ (pos : nat) : (pos <? S pos) = true.
Proof. apply Nat.ltb_lt. lia. Qed.

Lemma space_is_space : Js.is_space " " = true.
Proof. reflexivity. Qed.

Lemma quote_is_no_space : Js.is_space "034" = false.
Proof. reflexivity. Qed.

Ltac fails_here :=
  intros ? ? ?;
  repeat (cbn;
          rewrite ?space_is_space, ?quote_is_no_space, ?Nat.leb_refl,
            ?ltb_succ);
  reflexivity.

Lemma keys_text_cons (k : AttributeKey) (ks : list AttributeKey) :
  keys_text (k :: ks) = key_name k ++ keys_tail ks.
Proof.
  unfold keys_text, Js.join. revert k.
  induction ks as [|k' ks IH]; intros k.
  - simpl. rewrite append_nil_r. reflexivity.
  - change (String.concat ", " (map key_name (k :: k' :: ks)))
      with (key_name k ++ ", " ++ String.concat ", " (map key_name (k' :: ks))).
    rewrite IH. reflexivity.
Qed.

Lemma accepts_key_word (k : AttributeKey) (rest : string) :
  accepts PATTERNS.key_word (key_name k) rest (fun c => c).
Proof.
  unfold PATTERNS.key_word. cbn [Any map].
  destruct k.
  - apply accepts_Alt_l. apply accepts_Lit. discriminate.
  - apply accepts_Alt_r; [fails_here|].
    apply accepts_Alt_l. apply accepts_Lit. discriminate.
  - apply accepts_Alt_r; [fails_here|].
    apply accepts_Alt_r; [fails_here|].
    apply accepts_Lit. discriminate.
Qed.

Lemma stops_space_key (k : AttributeKey) (rest : string) :
  stops Js.is_space (key_name k ++ rest) = true.
Proof. destruct k; reflexivity. Qed.

Lemma accepts_key_chunk (k : AttributeKey) (rest : string) :
  accepts key_chunk (", " ++ key_name k) rest (fun c => c).
Proof.
  unfold key_chunk. cbn [Cat].
  seq_plain "" (", " ++ key_name k).
  { apply accepts_Star_class; reflexivity. }
  seq_plain "," (" " ++ key_name k).
  { apply accepts_Lit. discriminate. }
  seq_plain " " (key_name k).
  { apply accepts_Star_class; [reflexivity|apply stops_space_key]. }
  apply accepts_key_word.
Qed.

Lemma star_loop_S (r : re) (k : nat -> string -> Caps -> option Caps)
      (fuel pos : nat) (s : string) (c : Caps) :
  star_loop r k (S fuel) pos s c
  = match rmatch r pos s c
            (fun pos' s' c' =>
               if pos <? pos' then star_loop r k fuel pos' s' c' else None)
    with
    | Some c' => Some c'
    | None => k pos s c
    end.
Proof. reflexivity. Qed.

Lemma length_key_name (k : AttributeKey) : String.length (key_name k) = 2.
Proof. destruct k; reflexivity. Qed.

Lemma length_keys_tail (k : AttributeKey) (ks : list AttributeKey) :
  String.length (keys_tail (k :: ks)) = 4 + String.length (keys_tail ks).
Proof.
  simpl. rewrite length_append, length_key_name. reflexivity.
Qed.

(** The star over the chunks runs through the keys that follow the first. *)
Lemma star_loop_keys (rest : string)
      (K : nat -> string -> Caps -> option Caps) (res : Caps) :
  rejects key_chunk rest ->
  forall ks fuel pos c,
    String.length (keys_tail ks) <= fuel ->
    K (pos + String.length (keys_tail ks)) rest c = Some res ->
    star_loop key_chunk K fuel pos (keys_tail ks ++ rest) c = Some res.
Proof.
  intros Hrej. induction ks as [|k ks IH]; intros fuel pos c Hfuel H.
  - simpl in H. rewrite Nat.add_0_r in H.
    change (keys_tail [] ++ rest) with rest.
    destruct fuel as [|fuel]; [assumption|].
    rewrite star_loop_S, Hrej. assumption.
  - rewrite length_keys_tail in Hfuel, H.
    destruct fuel as [|fuel]; [lia|].
    rewrite star_loop_S.
    replace (keys_tail (k :: ks) ++ rest)
      with ((", " ++ key_name k) ++ (keys_tail ks ++ rest))
      by (simpl; rewrite append_assoc; reflexivity).
    rewrite (accepts_key_chunk k (keys_tail ks ++ rest) pos c _ res);
      [reflexivity|].
    assert (Hlen : String.length (", " ++ key_name k) = 4)
      by (destruct k; reflexivity).
    rewrite Hlen.
    assert (Hlt : (pos <? pos + 4) = true) by (apply Nat.ltb_lt; lia).
    rewrite Hlt. apply IH; [lia|].
    replace (pos + 4 + String.length (keys_tail ks))
      with (pos + (4 + String.length (keys_tail ks))) by lia.
    assumption.
Qed.

Lemma accepts_keys_tail (ks : list AttributeKey) (rest : string) :
  rejects key_chunk rest ->
  accepts (Star key_chunk) (keys_tail ks) rest (fun c => c).
Proof.
  intros Hrej pos c k res H. rewrite star_loop_eq.
  apply star_loop_keys; try assumption.
  rewrite length_append. lia.
Qed.

Lemma accepts_keys_pattern (k : AttributeKey) (ks : list AttributeKey)
      (rest : string) :
  rejects key_chunk rest ->
  accepts keys_pattern (" " ++ keys_text (k :: ks)) rest
    (fun c => (3, keys_text (k :: ks)) :: c).
Proof.
  intros Hrej. rewrite keys_text_cons. unfold keys_pattern. cbn [Cat].
  seq " " (key_name k ++ keys_tail ks) (fun c : Caps => c)
      (fun c : Caps => (3, key_name k ++ keys_tail ks) :: c).
  { apply accepts_Plus_class; [reflexivity|reflexivity|].
    rewrite append_assoc. apply stops_space_key. }
  apply accepts_Grp.
  seq_plain (key_name k) (keys_tail ks).
  { apply accepts_key_word. }
  apply accepts_keys_tail. assumption.
Qed.

Lemma accepts_comment_pattern (text : string) :
  quote_free text = true ->
  accepts comment_pattern (" " ++ Js.DQ ++ text ++ Js.DQ) ""
    (fun c => (4, text) :: c).
Proof.
  intros Hq. unfold comment_pattern. cbn [Cat].
  seq " " (Js.DQ ++ text ++ Js.DQ) (fun c : Caps => c)
      (fun c : Caps => (4, text) :: c).
  { apply accepts_Plus_class; reflexivity. }
  seq Js.DQ (text ++ Js.DQ) (fun c : Caps => c)
      (fun c : Caps => (4, text) :: c).
  { apply accepts_Lit. discriminate. }
  seq text Js.DQ (fun c : Caps => (4, text) :: c) (fun c : Caps => c).
  { apply accepts_Grp. apply accepts_Star_class; [assumption|reflexivity]. }
  apply accepts_Lit. discriminate.
Qed.

(** What may follow the keys: nothing, or the comment. *)
Lemma rejects_after_keys (comment : option string) :
  rejects key_chunk (comment_part comment ++ "")
  /\ rejects keys_pattern (comment_part comment ++ "").
Proof.
  destruct comment as [text|]; split; fails_here.
Qed.

Lemma rejects_comment_nil : rejects comment_pattern "".
Proof. fails_here. Qed.

End AttributeLine.

Module AttributeRoundTrip.
Import Re StringFacts TextFacts ReSound Accepts AttributeLine PATTERNS.

Lemma alpha_not_space (a : ascii) :
  Js.is_alpha a = true -> Js.is_space a = false.
Proof. NormalFacts.by_cases_on_char a. Qed.

Lemma ident_start_not_space (a : ascii) :
  ident_start a = true -> Js.is_space a = false.
Proof. NormalFacts.by_cases_on_char a. Qed.

Lemma ident_start_not_star (a : ascii) :
  ident_start a = true -> Js.is_char "*" a = false.
Proof. NormalFacts.by_cases_on_char a. Qed.

Lemma accepts_type (a : ascii) (t rest : string) :
  Js.is_alpha a = true -> all_chars type_char t = true ->
  stops type_char rest = true ->
  accepts (Seq (Chr Js.is_alpha) (Star (Chr type_char))) (String a t) rest
    (fun c => c).
Proof.
  intros Ha Ht Hrest. seq_plain (String a "") t.
  - apply accepts_Chr. assumption.
  - apply accepts_Star_class; assumption.
Qed.

Lemma accepts_name (b : ascii) (n rest : string) :
  ident_start b = true -> all_chars ident_char n = true ->
  stops ident_char rest = true ->
  accepts (Cat [Opt (Lit "*"); Chr ident_start; Star (Chr ident_char)])
    (String b n) rest (fun c => c).
Proof.
  intros Hb Hn Hrest. cbn [Cat]. seq_plain "" (String b n).
  { apply accepts_Alt_r; [|apply accepts_Eps].
    intros pos c k. simpl. rewrite (ident_start_not_star b Hb). reflexivity. }
  seq_plain (String b "") n.
  - apply accepts_Chr. assumption.
  - apply accepts_Star_class; assumption.
Qed.

Lemma accepts_keys_opt (ks : list AttributeKey) (comment : option string) :
  accepts (Opt keys_pattern) (keys_part ks) (comment_part comment ++ "")
    (with_keys ks).
Proof.
  destruct ks as [|k ks].
  - apply accepts_Alt_r; [apply rejects_after_keys|apply accepts_Eps].
  - apply accepts_Alt_l. apply accepts_keys_pattern. apply rejects_after_keys.
Qed.

Lemma accepts_comment_opt (comment : option string) :
  match comment with Some text => quote_free text = true | None => True end ->
  accepts (Opt comment_pattern) (comment_part comment) ""
    (with_comment comment).
Proof.
  destruct comment as [text|]; intros H.
  - apply accepts_Alt_l. apply accepts_comment_pattern. assumption.
  - apply accepts_Alt_r; [apply rejects_comment_nil|apply accepts_Eps].
Qed.

Lemma stops_after_name (ks : list AttributeKey) (comment : option string) :
  stops ident_char ((keys_part ks ++ comment_part comment) ++ "") = true.
Proof. destruct ks, comment; reflexivity. Qed.

Lemma accepts_starred_name (b : ascii) (n rest : string) :
  ident_start b = true -> all_chars ident_char n = true ->
  stops ident_char rest = true ->
  accepts (Cat [Opt (Lit "*"); Chr ident_start; Star (Chr ident_char)])
    ("*" ++ String b n) rest (fun c => c).
Proof.
  intros Hb Hn Hrest. cbn [Cat]. seq_plain "*" (String b n).
  { apply accepts_Alt_l. apply accepts_Lit. discriminate. }
  seq_plain (String b "") n.
  - apply accepts_Chr. assumption.
  - apply accepts_Star_class; assumption.
Qed.

(** The pattern after its anchor takes the line of a writable attribute,
    whatever text [nm] its name pattern takes. *)
Lemma accepts_attribute (r : re) (a : ascii) (t nm : string)
      (ks : list AttributeKey) (comment : option string) :
  ATTRIBUTE = Seq Bol r ->
  Js.is_alpha a = true -> all_chars type_char t = true ->
  (forall rest, stops ident_char rest = true ->
     accepts (Cat [Opt (Lit "*"); Chr ident_start; Star (Chr ident_char)])
       nm rest (fun c => c)) ->
  (forall rest, stops Js.is_space (nm ++ rest) = true) ->
  match comment with Some text => quote_free text = true | None => True end ->
  accepts r
    (String a t ++ " " ++ nm ++ keys_part ks ++ comment_part comment) ""
    (fun c =>
       with_comment comment
         (with_keys ks ((2, nm) :: (1, String a t) :: c))).
Proof.
  intros E Ha Ht Hname Hstop Hc. unfold ATTRIBUTE in E. cbn [Cat] in E.
  injection E as <-.
  seq "" (String a t ++ " " ++ nm ++ keys_part ks ++ comment_part comment)
      (fun c : Caps => c)
      (fun c : Caps =>
         with_comment comment
           (with_keys ks ((2, nm) :: (1, String a t) :: c))).
  { apply accepts_Star_class; [reflexivity|].
    simpl. rewrite (alpha_not_space a Ha). reflexivity. }
  seq (String a t) (" " ++ nm ++ keys_part ks ++ comment_part comment)
      (fun c : Caps => (1, String a t) :: c)
      (fun c : Caps => with_comment comment (with_keys ks ((2, nm) :: c))).
  { apply accepts_Grp. apply accepts_type; try assumption. reflexivity. }
  seq " " (nm ++ keys_part ks ++ comment_part comment)
      (fun c : Caps => c)
      (fun c : Caps => with_comment comment (with_keys ks ((2, nm) :: c))).
  { apply accepts_Plus_class; [reflexivity|reflexivity|].
    rewrite append_assoc. apply Hstop. }
  seq nm (keys_part ks ++ comment_part comment)
      (fun c : Caps => (2, nm) :: c)
      (fun c : Caps => with_comment comment (with_keys ks c)).
  { apply accepts_Grp. apply Hname. apply stops_after_name. }
  seq (keys_part ks) (comment_part comment) (with_keys ks)
      (with_comment comment).
  { apply accepts_keys_opt. }
  apply (accepts_Seq _ _ (comment_part comment) "" _ _
           (with_comment comment) (fun c : Caps => c)).
  - symmetry. apply append_nil_r.
  - apply accepts_comment_opt. assumption.
  - seq_plain "" "".
    + apply accepts_Star_class; reflexivity.
    + apply accepts_Eol.
Qed.

Lemma marked_line_exec (r : re) (a : ascii) (t nm : string)
      (ks : list AttributeKey) (comment : option string) :
  ATTRIBUTE = Seq Bol r ->
  accepts r
    (String a t ++ " " ++ nm ++ keys_part ks ++ comment_part comment) ""
    (fun c =>
       with_comment comment
         (with_keys ks ((2, nm) :: (1, String a t) :: c))) ->
  exec ATTRIBUTE
    (String a t ++ " " ++ nm ++ keys_part ks ++ comment_part comment)
  = Some (with_comment comment (with_keys ks [(2, nm); (1, String a t)])).
Proof.
  intros E H. rewrite E. unfold exec.
  specialize (H 0 [] (fun _ _ c => Some c)).
  rewrite append_nil_r in H.
  assert (Hm : rmatch (Seq Bol r) 0
                 (String a t ++ " " ++ nm ++ keys_part ks
                  ++ comment_part comment) [] (fun _ _ c => Some c)
               = Some (with_comment comment
                         (with_keys ks [(2, nm); (1, String a t)])))
    by (apply H; reflexivity).
  destruct (String a t ++ " " ++ nm ++ keys_part ks ++ comment_part comment);
    simpl; simpl in Hm; rewrite Hm; reflexivity.
Qed.

Lemma exec_from_hit (r : re) (pos : nat) (s : string) (m : Caps) :
  rmatch r pos s [] (fun _ _ c => Some c) = Some m ->
  exec_from r pos s = Some m.
Proof. intros H. destruct s; simpl; rewrite H; reflexivity. Qed.

Lemma attribute_line_exec (a : Attribute) :
  writable_attribute a ->
  exec ATTRIBUTE (attribute_line a) = Some (attribute_captures a).
Proof.
  destruct a as [name type ks comment].
  unfold writable_attribute, attribute_line, attribute_captures.
  cbn [attr_name attr_type attr_keys attr_comment].
  intros [Ht [Hn Hc]].
  destruct type as [|a t]; [discriminate|].
  destruct name as [|b n]; [discriminate|].
  simpl in Ht, Hn.
  apply andb_prop in Ht. destruct Ht as [Ha Ht].
  apply andb_prop in Hn. destruct Hn as [Hb Hn].
  assert (E : exists r, ATTRIBUTE = Seq Bol r) by (eexists; reflexivity).
  destruct E as [r E].
  apply (marked_line_exec r a t (String b n) ks comment E).
  apply accepts_attribute; try assumption.
  - intros rest Hrest. apply accepts_name; assumption.
  - intros rest. simpl. rewrite (ident_start_not_space b Hb). reflexivity.
Qed.

Lemma starred_line_exec (a : Attribute) :
  writable_attribute a ->
  exec ATTRIBUTE (starred_line a)
  = Some (with_comment (attr_comment a)
            (with_keys (attr_keys a)
               [(2, "*" ++ attr_name a); (1, attr_type a)])).
Proof.
  destruct a as [name type ks comment].
  unfold writable_attribute, starred_line.
  cbn [attr_name attr_type attr_keys attr_comment].
  intros [Ht [Hn Hc]].
  destruct type as [|a t]; [discriminate|].
  destruct name as [|b n]; [discriminate|].
  simpl in Ht, Hn.
  apply andb_prop in Ht. destruct Ht as [Ha Ht].
  apply andb_prop in Hn. destruct Hn as [Hb Hn].
  assert (E : exists r, ATTRIBUTE = Seq Bol r) by (eexists; reflexivity).
  destruct E as [r E].
  apply (marked_line_exec r a t ("*" ++ String b n) ks comment E).
  apply accepts_attribute; try assumption.
  - intros rest Hrest. apply accepts_starred_name; assumption.
  - intros rest. reflexivity.
Qed.

(** *** The keys come back *)

Lemma split_at_separator (sep : ascii) (w rest : string) :
  all_chars (fun c => negb (Ascii.eqb c sep)) w = true ->
  Js.split sep (w ++ String sep rest) = w :: Js.split sep rest.
Proof.
  induction w as [|a w IH]; intros H; simpl.
  - rewrite Ascii.eqb_refl. reflexivity.
  - simpl in H. apply andb_prop in H. destruct H as [Ha Hw].
    apply negb_true_iff in Ha. rewrite Ha, (IH Hw). reflexivity.
Qed.

Lemma key_parts (ks : list AttributeKey) :
  forall k pad,
    pad = "" \/ pad = " " ->
    map (fun part => Js.toUpperCase (Js.trim part))
        (Js.split "," (pad ++ key_name k ++ keys_tail ks))
    = map key_name (k :: ks).
Proof.
  induction ks as [|k' ks IH]; intros k pad Hpad.
  - destruct Hpad as [-> | ->]; destruct k; vm_compute; reflexivity.
  - replace (pad ++ key_name k ++ keys_tail (k' :: ks))
      with ((pad ++ key_name k)
            ++ String "," (" " ++ key_name k' ++ keys_tail ks))
      by (rewrite append_assoc; reflexivity).
    rewrite split_at_separator
      by (destruct Hpad as [-> | ->]; destruct k; reflexivity).
    cbn [map]. rewrite (IH k' " ") by (right; reflexivity).
    f_equal. destruct Hpad as [-> | ->]; destruct k; vm_compute; reflexivity.
Qed.

Lemma key_of_part_name (k : AttributeKey) : key_of_part (key_name k) = Some k.
Proof. destruct k; reflexivity. Qed.

Lemma decode_names (ks acc : list AttributeKey) :
  fold_left
    (fun keys part =>
       match key_of_part part with
       | Some k => (keys ++ [k])%list
       | None => keys
       end)
    (map key_name ks) acc
  = (acc ++ ks)%list.
Proof.
  revert acc. induction ks as [|k ks IH]; intros acc.
  - simpl. rewrite app_nil_r. reflexivity.
  - cbn [map fold_left]. rewrite key_of_part_name, IH, <- app_assoc.
    reflexivity.
Qed.

Lemma parseAttributeKeys_keys_text (k : AttributeKey) (ks : list AttributeKey) :
  parseAttributeKeys (Some (keys_text (k :: ks))) = k :: ks.
Proof.
  rewrite keys_text_cons.
  assert (E : forall s, s <> "" ->
            parseAttributeKeys (Some s)
            = fold_left
                (fun keys part =>
                   match key_of_part part with
                   | Some k => (keys ++ [k])%list
                   | None => keys
                   end)
                (map (fun part => Js.toUpperCase (Js.trim part))
                     (Js.split "," s)) [])
    by (intros [|x s] Hs; [congruence|reflexivity]).
  rewrite E by (destruct k; discriminate).
  change (key_name k ++ keys_tail ks) with ("" ++ key_name k ++ keys_tail ks).
  rewrite key_parts by (left; reflexivity).
  apply decode_names.
Qed.

Lemma attribute_of_captures (a : Attribute) :
  writable_attribute a -> attribute_of_match (attribute_captures a) = a.
Proof.
  destruct a as [name type ks comment]. intros [_ [Hn _]].
  cbn [attr_name] in Hn.
  pose proof (NameFacts.identifier_chars name Hn) as Hchars.
  assert (Hstar : Js.startsWith "*" name = false)
    by (apply (startsWith_all_chars ident_char); [assumption|reflexivity]).
  unfold attribute_of_match, attribute_captures, with_comment, with_keys, group.
  cbn [attr_name attr_type attr_keys attr_comment].
  destruct comment as [text|], ks as [|k ks];
    cbn [app cap Nat.eqb]; unfold remove_leading; rewrite Hstar;
    cbn [andb]; rewrite ?parseAttributeKeys_keys_text; reflexivity.
Qed.

Lemma attribute_of_starred (a : Attribute) :
  writable_attribute a ->
  attribute_of_match
    (with_comment (attr_comment a)
       (with_keys (attr_keys a) [(2, "*" ++ attr_name a); (1, attr_type a)]))
  = mkAttribute (attr_name a) (attr_type a)
      (if keys_include PK (attr_keys a) then attr_keys a
       else PK :: attr_keys a)
      (attr_comment a).
Proof.
  destruct a as [name type ks comment]. intros _.
  unfold attribute_of_match, with_comment, with_keys, group.
  cbn [attr_name attr_type attr_keys attr_comment].
  assert (Hstar : Js.startsWith "*" ("*" ++ name) = true)
    by apply prefix_append.
  assert (Hname : remove_leading "*" ("*" ++ name) = name)
    by apply remove_leading_append.
  destruct comment as [text|], ks as [|k ks];
    cbn [app cap Nat.eqb]; rewrite Hstar, Hname;
    cbn [attr_name attr_type attr_keys attr_comment];
    rewrite ?parseAttributeKeys_keys_text;
    cbn [parseAttributeKeys keys_include existsb andb negb];
    try reflexivity;
    match goal with
    | |- context [negb ?b] => destruct b
    end; reflexivity.
Qed.

End AttributeRoundTrip.

(** X9.  The line of a block that writes an attribute the plain way (the type,
    the name, the keys with commas between them, the comment between double
    quotes, one space apart) is taken by the attribute pattern and read back as
    that very attribute, for every type and name of the language, every list
    of keys, and every comment without a double quote. *)
Theorem attribute_line_is_read_back (a : Attribute) :
  writable_attribute a ->
  exists m,
    Re.exec PATTERNS.ATTRIBUTE (attribute_line a) = Some m
    /\ attribute_of_match m = a.
Proof.
  intros H. exists (attribute_captures a). split.
  - apply AttributeRoundTrip.attribute_line_exec. assumption.
  - apply AttributeRoundTrip.attribute_of_captures. assumption.
Qed.

Lemma attribute_line_is_read_back_witness :
  exists m,
    Re.exec PATTERNS.ATTRIBUTE (attribute_line keyed_attribute) = Some m
    /\ attribute_of_match m = keyed_attribute.
Proof.
  apply attribute_line_is_read_back. repeat split; reflexivity.
Defined.

(** ** The query builder *)

Module QueryFacts.

Lemma assoc_restrict (keep : string -> bool) (data : Data) (k : string) :
  keep k = true -> Obj.assoc k (restrict keep data) = Obj.assoc k data.
Proof.
  intros Hk. unfold restrict.
  induction data as [|[k' v] data IH]; [reflexivity|].
  cbn [filter fst]. destruct (String.eqb k' k) eqn:E.
  - apply String.eqb_eq in E. subst k'. rewrite Hk.
    cbn [Obj.assoc]. rewrite String.eqb_refl. reflexivity.
  - destruct (keep k'); cbn [Obj.assoc]; rewrite ?E; assumption.
Qed.

Lemma keys_restrict (keep : string -> bool) (data : Data) :
  filter keep (object_keys (restrict keep data)) = filter keep (object_keys data).
Proof.
  unfold restrict, object_keys.
  induction data as [|[k v] data IH]; [reflexivity|].
  cbn [filter map fst]. destruct (keep k) eqn:E.
  - cbn [map filter fst]. rewrite E, IH. reflexivity.
  - assumption.
Qed.

Lemma values_restrict (keep : string -> bool) (data : Data) :
  map (data_get (restrict keep data)) (filter keep (object_keys data))
  = map (data_get data) (filter keep (object_keys data)).
Proof.
  apply map_ext_in. intros k Hk. apply filter_In in Hk. destruct Hk as [_ Hk].
  unfold data_get. rewrite (assoc_restrict keep data k Hk). reflexivity.
Qed.

Lemma mapi_from_placeholders {A : Type} (xs : list A) (i : nat) :
  mapi_from (fun _ i => placeholder (i + 1)) i xs
  = map placeholder (seq (i + 1) (List.length xs)).
Proof.
  revert i. induction xs as [|x xs IH]; intros i; [reflexivity|].
  cbn [mapi_from List.length seq map]. rewrite IH.
  replace (S i + 1) with (S (i + 1)) by lia. reflexivity.
Qed.

End QueryFacts.

(** X10.  [insert] reads the properties of the record that are columns of the
    table and nothing else: a record and the same record without its other
    properties give the same query.  The columns it names are columns of the
    table, and the placeholders of the statement are numbered from 1 to the
    number of parameters, in the order of the parameters. *)
Theorem insert_takes_known_columns (config : QueryConfig) (data : Data) :
  insert config data = insert config (restrict (known_column config) data)
  /\ sql (insert config data)
     = "INSERT INTO " ++ quoted (tableName config) ++ " ("
       ++ Js.join ", "
            (map quoted (filter (known_column config) (object_keys data)))
       ++ ") VALUES ("
       ++ Js.join ", "
            (map placeholder
               (seq 1 (List.length (params (insert config data)))))
       ++ ") RETURNING *"
  /\ params (insert config data)
     = map (data_get data) (filter (known_column config) (object_keys data))
  /\ Forall (fun k => In k (columns config))
            (filter (known_column config) (object_keys data)).
Proof.
  split; [|split; [|split]].
  - unfold insert. fold (known_column config).
    rewrite (QueryFacts.keys_restrict (known_column config) data).
    rewrite (QueryFacts.values_restrict (known_column config) data).
    reflexivity.
  - unfold insert. fold (known_column config). cbn [sql params].
    unfold mapi. rewrite QueryFacts.mapi_from_placeholders.
    rewrite length_map. reflexivity.
  - reflexivity.
  - apply Forall_forall. intros k Hk. apply filter_In in Hk.
    destruct Hk as [_ Hk]. apply names_include_In. assumption.
Qed.

(** X11.  [update] sets the properties of the record that are columns of the
    table other than the primary key, and nothing else: the primary key is never
    among the columns it sets, the other properties of the record have no
    effect on the query, the identifier is the last parameter, and the
    placeholder of the WHERE clause carries the number of that parameter. *)
Theorem update_never_sets_the_key (config : QueryConfig) (id : Value)
        (data : Data) :
  update config id data
  = update config id (restrict (settable_column config) data)
  /\ params (update config id data)
     = (map (data_get data) (filter (settable_column config) (object_keys data))
        ++ [id])%list
  /\ (exists assignments,
        sql (update config id data)
        = "UPDATE " ++ quoted (tableName config) ++ " SET " ++ assignments
          ++ " WHERE " ++ quoted (show_key (primaryKey config)) ++ " = "
          ++ placeholder (List.length (params (update config id data)))
          ++ " RETURNING *")
  /\ (forall pk, primaryKey config = Some pk ->
        ~ In pk (filter (settable_column config) (object_keys data))).
Proof.
  split; [|split; [|split]].
  - unfold update. fold (settable_column config).
    rewrite (QueryFacts.keys_restrict (settable_column config) data).
    rewrite (QueryFacts.values_restrict (settable_column config) data).
    reflexivity.
  - reflexivity.
  - eexists. unfold update. fold (settable_column config). cbn [sql params].
    rewrite length_app, length_map. cbn [List.length]. reflexivity.
  - intros pk Hpk Hin. apply filter_In in Hin. destruct Hin as [_ Hin].
    unfold settable_column in Hin. rewrite Hpk in Hin.
    apply andb_prop in Hin. destruct Hin as [_ Hin].
    cbn [differs_from_key] in Hin. rewrite String.eqb_refl in Hin.
    discriminate.
Qed.

(** X12.  An entity with at least one attribute gives a configuration whose
    primary key is one of its columns: the column of the first attribute
    flagged PK, or the first column when no attribute is flagged. *)
Theorem buildQueryConfig_key_is_a_column (entity : Entity) :
  ent_attributes entity <> [] ->
  exists pk,
    primaryKey (buildQueryConfig entity) = Some pk
    /\ In pk (columns (buildQueryConfig entity))
    /\ match find is_pk (ent_attributes entity) with
       | Some a => pk = toColumnName (attr_name a)
       | None => nth_error (columns (buildQueryConfig entity)) 0 = Some pk
       end.
Proof.
  intros Hne. unfold buildQueryConfig. cbn [primaryKey columns].
  destruct (find is_pk (ent_attributes entity)) as [a|] eqn:E.
  - exists (toColumnName (attr_name a)). split; [reflexivity|]. split.
    + apply find_some in E. destruct E as [Hin _].
      apply in_map_iff. exists a. auto.
    + reflexivity.
  - destruct (ent_attributes entity) as [|a attrs]; [congruence|].
    exists (toColumnName (attr_name a)). cbn [map nth_error].
    split; [reflexivity|]. split; [left; reflexivity|reflexivity].
Qed.

Lemma buildQueryConfig_key_is_a_column_witness :
  exists pk,
    primaryKey (buildQueryConfig CUSTOMER) = Some pk
    /\ In pk (columns (buildQueryConfig CUSTOMER))
    /\ match find is_pk (ent_attributes CUSTOMER) with
       | Some a => pk = toColumnName (attr_name a)
       | None => nth_error (columns (buildQueryConfig CUSTOMER)) 0 = Some pk
       end.
Proof.
  apply (buildQueryConfig_key_is_a_column CUSTOMER). discriminate.
Defined.

(** ** The foreign keys *)

Module ForeignKeyFacts.
Import TextFacts.

Lemma take_drop (n : nat) (s : string) : Js.take n s ++ Js.drop n s = s.
Proof.
  unfold Js.take. revert s. induction n as [|n IH]; intros s.
  - destruct s; reflexivity.
  - destruct s as [|a s]; [reflexivity|]. simpl. rewrite IH. reflexivity.
Qed.

Lemma endsWith_split (suf s : string) :
  Js.endsWith suf s = true ->
  s = Js.slice_to_minus (String.length suf) s ++ suf.
Proof.
  intros H. pose proof (endsWith_inv suf s H) as Hd.
  unfold Js.slice_to_minus.
  transitivity
    (Js.take (String.length s - String.length suf) s
     ++ Js.drop (String.length s - String.length suf) s).
  - symmetry. apply take_drop.
  - rewrite Hd. reflexivity.
Qed.

Lemma fold_set_keys (entries : list (string * Entity)) (m : EntityMap.t)
      (k : string) :
  In k (EntityMap.keys
          (fold_left (fun m kv => EntityMap.set (fst kv) (snd kv) m) entries m))
  <-> In k (EntityMap.keys m) \/ In k (map fst entries).
Proof.
  revert m. induction entries as [|[k0 v0] entries IH]; intros m.
  - simpl. intuition.
  - cbn [fold_left map fst snd]. rewrite IH, EntityMapFacts.keys_set.
    simpl. intuition.
Qed.

Lemma of_entries_keys (entries : list (string * Entity)) (k : string) :
  In k (EntityMap.keys (EntityMap.of_entries entries)) <-> In k (map fst entries).
Proof.
  unfold EntityMap.of_entries. rewrite fold_set_keys. simpl. intuition.
Qed.

Lemma lowered_keys (schema : DatabaseSchema) (k : string) :
  In k (EntityMap.keys (lowered_entities schema))
  <-> exists e, In e (schema_entities schema) /\ k = Js.toLowerCase (ent_name e).
Proof.
  unfold lowered_entities. rewrite of_entries_keys, map_map. cbn [fst].
  rewrite in_map_iff. split; intros [e [H1 H2]]; exists e; auto.
Qed.

(** What the search returns for an FK column. *)
Lemma inferred_reference_sound (schema : DatabaseSchema) (fkCol : Attribute)
      (refTable refColumn : string) :
  inferred_reference schema fkCol = Some (refTable, refColumn) ->
  exists target,
    In target (schema_entities schema)
    /\ refTable = lookup_name target
    /\ refTable <> ""
    /\ toColumnName (attr_name fkCol) = refTable ++ "_id".
Proof.
  unfold inferred_reference.
  destruct (Js.endsWith "_id" (toColumnName (attr_name fkCol))) eqn:Eend;
    [|discriminate].
  rewrite find_reference_spec.
  destruct (find _ (lowered_entities schema)) as [[k e]|] eqn:Efind;
    [|discriminate].
  apply find_some in Efind. destruct Efind as [Hin Hk]. cbn [fst] in Hk.
  apply String.eqb_eq in Hk.
  destruct (Js.slice_to_minus 3 (toColumnName (attr_name fkCol)))
    as [|c t] eqn:Eslice; [discriminate|].
  intros [= <- <-].
  assert (Hkey : In k (EntityMap.keys (lowered_entities schema)))
    by (apply in_map_iff; exists (k, e); auto).
  apply lowered_keys in Hkey. destruct Hkey as [target [Htarget ->]].
  exists target. split; [assumption|]. split; [symmetry; assumption|].
  split; [discriminate|].
  rewrite <- Eslice. apply (endsWith_split "_id"). assumption.
Qed.

Lemma inferred_reference_complete (schema : DatabaseSchema) (fkCol : Attribute)
      (target : Entity) :
  In target (schema_entities schema) ->
  lookup_name target <> "" ->
  toColumnName (attr_name fkCol) = lookup_name target ++ "_id" ->
  exists refColumn,
    inferred_reference schema fkCol = Some (lookup_name target, refColumn).
Proof.
  intros Hin Hne Hcol. unfold inferred_reference. rewrite Hcol.
  rewrite endsWith_append.
  change 3 with (String.length "_id"). rewrite slice_to_minus_append.
  rewrite find_reference_spec.
  destruct (find (fun kv => String.eqb (toTableName (fst kv)) (lookup_name target))
                 (lowered_entities schema)) as [[k e]|] eqn:Efind.
  - destruct (lookup_name target) as [|c t] eqn:E; [congruence|].
    eexists. reflexivity.
  - exfalso.
    assert (Hkey : In (Js.toLowerCase (ent_name target))
                      (EntityMap.keys (lowered_entities schema)))
      by (apply lowered_keys; exists target; auto).
    apply in_map_iff in Hkey. destruct Hkey as [[k e] [Hk Hkin]].
    cbn [fst] in Hk. subst k.
    pose proof (find_none _ _ Efind _ Hkin) as Hnone. cbn [fst] in Hnone.
    unfold lookup_name in Hnone. rewrite String.eqb_refl in Hnone.
    discriminate.
Qed.

Lemma flat_map_length_le {A B : Type} (f : A -> list B) (l : list A) :
  (forall a, List.length (f a) <= 1) ->
  List.length (flat_map f l) <= List.length l.
Proof.
  intros Hf. induction l as [|a l IH]; simpl; [lia|].
  rewrite length_app. specialize (Hf a). lia.
Qed.

Lemma foreign_keys_of_length (schema : DatabaseSchema) (entity : Entity) :
  List.length (foreign_keys_of schema entity)
  <= List.length
       (filter (fun a => keys_include FK (attr_keys a)) (ent_attributes entity)).
Proof.
  unfold foreign_keys_of. apply flat_map_length_le. intros a.
  destruct (inferred_reference schema a) as [[t c]|]; simpl; lia.
Qed.

Lemma statements_length (schema : DatabaseSchema) (entities : list Entity) :
  List.length (flat_map (foreign_keys_of schema) entities)
  <= List.length
       (flat_map
          (fun e => filter (fun a => keys_include FK (attr_keys a))
                           (ent_attributes e))
          entities).
Proof.
  induction entities as [|e entities IH]; simpl; [lia|].
  rewrite !length_app. pose proof (foreign_keys_of_length schema e). lia.
Qed.

End ForeignKeyFacts.

(** X13.  Every statement of [generateForeignKeys] comes from an attribute
    flagged FK of an entity of the schema, whose column name is the table name
    of the lower-cased name of an entity of the schema followed by the suffix
    of identifiers; it alters the table of the entity that owns the attribute
    and refers to that looked-up name.  There are never more statements than
    attributes flagged FK. *)
Theorem foreign_keys_come_from_column_names (schema : DatabaseSchema) :
  Forall (inferred_from schema) (generateForeignKeys schema)
  /\ List.length (generateForeignKeys schema)
     <= List.length (fk_attributes schema).
Proof.
  rewrite generateForeignKeys_flat_map. split.
  - apply Forall_forall. intros statement Hin.
    apply in_flat_map in Hin. destruct Hin as [entity [Hentity Hin]].
    unfold foreign_keys_of in Hin. apply in_flat_map in Hin.
    destruct Hin as [fkCol [Hfk Hin]].
    apply filter_In in Hfk. destruct Hfk as [Hattr Hflag].
    destruct (inferred_reference schema fkCol) as [[refTable refColumn]|] eqn:E;
      [|contradiction].
    destruct Hin as [<-|[]].
    apply ForeignKeyFacts.inferred_reference_sound in E.
    destruct E as [target [Htarget [-> [Hne Hcol]]]].
    exists entity, fkCol, target, refColumn. repeat split; assumption.
  - apply ForeignKeyFacts.statements_length.
Qed.

(** X14.  An attribute flagged FK whose column name is the table name of the
    lower-cased name of an entity of the schema, followed by the suffix of
    identifiers, gets its constraint: the statement that alters the table of
    its owner and refers to that name is among the statements generated. *)
Theorem foreign_key_for_matching_column
        (schema : DatabaseSchema) (entity target : Entity) (fkCol : Attribute) :
  In entity (schema_entities schema) ->
  In fkCol (ent_attributes entity) ->
  keys_include FK (attr_keys fkCol) = true ->
  In target (schema_entities schema) ->
  lookup_name target <> "" ->
  toColumnName (attr_name fkCol) = lookup_name target ++ "_id" ->
  exists refColumn,
    In (foreign_key_statement (toTableName (ent_name entity))
          (toColumnName (attr_name fkCol)) (lookup_name target) refColumn)
       (generateForeignKeys schema).
Proof.
  intros Hentity Hattr Hflag Htarget Hne Hcol.
  destruct (ForeignKeyFacts.inferred_reference_complete
              schema fkCol target Htarget Hne Hcol) as [refColumn E].
  exists refColumn. rewrite generateForeignKeys_flat_map.
  apply in_flat_map. exists entity. split; [assumption|].
  unfold foreign_keys_of. apply in_flat_map. exists fkCol. split.
  - apply filter_In. split; assumption.
  - rewrite E. left. reflexivity.
Qed.

Lemma foreign_key_for_matching_column_witness :
  exists refColumn,
    In (foreign_key_statement "order" "customer_id" "customer" refColumn)
       (generateForeignKeys customer_order).
Proof.
  apply (foreign_key_for_matching_column customer_order
           (mkEntity "Order" None
              [ mkAttribute "order_id" "int" [PK] None;
                mkAttribute "customer_id" "int" [FK] None ])
           (mkEntity "Customer" None [mkAttribute "id" "int" [PK] None])
           (mkAttribute "customer_id" "int" [FK] None)).
  - right. left. reflexivity.
  - right. left. reflexivity.
  - reflexivity.
  - left. reflexivity.
  - discriminate.
  - reflexivity.
Defined.

(** ** The type mapper and the script *)

Module MapTypeFacts.

Lemma lower_space (c : ascii) : Js.is_space (Js.lower_char c) = Js.is_space c.
Proof. NormalFacts.by_cases_on_char c. Qed.

Lemma lower_lower (c : ascii) :
  Js.lower_char (Js.lower_char c) = Js.lower_char c.
Proof. NormalFacts.by_cases_on_char c. Qed.

Lemma toLowerCase_idempotent (s : string) :
  Js.toLowerCase (Js.toLowerCase s) = Js.toLowerCase s.
Proof.
  induction s as [|c s IH]; [reflexivity|].
  simpl. rewrite lower_lower, IH. reflexivity.
Qed.

Lemma toLowerCase_trimStart (s : string) :
  Js.toLowerCase (Js.trimStart s) = Js.trimStart (Js.toLowerCase s).
Proof.
  induction s as [|c s IH]; [reflexivity|].
  simpl. rewrite lower_space. destruct (Js.is_space c); [assumption|reflexivity].
Qed.

Lemma toLowerCase_trimEnd (s : string) :
  Js.toLowerCase (Js.trimEnd s) = Js.trimEnd (Js.toLowerCase s).
Proof.
  induction s as [|c s IH]; [reflexivity|].
  simpl. rewrite <- IH, lower_space.
  destruct (Js.trimEnd s) as [|d t]; simpl.
  - destruct (Js.is_space c); reflexivity.
  - reflexivity.
Qed.

Lemma toLowerCase_trim (s : string) :
  Js.toLowerCase (Js.trim s) = Js.trim (Js.toLowerCase s).
Proof.
  unfold Js.trim. rewrite toLowerCase_trimEnd, toLowerCase_trimStart.
  reflexivity.
Qed.

Lemma mapType_of_normalized (s s' : string) :
  Js.trim (Js.toLowerCase s) = Js.trim (Js.toLowerCase s') ->
  mapType s = mapType s'.
Proof. unfold mapType. intros ->. reflexivity. Qed.

End MapTypeFacts.

(** X15.  [mapType] does not tell apart two spellings of a type that differ in
    the case of letters or in white space around the type: the lower-cased
    type, the trimmed type and the type itself are mapped alike, whether to a
    type of the table, to the default, or to a throw. *)
Theorem mapType_ignores_case_and_padding (mermaidType : string) :
  mapType (Js.toLowerCase mermaidType) = mapType mermaidType
  /\ mapType (Js.trim mermaidType) = mapType mermaidType
  /\ mapType (Js.trim (Js.toLowerCase mermaidType)) = mapType mermaidType.
Proof.
  split; [|split]; apply MapTypeFacts.mapType_of_normalized.
  - rewrite MapTypeFacts.toLowerCase_idempotent. reflexivity.
  - rewrite MapTypeFacts.toLowerCase_trim. apply TrimFacts.trim_idempotent.
  - rewrite MapTypeFacts.toLowerCase_trim,
      MapTypeFacts.toLowerCase_idempotent.
    apply TrimFacts.trim_idempotent.
Qed.

Module ScriptFacts.

(** The loop over the columns: a throw of [mapType] is the throw of the loop,
    and the first one wins. *)
Lemma columns_loop_throw (attrs : list Attribute) (error : string) :
  fold_left
    (fun acc attr =>
       bind acc (fun columns =>
       let colName := toColumnName (attr_name attr) in
       bind (mapType (attr_type attr)) (fun colType =>
       let colDef := "  " ++ quoted colName ++ " " ++ show_type colType in
       let colDef := if is_pk attr then colDef ++ " NOT NULL" else colDef in
       Normal (columns ++ [colDef])%list)))
    attrs (Throw error)
  = Throw error.
Proof. induction attrs as [|a attrs IH]; [reflexivity|exact IH]. Qed.

Lemma columns_loop_outcome (attrs : list Attribute) (columns : list string) :
  match
    fold_left
      (fun acc attr =>
         bind acc (fun columns =>
         let colName := toColumnName (attr_name attr) in
         bind (mapType (attr_type attr)) (fun colType =>
         let colDef := "  " ++ quoted colName ++ " " ++ show_type colType in
         let colDef := if is_pk attr then colDef ++ " NOT NULL" else colDef in
         Normal (columns ++ [colDef])%list)))
      attrs (Normal columns)
  with
  | Normal _ => Forall type_maps attrs
  | Throw error =>
      exists before a after,
        attrs = (before ++ a :: after)%list
        /\ Forall type_maps before
        /\ mapType (attr_type a) = Throw error
  end.
Proof.
  revert columns. induction attrs as [|a attrs IH]; intros columns.
  - simpl. constructor.
  - cbn [fold_left bind].
    destruct (mapType (attr_type a)) as [t|error] eqn:E.
    + cbn [bind].
      match goal with
      | |- context [fold_left _ attrs (Normal ?c)] => specialize (IH c)
      end.
      destruct (fold_left _ attrs _) as [cols|error].
      * constructor; [exists t; assumption|assumption].
      * destruct IH as [before [b [after [-> [Hb Ht]]]]].
        exists (a :: before), b, after. split; [reflexivity|]. split.
        -- constructor; [exists t; assumption|assumption].
        -- assumption.
    + cbn [bind]. rewrite columns_loop_throw.
      exists [], a, attrs. split; [reflexivity|]. split; [constructor|assumption].
Qed.

Lemma create_outcome (entity : Entity) :
  match generateCreateTable entity with
  | Normal statement =>
      Forall type_maps (ent_attributes entity)
      /\ creates_table_of entity statement
  | Throw error =>
      exists before a after,
        ent_attributes entity = (before ++ a :: after)%list
        /\ Forall type_maps before
        /\ mapType (attr_type a) = Throw error
  end.
Proof.
  unfold creates_table_of, generateCreateTable.
  pose proof (columns_loop_outcome (ent_attributes entity) [])
    as H.
  destruct (fold_left _ (ent_attributes entity) (Normal [])) as [columns|error].
  - cbn [bind]. split; [assumption|]. split; [reflexivity|].
    unfold Js.startsWith.
    match goal with
    | |- String.prefix (?A ++ ?Q ++ ?P) (?A ++ ?Q ++ ?P ++ ?R) = true =>
        rewrite <- (StringFacts.append_assoc Q P R),
          <- (StringFacts.append_assoc A (Q ++ P) R)
    end.
    apply TextFacts.prefix_append.
  - exact H.
Qed.

Lemma map_completion_outcome {A B : Type} (f : A -> Completion B) (xs : list A) :
  match map_completion f xs with
  | Normal ys => Forall2 (fun x y => f x = Normal y) xs ys
  | Throw error =>
      exists before x after,
        xs = (before ++ x :: after)%list
        /\ Forall (fun x' => exists y, f x' = Normal y) before
        /\ f x = Throw error
  end.
Proof.
  induction xs as [|x xs IH]; [constructor|].
  cbn [map_completion]. destruct (f x) as [y|error] eqn:E; cbn [bind].
  - destruct (map_completion f xs) as [ys|error]; cbn [bind].
    + constructor; assumption.
    + destruct IH as [before [x' [after [-> [Hb Hx]]]]].
      exists (x :: before), x', after. split; [reflexivity|]. split.
      * constructor; [exists y; assumption|assumption].
      * assumption.
  - exists [], x, xs. split; [reflexivity|]. split; [constructor|assumption].
Qed.

Lemma create_returns_iff (entity : Entity) :
  (exists statement, generateCreateTable entity = Normal statement)
  <-> Forall type_maps (ent_attributes entity).
Proof.
  pose proof (create_outcome entity) as H. split.
  - intros [statement E]. rewrite E in H. apply H.
  - intros Hall. destruct (generateCreateTable entity) as [statement|error].
    + exists statement. reflexivity.
    + exfalso. destruct H as [before [a [after [Heq [_ Ha]]]]].
      rewrite Heq in Hall. apply Forall_app in Hall. destruct Hall as [_ Hall].
      inversion Hall as [|? ? [t Ht] _]. congruence.
Qed.

End ScriptFacts.

(** X16.  [generateCreateTable] throws exactly when [mapType] throws on the
    type of one of the attributes, with the error of the first such attribute;
    when it returns, every type of the entity was mapped and the statement
    starts with CREATE TABLE IF NOT EXISTS and the quoted table name. *)
Theorem generateCreateTable_outcome (entity : Entity) :
  match generateCreateTable entity with
  | Normal statement =>
      Forall type_maps (ent_attributes entity)
      /\ creates_table_of entity statement
  | Throw error =>
      exists before a after,
        ent_attributes entity = (before ++ a :: after)%list
        /\ Forall type_maps before
        /\ mapType (attr_type a) = Throw error
  end.
Proof.
  unfold creates_table_of, generateCreateTable.
  pose proof (ScriptFacts.columns_loop_outcome (ent_attributes entity) [])
    as H.
  destruct (fold_left _ (ent_attributes entity) (Normal [])) as [columns|error].
  - cbn [bind]. split; [assumption|]. split; [reflexivity|].
    unfold Js.startsWith.
    match goal with
    | |- String.prefix (?A ++ ?Q ++ ?P) (?A ++ ?Q ++ ?P ++ ?R) = true =>
        rewrite <- (StringFacts.append_assoc Q P R),
          <- (StringFacts.append_assoc A (Q ++ P) R)
    end.
    apply TextFacts.prefix_append.
  - exact H.
Qed.

(** X17.  [generateSchemaSQL] returns exactly when every type of every entity
    is mapped without a throw.  When it returns, there is one CREATE TABLE
    statement for each entity, in the order of the entities, and one DROP
    TABLE statement for each entity in that same order, on the table that the
    CREATE TABLE statement at the same place names; the foreign keys are those
    of [generateForeignKeys]; and the script is the two header lines, the
    CREATE TABLE statements, an empty part, the header of the constraints and
    the constraints, two line feeds apart.  When it throws, the error is that
    of the first entity whose statement cannot be made. *)
Theorem generateSchemaSQL_outcome (schema : DatabaseSchema) :
  ((exists r, generateSchemaSQL schema = Normal r)
   <-> Forall (fun e => Forall type_maps (ent_attributes e))
              (schema_entities schema))
  /\ match generateSchemaSQL schema with
     | Normal r =>
         Forall2 creates_table_of (schema_entities schema) (createTables r)
         /\ dropTables r = map drop_statement (schema_entities schema)
         /\ foreignKeys r = generateForeignKeys schema
         /\ fullScript r
            = Js.join (Js.NL ++ Js.NL)
                (["-- Generated by MCP Mermaid ER Server"; "-- Create Tables"]
                 ++ createTables r
                 ++ [EmptyString; "-- Foreign Key Constraints"]
                 ++ foreignKeys r)%list
     | Throw error =>
         exists before e after,
           schema_entities schema = (before ++ e :: after)%list
           /\ Forall (fun e' => exists s, generateCreateTable e' = Normal s) before
           /\ generateCreateTable e = Throw error
     end.
Proof.
  pose proof (ScriptFacts.map_completion_outcome generateCreateTable
                (schema_entities schema)) as H.
  unfold generateSchemaSQL.
  destruct (map_completion generateCreateTable (schema_entities schema))
    as [statements|error]; cbn [bind].
  - split.
    + split; [intros _|intros _; eexists; reflexivity].
      apply Forall_forall. intros e He.
      apply ScriptFacts.create_returns_iff.
      clear - H He. induction H as [|x y xs ys Hxy _ IH]; [contradiction|].
      destruct He as [<-|He]; [exists y; assumption|apply IH; assumption].
    + cbn [createTables dropTables foreignKeys fullScript].
      split; [|split; [|split; reflexivity]].
      * clear - H. induction H as [|x y xs ys Hxy _ IH]; constructor;
          [|assumption].
        pose proof (ScriptFacts.create_outcome x) as Hx. rewrite Hxy in Hx.
        apply Hx.
      * unfold generateDropTables. rewrite map_map. reflexivity.
  - split; [|exact H].
    split; [intros [r Hr]; discriminate|].
    intros Hall. exfalso.
    destruct H as [before [e [after [Heq [_ He]]]]].
    rewrite Heq in Hall. apply Forall_app in Hall. destruct Hall as [_ Hall].
    inversion Hall as [|? ? Htypes _].
    apply ScriptFacts.create_returns_iff in Htypes.
    destruct Htypes as [statement Hs]. congruence.
Qed.


(** ** Lines that a pattern cannot take *)

Module Rejects.
Import Re StringFacts TextFacts ReSound NameFacts PATTERNS.

(** A pattern anchored at the start is tried at the start only. *)
Lemma exec_from_anchored (r : re) (s : string) (pos : nat) :
  exec_from (Seq Bol r) (S pos) s = None.
Proof.
  revert pos. induction s as [|a s IH]; intros pos; simpl; [reflexivity|].
  apply IH.
Qed.

Lemma exec_anchored (r : re) (s : string) :
  exec (Seq Bol r) s = rmatch r 0 s [] (fun _ _ c => Some c).
Proof.
  unfold exec. destruct s as [|a s]; simpl.
  - destruct (rmatch r 0 "" [] _); reflexivity.
  - rewrite exec_from_anchored.
    destruct (rmatch r 0 (String a s) [] _); reflexivity.
Qed.

(** A pattern that ends with the end of the text takes the whole text. *)
Lemma rmatch_whole (r : re) :
  to_end r = true ->
  forall pos s c k res, rmatch r pos s c k = Some res -> lang r s.
Proof.
  induction r as [|p|r1 _ r2 IH2|r1 _ r2 _|r1 _|i r1 _| |];
    intros Hend pos s c k res H; try discriminate.
  - simpl in Hend. simpl in H. apply rmatch_sound in H.
    destruct H as [w [s' [c' [-> [L1 [H _]]]]]].
    apply (IH2 Hend) in H. constructor; assumption.
  - simpl in H. destruct s; [|discriminate]. constructor.
Qed.

Lemma lang_within (P : ascii -> bool) (r : re) (w : string) :
  within P r -> lang r w -> all_chars P w = true.
Proof.
  intros Hin L. induction L; simpl in Hin; try reflexivity.
  - simpl. rewrite (Hin a H). reflexivity.
  - destruct Hin as [H1 H2]. rewrite all_chars_append, IHL1, IHL2; auto.
  - apply IHL. apply Hin.
  - apply IHL. apply Hin.
  - rewrite all_chars_append, IHL1, IHL2; auto.
  - apply IHL. assumption.
Qed.

Lemma last_char_append_nonempty (x y : string) :
  y <> "" -> last_char (x ++ y) = last_char y.
Proof.
  intros Hy. induction x as [|a x IH]; [reflexivity|].
  simpl. rewrite IH. destruct (x ++ y) eqn:E; [|reflexivity].
  destruct x; simpl in E; [congruence|discriminate].
Qed.

Lemma last_char_all (p : ascii -> bool) (s : string) (c : ascii) :
  all_chars p s = true -> last_char s = Some c -> p c = true.
Proof.
  induction s as [|a s IH]; [discriminate|].
  simpl. intros H Hl. apply andb_prop in H. destruct H as [Ha Hs].
  destruct s as [|b s]; [injection Hl as <-; assumption|].
  apply IH; assumption.
Qed.

(** Spaces in front of a text that starts with no space are none. *)
Lemma no_leading_spaces (sp x : string) (a : ascii) (rest : string) :
  all_chars Js.is_space sp = true -> Js.is_space a = false ->
  sp ++ x = String a rest -> sp = "".
Proof.
  intros Hsp Ha E. destruct sp as [|b sp]; [reflexivity|].
  simpl in *. injection E as -> _. rewrite Ha in Hsp. discriminate.
Qed.

(** Spaces at the end of a text that ends with no space are none. *)
Lemma no_trailing_spaces (x sp : string) (c : ascii) :
  all_chars Js.is_space sp = true -> Js.is_space c = false ->
  last_char (x ++ sp) = Some c -> sp = "".
Proof.
  intros Hsp Hc Hl. destruct sp as [|b sp]; [reflexivity|].
  rewrite last_char_append_nonempty in Hl by discriminate.
  rewrite (last_char_all _ _ _ Hsp Hl) in Hc. discriminate.
Qed.

Lemma ident_start_no_space (a : ascii) :
  ident_start a = true -> Js.is_space a = false.
Proof. NormalFacts.by_cases_on_char a. Qed.

Lemma test_false (r : re) (s : string) :
  (forall m, exec r s = Some m -> False) -> test r s = false.
Proof.
  intros H. unfold test. destruct (exec r s) as [m|]; [|reflexivity].
  exfalso. apply (H m). reflexivity.
Qed.

Ltac anchored p H :=
  unfold p in H; cbn [Cat] in H; rewrite exec_anchored in H.

Ltac split_word L E :=
  let w1 := fresh "w" in
  let w2 := fresh "w" in
  let L1 := fresh "L" in
  apply lang_Seq_inv in L; destruct L as [w1 [w2 [E [L1 L]]]].

(** *** Blank lines, comments and closing braces *)

Lemma not_EMPTY (line : string) : word_line line -> test EMPTY line = false.
Proof.
  intros [[a [rest [-> Ha]]] _]. apply test_false. intros m H.
  anchored EMPTY H. apply rmatch_whole in H; [|reflexivity].
  apply (lang_within Js.is_space) in H; [|simpl; auto].
  simpl in H. rewrite (ident_start_no_space a Ha) in H. discriminate.
Qed.

Lemma ident_start_not_percent (a : ascii) :
  ident_start a = true -> Js.is_char "%" a = false.
Proof. NormalFacts.by_cases_on_char a. Qed.

Lemma ident_start_not_brace (a : ascii) :
  ident_start a = true -> Js.is_char "}" a = false.
Proof. NormalFacts.by_cases_on_char a. Qed.

(** Spaces and then a literal: the text starts with a space or with the
    literal. *)
Lemma after_spaces (sp x : string) (a : ascii) (rest : string) :
  all_chars Js.is_space sp = true -> Js.is_space a = false ->
  sp ++ x = String a rest -> exists x', x = String a x'.
Proof.
  intros Hsp Ha E. rewrite (no_leading_spaces sp x a rest Hsp Ha E) in E.
  simpl in E. eauto.
Qed.

Lemma not_COMMENT (line : string) : word_line line -> test COMMENT line = false.
Proof.
  intros [[a [rest [-> Ha]]] _]. apply test_false. intros m H.
  anchored COMMENT H. apply rmatch_sound in H.
  destruct H as [w [s' [c' [E [L _]]]]].
  split_word L E1. apply lang_Star_Chr in L0. apply lang_Lit in L. subst.
  rewrite append_assoc in E. symmetry in E.
  apply (after_spaces _ _ a rest L0 (ident_start_no_space a Ha)) in E.
  destruct E as [x' E]. injection E as E _. subst a. discriminate.
Qed.

Lemma not_ENTITY_BLOCK_END (line : string) :
  word_line line -> test ENTITY_BLOCK_END line = false.
Proof.
  intros [[a [rest [-> Ha]]] _]. apply test_false. intros m H.
  anchored ENTITY_BLOCK_END H. apply rmatch_whole in H; [|reflexivity].
  split_word H E. apply lang_Star_Chr in L.
  split_word H E1. apply lang_Lit in L0. subst.
  symmetry in E.
  apply (after_spaces _ _ a rest L (ident_start_no_space a Ha)) in E.
  destruct E as [x' E]. injection E as E _. subst a. discriminate.
Qed.

(** *** The header and the direction *)

Lemma lang_Eol_inv (w : string) : lang Eol w -> w = "".
Proof. intros H. inversion H. reflexivity. Qed.

Lemma header_letters : within Js.is_alpha (LitI "erDiagram").
Proof. cbn. repeat split; intros a; NormalFacts.by_cases_on_char a. Qed.

Lemma not_ER_DIAGRAM_START (line : string) :
  word_line line -> test ER_DIAGRAM_START line = false.
Proof.
  intros [[a [rest [-> Ha]]] [[c [Hlast Hc]] Hword]].
  apply test_false. intros m H.
  anchored ER_DIAGRAM_START H. apply rmatch_whole in H; [|reflexivity].
  split_word H E. apply lang_Star_Chr in L.
  split_word H E1. apply (lang_within Js.is_alpha _ _ header_letters) in L0.
  split_word H E2. apply lang_Star_Chr in L1.
  apply lang_Eol_inv in H. subst. rewrite append_nil_r in *.
  pose proof E as E'. symmetry in E'.
  apply (no_leading_spaces _ _ a rest L (ident_start_no_space a Ha)) in E'.
  subst w. cbn [append] in E. rewrite E in Hlast, Hword.
  apply (no_trailing_spaces _ _ c L1 Hc) in Hlast. subst w3.
  rewrite append_nil_r in Hword. congruence.
Qed.

Lemma direction_letters :
  forall r, DIRECTION = Seq Bol r -> within letter_or_space r.
Proof.
  intros r E. unfold DIRECTION in E. cbn [Cat] in E. injection E as <-.
  cbn. repeat split; intros a; NormalFacts.by_cases_on_char a.
Qed.

Lemma not_DIRECTION (line : string) :
  all_chars letter_or_space line = false -> test DIRECTION line = false.
Proof.
  intros Hline. apply test_false. intros m H.
  assert (E : exists r, DIRECTION = Seq Bol r /\ to_end r = true)
    by (eexists; split; reflexivity).
  destruct E as [r [E Hend]]. pose proof (direction_letters r E) as Hin.
  rewrite E, exec_anchored in H. apply (rmatch_whole r Hend) in H.
  apply (lang_within letter_or_space r line Hin) in H. congruence.
Qed.

(** *** The start of a block *)

Lemma not_ENTITY_BLOCK_START (line : string) (c : ascii) :
  last_char line = Some c -> Js.is_space c = false ->
  Js.is_char "{" c = false ->
  exec ENTITY_BLOCK_START line = None.
Proof.
  intros Hlast Hc Hbrace.
  destruct (exec ENTITY_BLOCK_START line) as [m|] eqn:H; [|reflexivity].
  exfalso. anchored ENTITY_BLOCK_START H.
  apply rmatch_whole in H; [|reflexivity].
  apply lang_Seq_inv in H. destruct H as [x0 [y0 [E0 [_ H]]]].
  apply lang_Seq_inv in H. destruct H as [x1 [y1 [E1 [_ H]]]].
  apply lang_Seq_inv in H. destruct H as [x2 [y2 [E2 [_ H]]]].
  apply lang_Seq_inv in H. destruct H as [x3 [y3 [E3 [_ H]]]].
  apply lang_Seq_inv in H. destruct H as [x4 [y4 [E4 [Lbrace H]]]].
  apply lang_Seq_inv in H. destruct H as [sp [y5 [E5 [Lsp H]]]].
  apply lang_Lit in Lbrace. apply lang_Star_Chr in Lsp.
  apply lang_Eol_inv in H.
  subst. rewrite append_nil_r in Hlast.
  rewrite <- !append_assoc in Hlast.
  destruct sp as [|b sp].
  - rewrite append_nil_r in Hlast.
    rewrite last_char_append_nonempty in Hlast by discriminate.
    injection Hlast as <-. discriminate.
  - rewrite last_char_append_nonempty in Hlast by discriminate.
    rewrite (last_char_all _ _ _ Lsp Hlast) in Hc. discriminate.
Qed.

End Rejects.

(** ** The lines of a written diagram *)

Module LineFacts.
Import Re StringFacts TextFacts ReSound NameFacts PATTERNS Rejects.

Lemma trimEnd_fixed (s : string) (c : ascii) :
  last_char s = Some c -> Js.is_space c = false -> Js.trimEnd s = s.
Proof.
  intros Hl Hc. induction s as [|a s IH]; [reflexivity|].
  destruct s as [|b s].
  - simpl in *. injection Hl as ->. rewrite Hc. reflexivity.
  - change (last_char (String a (String b s))) with (last_char (String b s))
      in Hl.
    specialize (IH Hl).
    change (Js.trimEnd (String a (String b s)))
      with (match Js.trimEnd (String b s) with
            | EmptyString =>
                if Js.is_space a then EmptyString else String a EmptyString
            | t => String a t
            end).
    rewrite IH. reflexivity.
Qed.

Lemma trim_word_line (line : string) : word_line line -> Js.trim line = line.
Proof.
  intros [[a [rest [-> Ha]]] [[c [Hl Hc]] _]]. unfold Js.trim.
  assert (E : Js.trimStart (String a rest) = String a rest)
    by (simpl; rewrite (ident_start_no_space a Ha); reflexivity).
  rewrite E. apply (trimEnd_fixed _ c); assumption.
Qed.

Lemma last_char_cons (a : ascii) (s : string) :
  s <> "" -> last_char (String a s) = last_char s.
Proof. intros H. destruct s; [congruence|reflexivity]. Qed.

Lemma last_char_exists (s : string) :
  s <> "" -> exists c, last_char s = Some c.
Proof.
  induction s as [|a s IH]; [congruence|]. intros _.
  destruct s as [|b s]; [exists a; reflexivity|].
  destruct IH as [c Hc]; [discriminate|]. exists c. exact Hc.
Qed.

Lemma ident_char_no_space (c : ascii) :
  ident_char c = true -> Js.is_space c = false.
Proof. NormalFacts.by_cases_on_char c. Qed.

Lemma alpha_is_ident_start (a : ascii) :
  Js.is_alpha a = true -> ident_start a = true.
Proof. unfold ident_start. intros ->. reflexivity. Qed.

Lemma has_space_not_alpha (x y : string) :
  all_chars Js.is_alpha (x ++ String " " y) = false.
Proof. rewrite all_chars_append. simpl. apply andb_false_r. Qed.

(** *** The first line of a block *)

Lemma block_start_word_line (name : string) (alias : option string) :
  is_identifier name = true -> word_line (block_start_line name alias).
Proof.
  intros H. unfold block_start_line. split; [|split].
  - destruct name as [|a n]; [discriminate|]. simpl in H.
    apply andb_prop in H. eexists a, _. split; [reflexivity|apply H].
  - exists "{"%char. split; [|reflexivity].
    rewrite <- append_assoc.
    rewrite last_char_append_nonempty by discriminate. reflexivity.
  - rewrite <- append_assoc. apply has_space_not_alpha.
Qed.

Lemma block_start_not_direction (name : string) (alias : option string) :
  test DIRECTION (block_start_line name alias) = false.
Proof.
  apply not_DIRECTION. unfold block_start_line.
  rewrite <- append_assoc, all_chars_append. apply andb_false_r.
Qed.

(** *** The line of an attribute *)

Lemma last_char_keys (ks : list AttributeKey) (k : AttributeKey) :
  last_char (key_name k ++ keys_tail ks) = Some "K"%char.
Proof.
  revert k. induction ks as [|k' ks IH]; intros k.
  - destruct k; reflexivity.
  - cbn [keys_tail].
    rewrite last_char_append_nonempty by discriminate.
    change (", " ++ key_name k' ++ keys_tail ks)
      with (String "," (String " " (key_name k' ++ keys_tail ks))).
    rewrite !last_char_cons; [apply IH| |]; destruct k'; discriminate.
Qed.

Lemma attribute_line_last (a : Attribute) :
  writable_attribute a ->
  exists c, last_char (attribute_line a) = Some c /\ Js.is_space c = false.
Proof.
  destruct a as [name type ks comment]. intros [_ [Hn _]].
  cbn [attr_name] in Hn. unfold attribute_line.
  cbn [attr_name attr_type attr_keys attr_comment].
  assert (Hname : name <> "") by (destruct name; [discriminate|discriminate]).
  rewrite last_char_append_nonempty by discriminate.
  change (" " ++ name ++ keys_part ks ++ comment_part comment)
    with (String " " (name ++ keys_part ks ++ comment_part comment)).
  rewrite last_char_cons by (apply append_nonempty_l; assumption).
  destruct comment as [text|].
  - exists "034"%char. split; [|reflexivity].
    rewrite <- append_assoc. unfold comment_part.
    change (" " ++ Js.DQ ++ text ++ Js.DQ)
      with (String " " (String "034" (text ++ Js.DQ))).
    rewrite last_char_append_nonempty by discriminate.
    rewrite !last_char_cons;
      [|apply append_nonempty_r; discriminate|discriminate].
    rewrite last_char_append_nonempty by discriminate. reflexivity.
  - cbn [comment_part]. rewrite append_nil_r. destruct ks as [|k ks].
    + cbn [keys_part]. rewrite append_nil_r.
      destruct (last_char_exists name Hname) as [c Hc]. exists c.
      split; [assumption|]. apply ident_char_no_space.
      apply (last_char_all _ name); [apply identifier_chars|]; assumption.
    + exists "K"%char. split; [|reflexivity]. unfold keys_part.
      rewrite AttributeLine.keys_text_cons.
      rewrite last_char_append_nonempty by discriminate.
      change (" " ++ key_name k ++ keys_tail ks)
        with (String " " (key_name k ++ keys_tail ks)).
      rewrite last_char_cons by (destruct k; discriminate).
      apply last_char_keys.
Qed.

Lemma attribute_word_line (a : Attribute) :
  writable_attribute a -> word_line (attribute_line a).
Proof.
  intros H. split; [|split].
  - destruct a as [name type ks comment]. destruct H as [Ht _].
    cbn [attr_type] in Ht. destruct type as [|b t]; [discriminate|].
    simpl in Ht. apply andb_prop in Ht. destruct Ht as [Hb _].
    unfold attribute_line. cbn [attr_name attr_type attr_keys attr_comment].
    eexists b, _. split; [reflexivity|]. apply alpha_is_ident_start. assumption.
  - apply attribute_line_last. assumption.
  - unfold attribute_line. apply has_space_not_alpha.
Qed.

End LineFacts.

Module BlockStart.
Import Re StringFacts TextFacts ReSound Accepts AttributeLine NameFacts PATTERNS
       Rejects LineFacts.

Ltac eval_spaces :=
  repeat match goal with
         | |- context [Js.is_space (Ascii ?b0 ?b1 ?b2 ?b3 ?b4 ?b5 ?b6 ?b7)] =>
             let v := eval vm_compute in
                        (Js.is_space (Ascii b0 b1 b2 b3 b4 b5 b6 b7)) in
             change (Js.is_space (Ascii b0 b1 b2 b3 b4 b5 b6 b7)) with v
         end.

Ltac no_way :=
  intros ? ? ?;
  repeat (cbn; eval_spaces; rewrite ?Nat.leb_refl, ?ltb_succ);
  reflexivity.

Ltac then_seq w1 w2 := eapply (accepts_Seq _ _ w1 w2); [reflexivity| |].

(** The name of an entity, written as an identifier. *)
Lemma accepts_entity_name (a : ascii) (n rest : string) :
  ident_start a = true -> all_chars ident_char n = true ->
  stops ident_char rest = true ->
  accepts entity_name (String a n) rest (fun c => c).
Proof.
  intros Ha Hn Hrest. unfold entity_name. apply accepts_Alt_l.
  apply (accepts_Seq _ _ (String a "") n _ _ (fun c => c) (fun c => c));
    [reflexivity| |].
  - apply accepts_Chr. assumption.
  - apply accepts_Star_class; assumption.
Qed.

Lemma accepts_alias (alias : option string) :
  plain_alias alias ->
  accepts alias_part (alias_text alias) " {"
    (fun c =>
       match alias with
       | Some text => (2, "[" ++ text ++ "]") :: (3, text) :: c
       | None => c
       end).
Proof.
  unfold alias_part. destruct alias as [text|]; intros H.
  - destruct H as [Hne [_ [Hb _]]]. destruct text as [|b t]; [congruence|].
    simpl in Hb. apply andb_prop in Hb. destruct Hb as [Hb Ht].
    apply accepts_Alt_l.
    apply (accepts_Grp 2 _ ("[" ++ String b t ++ "]") " {"
             (fun c => (3, String b t) :: c)).
    cbn [Cat].
    apply (accepts_Seq _ _ "" ("[" ++ String b t ++ "]") _ _
             (fun c => c) (fun c => (3, String b t) :: c)); [reflexivity| |].
    { apply accepts_Star_class; reflexivity. }
    apply (accepts_Seq _ _ "[" (String b t ++ "]") _ _
             (fun c => c) (fun c => (3, String b t) :: c)); [reflexivity| |].
    { apply accepts_Lit. discriminate. }
    apply (accepts_Seq _ _ (String b t) "]" _ _
             (fun c => (3, String b t) :: c) (fun c => c)); [reflexivity| |].
    { apply accepts_Grp. apply accepts_Plus_class; try assumption.
      reflexivity. }
    apply accepts_Lit. discriminate.
  - apply accepts_Alt_r; [no_way|apply accepts_Eps].
Qed.

Lemma block_start_exec (name : string) (alias : option string) :
  is_identifier name = true -> plain_alias alias ->
  exec ENTITY_BLOCK_START (block_start_line name alias)
  = Some (block_captures name alias).
Proof.
  intros H Halias. destruct name as [|a n]; [discriminate|]. simpl in H.
  apply andb_prop in H. destruct H as [Ha Hn].
  unfold ENTITY_BLOCK_START. cbn [Cat]. rewrite exec_anchored.
  unfold block_start_line.
  rewrite <- (append_nil_r (String a n ++ alias_text alias ++ " {")).
  match goal with
  | |- rmatch ?r 0 _ _ _ = _ =>
      assert (Hacc : accepts r (String a n ++ alias_text alias ++ " {") ""
                       (fun c =>
                          match alias with
                          | Some text =>
                              (2, "[" ++ text ++ "]") :: (3, text)
                              :: (1, String a n) :: c
                          | None => (1, String a n) :: c
                          end))
  end.
  { apply (accepts_Seq _ _ "" (String a n ++ alias_text alias ++ " {") _ _
             (fun c => c)
             (fun c =>
                match alias with
                | Some text =>
                    (2, "[" ++ text ++ "]") :: (3, text)
                    :: (1, String a n) :: c
                | None => (1, String a n) :: c
                end)); [reflexivity| |].
    { apply accepts_Star_class; [reflexivity|].
      simpl. rewrite (ident_start_no_space a Ha). reflexivity. }
    apply (accepts_Seq _ _ (String a n) (alias_text alias ++ " {") _ _
             (fun c => (1, String a n) :: c)
             (fun c =>
                match alias with
                | Some text => (2, "[" ++ text ++ "]") :: (3, text) :: c
                | None => c
                end)); [reflexivity| |].
    { apply accepts_Grp. apply accepts_entity_name; try assumption.
      destruct alias; reflexivity. }
    apply (accepts_Seq _ _ (alias_text alias) " {" _ _
             (fun c =>
                match alias with
                | Some text => (2, "[" ++ text ++ "]") :: (3, text) :: c
                | None => c
                end)
             (fun c => c)); [reflexivity| |].
    { apply accepts_alias. assumption. }
    apply (accepts_Seq _ _ " " "{" _ _ (fun c => c) (fun c => c));
      [reflexivity| |].
    { apply accepts_Star_class; reflexivity. }
    apply (accepts_Seq _ _ "{" "" _ _ (fun c => c) (fun c => c));
      [reflexivity| |].
    { apply accepts_Lit. discriminate. }
    apply (accepts_Seq _ _ "" "" _ _ (fun c => c) (fun c => c));
      [reflexivity| |].
    { apply accepts_Star_class; reflexivity. }
    apply accepts_Eol. }
  rewrite (Hacc 0 [] _ (block_captures (String a n) alias));
    [reflexivity|].
  destruct alias; reflexivity.
Qed.

End BlockStart.

Module RelationshipLine.
Import Re StringFacts TextFacts ReSound Accepts AttributeLine NameFacts PATTERNS
       Rejects LineFacts BlockStart.

Ltac take w1 := eapply (accepts_Seq _ _ w1); [reflexivity| |].

Ltac any_lit :=
  first [ apply accepts_Alt_r; [no_way|any_lit]
        | apply accepts_Alt_l; apply accepts_Lit; discriminate
        | apply accepts_Lit; discriminate ].

(** The captures of the relationship pattern on the line of a relationship. *)
Lemma relationship_exec (r : Relationship) :
  is_identifier (firstEntity r) = true ->
  is_identifier (secondEntity r) = true ->
  proper_relationship r ->
  label r <> "" -> quote_free (label r) = true ->
  exec RELATIONSHIP (relationship_line r)
  = Some [ (6, label r); (5, secondEntity r);
           (4, right_token (secondCardinality r));
           (3, connector (identifying r));
           (2, left_token (firstCardinality r)); (1, firstEntity r) ].
Proof.
  destruct r as [n1 n2 v1 v2 idf lbl].
  cbn [firstEntity secondEntity firstCardinality secondCardinality
       identifying label].
  intros H1 H2 [[c1 Hc1] [c2 Hc2]] Hne Hq.
  cbn [firstCardinality secondCardinality] in Hc1, Hc2. subst v1 v2.
  destruct n1 as [|a1 n1]; [discriminate|].
  destruct n2 as [|a2 n2]; [discriminate|].
  destruct lbl as [|b l]; [congruence|].
  simpl in H1, H2, Hq.
  apply andb_prop in H1. destruct H1 as [Ha1 Hn1].
  apply andb_prop in H2. destruct H2 as [Ha2 Hn2].
  apply andb_prop in Hq. destruct Hq as [Hb Hl].
  unfold RELATIONSHIP. cbn [Cat]. rewrite exec_anchored.
  unfold relationship_line.
  cbn [firstEntity secondEntity firstCardinality secondCardinality
       identifying label].
  match goal with
  | |- rmatch ?r 0 ?line _ _ = Some ?caps =>
      assert (Hacc : exists F, accepts r line "" F /\ F [] = caps)
  end.
  { eexists. split.
    { take "".
      { apply accepts_Star_class; [reflexivity|].
        simpl. rewrite (ident_start_no_space a1 Ha1). reflexivity. }
      take (String a1 n1).
      { apply accepts_Grp. apply accepts_entity_name; try assumption.
        reflexivity. }
      take " ".
      { apply accepts_Star_class; [reflexivity|]. destruct c1; reflexivity. }
      take (left_token (Card c1)).
      { apply accepts_Grp. destruct c1; cbn [left_token Any]; any_lit. }
      take (connector idf).
      { apply accepts_Grp. destruct idf; cbn [connector Any]; any_lit. }
      take (right_token (Card c2)).
      { apply accepts_Grp. destruct c2; cbn [right_token Any]; any_lit. }
      take " ".
      { apply accepts_Star_class; [reflexivity|].
        simpl. rewrite (ident_start_no_space a2 Ha2). reflexivity. }
      take (String a2 n2).
      { apply accepts_Grp. apply accepts_entity_name; try assumption.
        reflexivity. }
      take " ".
      { apply accepts_Star_class; reflexivity. }
      take ":".
      { apply accepts_Lit. discriminate. }
      take " ".
      { apply accepts_Star_class; reflexivity. }
      take Js.DQ.
      { apply accepts_Alt_l. apply accepts_Lit. discriminate. }
      take (String b l).
      { apply accepts_Grp. apply accepts_Plus_class; try assumption.
        reflexivity. }
      eapply (accepts_Seq _ _ Js.DQ "");
        [reflexivity| |].
      { apply accepts_Alt_l. apply accepts_Lit. discriminate. }
      eapply (accepts_Seq _ _ "" ""); [reflexivity| |].
      { apply accepts_Star_class; reflexivity. }
      apply accepts_Eol. }
    reflexivity. }
  destruct Hacc as [F [Hacc HF]].
  match goal with
  | |- rmatch ?r 0 ?line _ _ = _ =>
      rewrite <- (append_nil_r line)
  end.
  apply Hacc. rewrite HF. reflexivity.
Qed.

End RelationshipLine.

(** ** The loop on the lines of a written diagram *)

Module Steps.
Import Re StringFacts TextFacts ReSound NameFacts PATTERNS Rejects LineFacts.

Lemma cleanEntityName_quote_free (text : string) :
  quote_free text = true -> cleanEntityName text = text.
Proof.
  intros H. unfold cleanEntityName.
  rewrite (remove_ends_same (not_char quote) Js.DQ text H eq_refl).
  apply (remove_ends_same (not_char quote) (Js.BS ++ Js.DQ) text H eq_refl).
Qed.

Lemma clean_plain_alias (name : string) (alias : option string) :
  plain_alias alias ->
  clean_alias (cap 3 (block_captures name alias)) = alias.
Proof.
  destruct alias as [text|]; [|reflexivity].
  intros [Hne [Hq _]]. unfold block_captures. cbn [cap Nat.eqb].
  destruct text as [|b t]; [congruence|]. cbn [clean_alias].
  rewrite (cleanEntityName_quote_free _ Hq). reflexivity.
Qed.

Lemma step_block_start (st : ParserState) (name : string)
      (alias : option string) :
  inERDiagram st = true -> inEntityBlock st = false ->
  is_identifier name = true -> plain_alias alias ->
  step st (block_start_line name alias)
  = mkState (entities st) (relationships st) (errors st) true
      (Some (mkEntity name alias [])) true (S (lineNumber st)).
Proof.
  intros Hin Hblock Hname Halias.
  pose proof (block_start_word_line name alias Hname) as Hw.
  unfold step. rewrite (trim_word_line _ Hw).
  rewrite (not_EMPTY _ Hw), (not_COMMENT _ Hw), (not_ER_DIAGRAM_START _ Hw),
    Hin, block_start_not_direction, (not_ENTITY_BLOCK_END _ Hw), Hblock.
  cbn [orb negb].
  rewrite (BlockStart.block_start_exec name alias Hname Halias).
  rewrite (clean_plain_alias name alias Halias).
  assert (E : group 1 (block_captures name alias) = name)
    by (destruct alias; reflexivity).
  rewrite E, (cleanEntityName_identifier name Hname). reflexivity.
Qed.

Lemma step_attribute (st : ParserState) (cur : Entity) (a : Attribute) :
  inERDiagram st = true -> inEntityBlock st = true ->
  currentEntity st = Some cur ->
  plain_attribute a ->
  step st (attribute_line a)
  = mkState (entities st) (relationships st) (errors st) true
      (Some (mkEntity (ent_name cur) (ent_alias cur)
               (ent_attributes cur ++ [a])%list))
      true (S (lineNumber st)).
Proof.
  intros Hin Hblock Hcur [Ha [_ Hdir]].
  pose proof (attribute_word_line a Ha) as Hw.
  unfold step. rewrite (trim_word_line _ Hw).
  rewrite (not_EMPTY _ Hw), (not_COMMENT _ Hw), (not_ER_DIAGRAM_START _ Hw),
    Hin, Hdir, (not_ENTITY_BLOCK_END _ Hw), Hblock, Hcur.
  cbn [orb negb].
  rewrite (AttributeRoundTrip.attribute_line_exec a Ha).
  rewrite (AttributeRoundTrip.attribute_of_captures a Ha). reflexivity.
Qed.

Lemma closing_brace :
  Js.trim "}" = "}"
  /\ test EMPTY "}" = false /\ test COMMENT "}" = false
  /\ test ER_DIAGRAM_START "}" = false /\ test DIRECTION "}" = false
  /\ test ENTITY_BLOCK_END "}" = true.
Proof. repeat split. Qed.

Lemma step_block_end (st : ParserState) (cur : Entity) :
  inERDiagram st = true -> currentEntity st = Some cur ->
  step st "}"
  = mkState (EntityMap.set (ent_name cur) cur (entities st))
      (relationships st) (errors st) true None false (S (lineNumber st)).
Proof.
  intros Hin Hcur.
  destruct closing_brace as [E0 [E1 [E2 [E3 [E4 E5]]]]].
  unfold step. rewrite E0, E1, E2, E3, E4, E5, Hin, Hcur. reflexivity.
Qed.

(** *** The line of a relationship *)

Lemma relationship_word_line (r : Relationship) :
  is_identifier (firstEntity r) = true -> word_line (relationship_line r).
Proof.
  intros H. unfold relationship_line. split; [|split].
  - destruct (firstEntity r) as [|a n]; [discriminate|]. simpl in H.
    apply andb_prop in H. eexists a, _. split; [reflexivity|apply H].
  - exists "034"%char. split; [|reflexivity].
    rewrite <- !append_assoc.
    rewrite last_char_append_nonempty by discriminate. reflexivity.
  - apply has_space_not_alpha.
Qed.

Lemma relationship_not_direction (r : Relationship) :
  proper_relationship r -> test DIRECTION (relationship_line r) = false.
Proof.
  intros [[c1 Hc1] _]. apply not_DIRECTION. unfold relationship_line.
  rewrite Hc1, all_chars_append. apply andb_false_intro2.
  destruct c1; reflexivity.
Qed.

Lemma relationship_not_block_start (r : Relationship) :
  exec ENTITY_BLOCK_START (relationship_line r) = None.
Proof.
  apply (not_ENTITY_BLOCK_START _ "034"); [|reflexivity|reflexivity].
  unfold relationship_line. rewrite <- !append_assoc.
  rewrite last_char_append_nonempty by discriminate. reflexivity.
Qed.

Lemma parseCardinality_left (c : Cardinality) :
  parseCardinality (left_token (Card c)) = Card c.
Proof. destruct c; reflexivity. Qed.

Lemma parseCardinality_right (c : Cardinality) :
  parseCardinality (right_token (Card c)) = Card c.
Proof. destruct c; reflexivity. Qed.

Lemma ensure_present (k : string) (e : Entity) (m : EntityMap.t) :
  In k (EntityMap.keys m) -> ensure k e m = m.
Proof.
  intros H. unfold ensure. apply EntityMapFacts.has_In in H. rewrite H.
  reflexivity.
Qed.

Lemma step_relationship_any (st : ParserState) (r : Relationship) :
  inERDiagram st = true -> inEntityBlock st = false ->
  is_identifier (firstEntity r) = true ->
  is_identifier (secondEntity r) = true ->
  proper_relationship r -> plain_label (label r) ->
  step st (relationship_line r)
  = mkState
      (ensure (secondEntity r) (mkEntity (secondEntity r) None [])
         (ensure (firstEntity r) (mkEntity (firstEntity r) None [])
            (entities st)))
      (relationships st ++ [r])%list (errors st) true
      (currentEntity st) false (S (lineNumber st)).
Proof.
  intros Hin Hblock H1 H2 Hproper [Hne [Hq [_ Htrim]]].
  pose proof (relationship_word_line r H1) as Hw.
  unfold step. rewrite (trim_word_line _ Hw).
  rewrite (not_EMPTY _ Hw), (not_COMMENT _ Hw), (not_ER_DIAGRAM_START _ Hw),
    Hin, (relationship_not_direction r Hproper), (not_ENTITY_BLOCK_END _ Hw),
    Hblock.
  cbn [orb negb].
  rewrite (relationship_not_block_start r).
  rewrite (RelationshipLine.relationship_exec r H1 H2 Hproper Hne Hq).
  assert (E : relationship_of_match
                [ (6, label r); (5, secondEntity r);
                  (4, right_token (secondCardinality r));
                  (3, connector (identifying r));
                  (2, left_token (firstCardinality r)); (1, firstEntity r) ]
              = r).
  { unfold relationship_of_match, group. cbn [cap Nat.eqb].
    destruct Hproper as [[c1 Hc1] [c2 Hc2]].
    destruct r as [n1 n2 v1 v2 idf lbl].
    cbn [firstEntity secondEntity firstCardinality secondCardinality
         identifying label] in *.
    subst v1 v2.
    rewrite (cleanEntityName_identifier n1 H1),
      (cleanEntityName_identifier n2 H2),
      parseCardinality_left, parseCardinality_right, Htrim.
    rewrite (remove_ends_same (not_char quote) Js.DQ lbl Hq eq_refl).
    destruct idf; reflexivity. }
  rewrite E. reflexivity.
Qed.

Lemma step_relationship (st : ParserState) (r : Relationship) :
  inERDiagram st = true -> inEntityBlock st = false ->
  is_identifier (firstEntity r) = true ->
  is_identifier (secondEntity r) = true ->
  plain_relationship (EntityMap.keys (entities st)) r ->
  step st (relationship_line r)
  = mkState (entities st) (relationships st ++ [r])%list (errors st) true
      (currentEntity st) false (S (lineNumber st)).
Proof.
  intros Hin Hblock H1 H2 [Hk1 [Hk2 [Hproper Hlabel]]].
  rewrite (step_relationship_any st r Hin Hblock H1 H2 Hproper Hlabel).
  rewrite (ensure_present _ _ _ Hk1), (ensure_present _ _ _ Hk2).
  reflexivity.
Qed.

(** *** Reading the table *)

Lemma get_set_same (k : string) (v : Entity) (m : EntityMap.t) :
  EntityMap.get k (EntityMap.set k v m) = Some v.
Proof.
  induction m as [|[k0 v0] m IH]; simpl.
  - rewrite String.eqb_refl. reflexivity.
  - destruct (String.eqb k0 k) eqn:E; simpl.
    + rewrite String.eqb_refl. reflexivity.
    + rewrite E. exact IH.
Qed.

Lemma get_set_other (k k' : string) (v : Entity) (m : EntityMap.t) :
  k' <> k -> EntityMap.get k' (EntityMap.set k v m) = EntityMap.get k' m.
Proof.
  intros Hne. induction m as [|[k0 v0] m IH]; simpl.
  - destruct (String.eqb k k') eqn:E; [|reflexivity].
    apply String.eqb_eq in E. congruence.
  - destruct (String.eqb k0 k) eqn:E; simpl.
    + apply String.eqb_eq in E. subst k0.
      destruct (String.eqb k k') eqn:E'; [|reflexivity].
      apply String.eqb_eq in E'. congruence.
    + rewrite IH. reflexivity.
Qed.

Lemma get_has (k : string) (e : Entity) (m : EntityMap.t) :
  EntityMap.get k m = Some e -> EntityMap.has k m = true.
Proof.
  induction m as [|[k0 v0] m IH]; simpl; [discriminate|].
  destruct (String.eqb k0 k); [reflexivity|]. exact IH.
Qed.

Lemma get_ensure (k k' : string) (e v : Entity) (m : EntityMap.t) :
  EntityMap.get k m = Some e -> EntityMap.get k (ensure k' v m) = Some e.
Proof.
  intros H. unfold ensure. destruct (EntityMap.has k' m) eqn:E; [exact H|].
  rewrite get_set_other; [exact H|].
  intros ->. apply get_has in H. congruence.
Qed.

End Steps.

Module RoundTrip.
Import Re StringFacts TextFacts ReSound NameFacts PATTERNS Rejects LineFacts
       Steps.

Lemma run_cons (st : ParserState) (l : string) (ls : list string) :
  run st (l :: ls) = run (step st l) ls.
Proof. reflexivity. Qed.

Lemma run_append (st : ParserState) (xs ys : list string) :
  run st (xs ++ ys) = run (run st xs) ys.
Proof. unfold run. apply fold_left_app. Qed.

Lemma run_attributes (attrs : list Attribute) :
  forall st cur,
    inERDiagram st = true -> inEntityBlock st = true ->
    currentEntity st = Some cur ->
    Forall plain_attribute attrs ->
    exists n,
      run st (map attribute_line attrs)
      = mkState (entities st) (relationships st) (errors st) true
          (Some (mkEntity (ent_name cur) (ent_alias cur)
                   (ent_attributes cur ++ attrs)%list))
          true n.
Proof.
  induction attrs as [|a attrs IH]; intros st cur Hin Hblock Hcur Hall.
  - exists (lineNumber st). destruct st, cur. simpl in *. subst.
    rewrite app_nil_r. reflexivity.
  - inversion Hall as [|? ? Ha Hrest]; subst.
    cbn [map]. rewrite run_cons.
    rewrite (step_attribute st cur a Hin Hblock Hcur Ha).
    edestruct (IH (mkState (entities st) (relationships st) (errors st) true
                     (Some (mkEntity (ent_name cur) (ent_alias cur)
                              (ent_attributes cur ++ [a])%list))
                     true (S (lineNumber st)))) as [n Hn];
      [reflexivity|reflexivity|reflexivity|exact Hrest|].
    cbn [entities relationships errors ent_name ent_alias ent_attributes]
      in Hn.
    exists n. rewrite Hn, <- app_assoc. reflexivity.
Qed.

Lemma run_entity (st : ParserState) (e : Entity) :
  inERDiagram st = true -> inEntityBlock st = false ->
  plain_entity e ->
  exists n,
    run st (entity_lines e)
    = mkState (EntityMap.set (ent_name e) e (entities st)) (relationships st)
        (errors st) true None false n.
Proof.
  intros Hin Hblock [Hname [Halias Hattrs]]. unfold entity_lines.
  rewrite run_cons, (step_block_start st _ _ Hin Hblock Hname Halias),
    run_append.
  edestruct (run_attributes (ent_attributes e)
               (mkState (entities st) (relationships st) (errors st) true
                  (Some (mkEntity (ent_name e) (ent_alias e) [])) true
                  (S (lineNumber st)))) as [n Hn];
    [reflexivity|reflexivity|reflexivity|exact Hattrs|].
  cbn [entities relationships errors ent_name ent_alias ent_attributes app]
    in Hn.
  rewrite Hn, run_cons.
  erewrite step_block_end; [|reflexivity|reflexivity].
  cbn [entities relationships errors lineNumber ent_name run fold_left].
  exists (S n). destruct e as [name alias attrs]. reflexivity.
Qed.

Lemma run_entities (es : list Entity) :
  forall st,
    inERDiagram st = true -> inEntityBlock st = false ->
    currentEntity st = None ->
    Forall plain_entity es ->
    exists n,
      run st (flat_map entity_lines es)
      = mkState
          (fold_left (fun m e => EntityMap.set (ent_name e) e m) es (entities st))
          (relationships st) (errors st) true None false n.
Proof.
  induction es as [|e es IH]; intros st Hin Hblock Hcur Hall.
  - exists (lineNumber st). destruct st. simpl in *. subst. reflexivity.
  - inversion Hall as [|? ? He Hrest]; subst.
    cbn [flat_map]. rewrite run_append.
    destruct (run_entity st e Hin Hblock He) as [n Hn]. rewrite Hn.
    edestruct (IH (mkState (EntityMap.set (ent_name e) e (entities st))
                     (relationships st) (errors st) true None false n))
      as [n' Hn']; [reflexivity|reflexivity|reflexivity|exact Hrest|].
    cbn [entities relationships errors] in Hn'.
    exists n'. rewrite Hn'. reflexivity.
Qed.

Lemma run_relationships (rs : list Relationship) :
  forall st,
    inERDiagram st = true -> inEntityBlock st = false ->
    Forall (fun k => is_identifier k = true) (EntityMap.keys (entities st)) ->
    Forall (plain_relationship (EntityMap.keys (entities st))) rs ->
    exists n,
      run st (map relationship_line rs)
      = mkState (entities st) (relationships st ++ rs)%list (errors st) true
          (currentEntity st) false n.
Proof.
  induction rs as [|r rs IH]; intros st Hin Hblock Hkeys Hall.
  - exists (lineNumber st). destruct st. simpl in *. subst.
    rewrite app_nil_r. reflexivity.
  - inversion Hall as [|? ? Hr Hrest]; subst.
    assert (H1 : is_identifier (firstEntity r) = true)
      by (apply (proj1 (Forall_forall _ _) Hkeys); apply Hr).
    assert (H2 : is_identifier (secondEntity r) = true)
      by (apply (proj1 (Forall_forall _ _) Hkeys); apply Hr).
    cbn [map]. rewrite run_cons.
    rewrite (step_relationship st r Hin Hblock H1 H2 Hr).
    edestruct (IH (mkState (entities st) (relationships st ++ [r])%list
                     (errors st) true (currentEntity st) false
                     (S (lineNumber st)))) as [n Hn];
      [reflexivity|reflexivity|exact Hkeys|exact Hrest|].
    cbn [entities relationships errors currentEntity] in Hn.
    exists n. rewrite Hn, <- app_assoc. reflexivity.
Qed.

(** *** The table of distinct names *)

Lemma set_fresh (k : string) (v : Entity) (m : EntityMap.t) :
  ~ In k (EntityMap.keys m) -> EntityMap.set k v m = (m ++ [(k, v)])%list.
Proof.
  induction m as [|[k0 v0] m IH]; intros H; [reflexivity|].
  simpl in *. destruct (String.eqb k0 k) eqn:E.
  - apply String.eqb_eq in E. exfalso. apply H. left. assumption.
  - rewrite IH; [reflexivity|]. intros Hin. apply H. right. assumption.
Qed.

Lemma fold_set_fresh (es : list Entity) :
  forall m,
    NoDup (EntityMap.keys m ++ map ent_name es) ->
    fold_left (fun m e => EntityMap.set (ent_name e) e m) es m
    = (m ++ map (fun e => (ent_name e, e)) es)%list.
Proof.
  induction es as [|e es IH]; intros m Hnd.
  - simpl. rewrite app_nil_r. reflexivity.
  - cbn [fold_left map]. cbn [map] in Hnd.
    pose proof (NoDup_remove_2 _ _ _ Hnd) as Hfresh.
    rewrite set_fresh by (intros Hin; apply Hfresh, in_or_app; left; exact Hin).
    rewrite IH.
    + rewrite <- app_assoc. reflexivity.
    + unfold EntityMap.keys in *. rewrite map_app. cbn [map fst].
      rewrite <- app_assoc. exact Hnd.
Qed.

(** *** The lines of the text *)

Lemma split_whole (sep : ascii) (w : string) :
  all_chars (fun c => negb (Ascii.eqb c sep)) w = true ->
  Js.split sep w = [w].
Proof.
  induction w as [|a w IH]; intros H; [reflexivity|].
  simpl in *. apply andb_prop in H. destruct H as [Ha Hw].
  apply negb_true_iff in Ha. rewrite Ha, (IH Hw). reflexivity.
Qed.

Lemma split_join (lines : list string) :
  lines <> [] ->
  Forall (fun l => no_line_feed l = true) lines ->
  Js.split Js.LF (Js.join Js.NL lines) = lines.
Proof.
  intros Hne Hall. induction Hall as [|l lines Hl Hall IH]; [congruence|].
  destruct lines as [|l' lines].
  - simpl. apply split_whole. exact Hl.
  - change (Js.join Js.NL (l :: l' :: lines))
      with (l ++ String Js.LF (Js.join Js.NL (l' :: lines))).
    rewrite (AttributeRoundTrip.split_at_separator Js.LF l _ Hl).
    rewrite IH by discriminate. reflexivity.
Qed.

Lemma ident_char_no_line_feed (c : ascii) :
  ident_char c = true -> negb (Ascii.eqb c Js.LF) = true.
Proof. NormalFacts.by_cases_on_char c. Qed.

Lemma type_char_no_line_feed (c : ascii) :
  type_char c = true -> negb (Ascii.eqb c Js.LF) = true.
Proof. NormalFacts.by_cases_on_char c. Qed.

Lemma identifier_no_line_feed (name : string) :
  is_identifier name = true -> no_line_feed name = true.
Proof.
  intros H. apply (all_chars_weaken ident_char); [|apply identifier_chars, H].
  apply ident_char_no_line_feed.
Qed.

Lemma type_no_line_feed (type : string) :
  is_type_token type = true -> no_line_feed type = true.
Proof.
  destruct type as [|a t]; [discriminate|]. simpl. intros H.
  apply andb_prop in H. destruct H as [Ha Ht]. unfold no_line_feed. simpl.
  rewrite (all_chars_weaken type_char _ t type_char_no_line_feed Ht).
  rewrite andb_true_r. apply type_char_no_line_feed.
  unfold type_char, ident_char. rewrite Ha. reflexivity.
Qed.

Lemma keys_tail_no_line_feed (ks : list AttributeKey) :
  no_line_feed (keys_tail ks) = true.
Proof.
  induction ks as [|k ks IH]; [reflexivity|].
  unfold no_line_feed in *. cbn [keys_tail].
  rewrite !all_chars_append, IH. destruct k; reflexivity.
Qed.

Lemma block_start_no_line_feed (name : string) (alias : option string) :
  is_identifier name = true -> plain_alias alias ->
  no_line_feed (block_start_line name alias) = true.
Proof.
  intros H Halias. unfold block_start_line, no_line_feed.
  rewrite !all_chars_append.
  pose proof (identifier_no_line_feed name H) as Hn. unfold no_line_feed in Hn.
  rewrite Hn. destruct alias as [text|]; [|reflexivity].
  destruct Halias as [_ [_ [_ Hlf]]]. unfold no_line_feed in Hlf.
  unfold alias_text. rewrite !all_chars_append, Hlf. reflexivity.
Qed.

Lemma attribute_no_line_feed (a : Attribute) :
  plain_attribute a -> no_line_feed (attribute_line a) = true.
Proof.
  destruct a as [name type ks comment]. intros [[Ht [Hn Hq]] [Hlf _]].
  cbn [attr_name attr_type attr_comment] in *.
  unfold attribute_line, no_line_feed.
  cbn [attr_name attr_type attr_keys attr_comment].
  pose proof (type_no_line_feed type Ht) as H1.
  pose proof (identifier_no_line_feed name Hn) as H2.
  unfold no_line_feed in *.
  rewrite !all_chars_append, H1, H2. cbn [all_chars andb].
  assert (Hk : all_chars (fun c => negb (Ascii.eqb c Js.LF)) (keys_part ks)
               = true).
  { destruct ks as [|k ks]; [reflexivity|]. unfold keys_part.
    pose proof (keys_tail_no_line_feed ks) as Hkt. unfold no_line_feed in Hkt.
    rewrite AttributeLine.keys_text_cons, !all_chars_append, Hkt.
    destruct k; reflexivity. }
  rewrite Hk. destruct comment as [text|]; [|reflexivity].
  unfold comment_part. rewrite !all_chars_append, Hlf. reflexivity.
Qed.

Lemma entity_no_line_feed (e : Entity) :
  plain_entity e ->
  Forall (fun l => no_line_feed l = true) (entity_lines e).
Proof.
  intros [Hname [Halias Hattrs]]. unfold entity_lines. constructor.
  - apply block_start_no_line_feed; assumption.
  - apply Forall_app. split.
    + apply Forall_map. eapply Forall_impl; [|exact Hattrs].
      intros a Ha. apply attribute_no_line_feed. assumption.
    + constructor; [reflexivity|constructor].
Qed.

Lemma relationship_no_line_feed (names : list string) (r : Relationship) :
  Forall (fun k => is_identifier k = true) names ->
  plain_relationship names r ->
  no_line_feed (relationship_line r) = true.
Proof.
  intros Hnames [H1 [H2 [[[c1 Hc1] [c2 Hc2]] [_ [_ [Hlf _]]]]]].
  pose proof (identifier_no_line_feed _
                (proj1 (Forall_forall _ _) Hnames _ H1)) as Hn1.
  pose proof (identifier_no_line_feed _
                (proj1 (Forall_forall _ _) Hnames _ H2)) as Hn2.
  unfold relationship_line, no_line_feed in *.
  rewrite Hc1, Hc2, !all_chars_append, Hn1, Hn2, Hlf.
  destruct c1, c2, (identifying r); reflexivity.
Qed.

End RoundTrip.

Module WrittenDiagram.
Import RoundTrip.

Lemma keys_of_entities (es : list Entity) :
  EntityMap.keys (map (fun e => (ent_name e, e)) es) = map ent_name es.
Proof. unfold EntityMap.keys. rewrite map_map. reflexivity. Qed.

Lemma values_of_entities (es : list Entity) :
  EntityMap.values (map (fun e => (ent_name e, e)) es) = es.
Proof. unfold EntityMap.values. rewrite map_map. apply map_id. Qed.

Lemma names_are_identifiers (es : list Entity) :
  Forall plain_entity es ->
  Forall (fun k => is_identifier k = true) (map ent_name es).
Proof.
  intros H. apply Forall_map. eapply Forall_impl; [|exact H].
  intros e He. apply He.
Qed.

Lemma diagram_no_line_feed (s : DatabaseSchema) :
  plain_schema s ->
  Forall (fun l => no_line_feed l = true) (diagram_lines s).
Proof.
  intros [_ [Hes Hrs]]. unfold diagram_lines. constructor; [reflexivity|].
  apply Forall_app. split.
  - apply Forall_flat_map. eapply Forall_impl; [|exact Hes].
    intros e He. apply entity_no_line_feed. assumption.
  - apply Forall_map. eapply Forall_impl; [|exact Hrs].
    intros r Hr.
    apply (relationship_no_line_feed (map ent_name (schema_entities s)));
      [apply names_are_identifiers|]; assumption.
Qed.

Lemma header_step :
  step initial "erDiagram" = mkState [] [] [] true None false 1.
Proof. reflexivity. Qed.

Lemma written_lines_run (s : DatabaseSchema) :
  plain_schema s ->
  exists n,
    run initial (diagram_lines s)
    = mkState (map (fun e => (ent_name e, e)) (schema_entities s))
        (schema_relationships s) [] true None false n.
Proof.
  intros [Hnd [Hes Hrs]]. unfold diagram_lines.
  rewrite run_cons, header_step, run_append.
  edestruct (run_entities (schema_entities s)
               (mkState [] [] [] true None false 1)) as [n Hn];
    [reflexivity|reflexivity|reflexivity|exact Hes|].
  cbn [entities relationships errors] in Hn.
  rewrite (fold_set_fresh (schema_entities s) []) in Hn by exact Hnd.
  cbn [app] in Hn. rewrite Hn.
  edestruct (run_relationships (schema_relationships s)
               (mkState (map (fun e => (ent_name e, e)) (schema_entities s))
                  [] [] true None false n)) as [n' Hn'];
    [reflexivity|reflexivity| | |].
  - cbn [entities]. rewrite keys_of_entities.
    apply names_are_identifiers. assumption.
  - cbn [entities]. rewrite keys_of_entities. assumption.
  - cbn [entities relationships errors currentEntity app] in Hn'.
    exists n'. exact Hn'.
Qed.

Lemma written_result (s : DatabaseSchema) :
  plain_schema s ->
  parseERDiagram (write_diagram s) = mkParseResult true (Some s) None.
Proof.
  intros H. unfold parseERDiagram, write_diagram.
  rewrite split_join;
    [|unfold diagram_lines; discriminate|apply diagram_no_line_feed; exact H].
  unfold parseLines. destruct (written_lines_run s H) as [n Hn]. rewrite Hn.
  unfold result_of, close.
  cbn [entities relationships errors currentEntity List.length Nat.eqb Nat.ltb
       Nat.leb].
  rewrite values_of_entities. destruct s. reflexivity.
Qed.

Lemma includes_prefix (p s : string) :
  String.prefix p s = true -> Js.includes p s = true.
Proof.
  intros H. destruct s as [|a s]; unfold Js.includes; fold Js.includes;
    rewrite H; reflexivity.
Qed.

Lemma written_header (s : DatabaseSchema) :
  header_errors (write_diagram s) = [].
Proof.
  unfold header_errors, write_diagram, diagram_lines.
  set (rest := (flat_map entity_lines (schema_entities s)
                ++ map relationship_line (schema_relationships s))%list).
  assert (E : exists tail,
            Js.toLowerCase (Js.join Js.NL ("erDiagram" :: rest))
            = "erdiagram" ++ tail).
  { destruct rest as [|l rest]; [exists ""; reflexivity|].
    eexists. change (Js.join Js.NL ("erDiagram" :: l :: rest))
      with ("erDiagram" ++ Js.NL ++ Js.join Js.NL (l :: rest)).
    reflexivity. }
  destruct E as [tail E]. rewrite E.
  rewrite (includes_prefix _ _ (TextFacts.prefix_append "erdiagram" tail)).
  reflexivity.
Qed.

End WrittenDiagram.

(** X18.  Inside an open block, the line of a writable attribute that does
    not read as a direction statement adds that attribute at the end of the
    open entity and changes nothing else: no entity is stored, no error is
    recorded, the block stays open. *)
Theorem attribute_line_extends_the_block
        (st : ParserState) (cur : Entity) (a : Attribute) :
  inERDiagram st = true -> inEntityBlock st = true ->
  currentEntity st = Some cur ->
  plain_attribute a ->
  step st (attribute_line a)
  = mkState (entities st) (relationships st) (errors st) true
      (Some (mkEntity (ent_name cur) (ent_alias cur)
               (ent_attributes cur ++ [a])%list))
      true (S (lineNumber st)).
Proof.
  intros Hin Hblock Hcur [Ha [_ Hdir]].
  pose proof (LineFacts.attribute_word_line a Ha) as Hw.
  unfold step. rewrite (LineFacts.trim_word_line _ Hw).
  rewrite (Rejects.not_EMPTY _ Hw), (Rejects.not_COMMENT _ Hw),
    (Rejects.not_ER_DIAGRAM_START _ Hw), Hin, Hdir,
    (Rejects.not_ENTITY_BLOCK_END _ Hw), Hblock, Hcur.
  cbn [orb negb].
  rewrite (AttributeRoundTrip.attribute_line_exec a Ha).
  rewrite (AttributeRoundTrip.attribute_of_captures a Ha). reflexivity.
Qed.


Lemma attribute_line_extends_the_block_witness :
  step open_block (attribute_line keyed_attribute)
  = mkState [] [] [] true (Some (mkEntity "A" None [keyed_attribute])) true 3.
Proof.
  apply (attribute_line_extends_the_block open_block (mkEntity "A" None [])
           keyed_attribute); try reflexivity.
  repeat split; reflexivity.
Defined.


(** X20.  A line that reads as a direction statement is skipped wherever it
    stands once the header is seen, inside an open block too: the attribute
    whose type is the word direction and whose name is one of the four
    directions is never recorded, and no error tells so. *)
Theorem direction_line_is_skipped (st : ParserState) (rawLine : string) :
  inERDiagram st = true ->
  Re.test PATTERNS.DIRECTION (Js.trim rawLine) = true ->
  step st rawLine
  = mkState (entities st) (relationships st) (errors st) true
      (currentEntity st) (inEntityBlock st) (S (lineNumber st)).
Proof.
  intros Hin Hdir. unfold step. rewrite Hin, Hdir. cbn [negb].
  destruct (Re.test PATTERNS.EMPTY (Js.trim rawLine)
            || Re.test PATTERNS.COMMENT (Js.trim rawLine)); [reflexivity|].
  destruct (Re.test PATTERNS.ER_DIAGRAM_START (Js.trim rawLine)); reflexivity.
Qed.

Lemma direction_line_is_skipped_witness :
  writable_attribute direction_attribute
  /\ step open_block (attribute_line direction_attribute)
     = mkState [] [] [] true (Some (mkEntity "A" None [])) true 3.
Proof.
  split; [repeat split; reflexivity|].
  apply (direction_line_is_skipped open_block
           (attribute_line direction_attribute)); reflexivity.
Defined.

(** ** The names and types of the GraphQL schema *)

Module GraphQLFacts.
Import TextFacts.

Lemma upper_of_no_separator (c : ascii) :
  is_name_separator c = false ->
  all_chars (fun x => negb (is_name_separator x)) (upper_of c) = true.
Proof. NormalFacts.by_cases_on_char c. Qed.

Lemma capitalize_after_separators_clean (after_run : bool) (s : string) :
  all_chars (fun x => negb (is_name_separator x))
            (capitalize_after_separators after_run s) = true.
Proof.
  revert after_run. induction s as [|c s IH]; intros after_run; [reflexivity|].
  cbn [capitalize_after_separators].
  destruct (is_name_separator c) eqn:E; [apply IH|].
  destruct after_run.
  - rewrite all_chars_append, (upper_of_no_separator c E), IH. reflexivity.
  - cbn [all_chars]. rewrite E, IH. reflexivity.
Qed.

Lemma capitalize_first_clean (s : string) :
  all_chars (fun x => negb (is_name_separator x)) s = true ->
  all_chars (fun x => negb (is_name_separator x)) (capitalize_first s) = true.
Proof.
  destruct s as [|c s]; [reflexivity|]. intros H. pose proof H as H'.
  cbn [all_chars] in H'. apply andb_prop in H'. destruct H' as [Hc Hs].
  apply negb_true_iff in Hc.
  unfold capitalize_first. destruct (Js.is_line_terminator c); [assumption|].
  rewrite all_chars_append, (upper_of_no_separator c Hc), Hs. reflexivity.
Qed.

(** Without separators the first replacement changes nothing. *)
Lemma capitalize_after_separators_fixed (s : string) :
  all_chars (fun x => negb (is_name_separator x)) s = true ->
  capitalize_after_separators false s = s.
Proof.
  induction s as [|c s IH]; [reflexivity|]. intros H.
  cbn [all_chars] in H. apply andb_prop in H. destruct H as [Hc Hs].
  apply negb_true_iff in Hc. cbn [capitalize_after_separators].
  rewrite Hc, (IH Hs). reflexivity.
Qed.

Lemma no_separator_no_terminator (c : ascii) :
  is_name_separator c = false -> Js.is_line_terminator c = false.
Proof. NormalFacts.by_cases_on_char c. Qed.

(** The upper case of a character starts with a character that is its own
    upper case. *)
Lemma upper_of_stable (c : ascii) :
  upper_in_range c = true ->
  is_name_separator c = false ->
  exists d rest,
    upper_of c = String d rest
    /\ upper_of d = String d EmptyString
    /\ is_name_separator d = false.
Proof.
  destruct c as [[|] [|] [|] [|] [|] [|] [|] [|]]; intros H Hsep;
    try discriminate H; try discriminate Hsep; eexists _, _; repeat split.
Qed.

Lemma capitalize_first_idempotent (s : string) :
  all_chars (fun x => negb (is_name_separator x)) s = true ->
  all_chars upper_in_range s = true ->
  capitalize_first (capitalize_first s) = capitalize_first s.
Proof.
  destruct s as [|c s]; [reflexivity|]. intros Hsep Hup.
  cbn [all_chars] in Hsep, Hup.
  apply andb_prop in Hsep. destruct Hsep as [Hc _].
  apply andb_prop in Hup. destruct Hup as [Hu _].
  apply negb_true_iff in Hc.
  unfold capitalize_first at 2 3.
  rewrite (no_separator_no_terminator c Hc).
  destruct (upper_of_stable c Hu Hc) as [d [rest [E [Ed Hd]]]].
  rewrite E. cbn [append capitalize_first].
  rewrite (no_separator_no_terminator d Hd), Ed. reflexivity.
Qed.

Lemma upper_of_in_range (c : ascii) :
  upper_in_range c = true -> all_chars upper_in_range (upper_of c) = true.
Proof. NormalFacts.by_cases_on_char c. Qed.

Lemma capitalize_after_separators_in_range (after_run : bool) (s : string) :
  all_chars upper_in_range s = true ->
  all_chars upper_in_range (capitalize_after_separators after_run s) = true.
Proof.
  revert after_run. induction s as [|c s IH]; intros after_run H;
    [reflexivity|].
  cbn [all_chars] in H. apply andb_prop in H. destruct H as [Hc Hs].
  cbn [capitalize_after_separators].
  destruct (is_name_separator c); [apply IH; assumption|].
  destruct after_run.
  - rewrite all_chars_append, (upper_of_in_range c Hc), (IH _ Hs). reflexivity.
  - cbn [all_chars]. rewrite Hc, (IH _ Hs). reflexivity.
Qed.

Lemma lower_upper_first (c : ascii) :
  upper_in_range c = true ->
  is_name_separator c = false ->
  exists d rest,
    upper_of c = String d rest
    /\ upper_of (Js.lower_char d) = String d EmptyString
    /\ is_name_separator (Js.lower_char d) = false.
Proof.
  destruct c as [[|] [|] [|] [|] [|] [|] [|] [|]]; intros H Hsep;
    try discriminate H; try discriminate Hsep; eexists _, _; repeat split.
Qed.

End GraphQLFacts.

(** X21.  For a name whose letters have their upper case in the range of the
    model, the type name of an entity holds no hyphen, no underscore and no
    white space; [toTypeName] applied to a type name gives that type name
    again; and the type name of the camel-case name is the type name. *)
Theorem toTypeName_has_no_separator (entityName : string) :
  all_chars upper_in_range entityName = true ->
  all_chars (fun c => negb (is_name_separator c)) (toTypeName entityName) = true
  /\ toTypeName (toTypeName entityName) = toTypeName entityName
  /\ toTypeName (toCamelCase entityName) = toTypeName entityName.
Proof.
  intros Hup.
  pose proof (GraphQLFacts.capitalize_after_separators_clean false entityName)
    as Hclean.
  pose proof (GraphQLFacts.capitalize_after_separators_in_range
                false entityName Hup) as Hrange.
  split; [|split].
  - apply GraphQLFacts.capitalize_first_clean. exact Hclean.
  - unfold toTypeName.
    rewrite (GraphQLFacts.capitalize_after_separators_fixed
               (capitalize_first _))
      by (apply GraphQLFacts.capitalize_first_clean; exact Hclean).
    apply GraphQLFacts.capitalize_first_idempotent; assumption.
  - unfold toCamelCase, toTypeName.
    destruct (capitalize_after_separators false entityName) as [|c s];
      [reflexivity|].
    cbn [all_chars] in Hclean, Hrange.
    apply andb_prop in Hclean. destruct Hclean as [Hc Hs].
    apply andb_prop in Hrange. destruct Hrange as [Hu _].
    apply negb_true_iff in Hc.
    unfold capitalize_first at 2 3.
    rewrite (GraphQLFacts.no_separator_no_terminator c Hc).
    destruct (GraphQLFacts.lower_upper_first c Hu Hc)
      as [d [rest [E [Ed Hd]]]].
    rewrite E. cbn [append].
    assert (Hrest : all_chars (fun x => negb (is_name_separator x))
                              (rest ++ s) = true).
    { pose proof (GraphQLFacts.upper_of_no_separator c Hc) as Hall.
      rewrite E in Hall. cbn [all_chars] in Hall.
      apply andb_prop in Hall. destruct Hall as [_ Hall].
      rewrite TextFacts.all_chars_append, Hall, Hs. reflexivity. }
    cbn [capitalize_after_separators]. rewrite Hd.
    rewrite (GraphQLFacts.capitalize_after_separators_fixed _ Hrest).
    unfold capitalize_first.
    rewrite (GraphQLFacts.no_separator_no_terminator _ Hd), Ed. reflexivity.
Qed.

Lemma toTypeName_has_no_separator_witness :
  all_chars (fun c => negb (is_name_separator c)) (toTypeName "order-item")
  = true
  /\ toTypeName (toTypeName "order-item") = toTypeName "order-item"
  /\ toTypeName (toCamelCase "order-item") = toTypeName "order-item".
Proof. apply toTypeName_has_no_separator. reflexivity. Defined.

(** X22.  Outside a block, the block of an entity (its first line with the
    name and the alias, one line for each attribute, the closing brace) stores
    the entity under its name
    and replaces what the table held under that name: the attributes of an
    earlier block of the same name are not kept.  The other entities, the
    relationships and the errors stay as they were, and the block is closed. *)
Theorem entity_block_replaces (st : ParserState) (e : Entity) :
  inERDiagram st = true -> inEntityBlock st = false ->
  plain_entity e ->
  let st' := run st (entity_lines e) in
  entities st' = EntityMap.set (ent_name e) e (entities st)
  /\ EntityMap.get (ent_name e) (entities st') = Some e
  /\ (forall k, k <> ent_name e ->
        EntityMap.get k (entities st') = EntityMap.get k (entities st))
  /\ relationships st' = relationships st
  /\ errors st' = errors st
  /\ currentEntity st' = None
  /\ inEntityBlock st' = false.
Proof.
  intros Hin Hblock He.
  destruct (RoundTrip.run_entity st e Hin Hblock He) as [n Hn].
  cbv zeta. rewrite Hn. cbn [entities relationships errors currentEntity
                              inEntityBlock].
  split; [reflexivity|]. split; [apply Steps.get_set_same|].
  split; [intros k Hk; apply Steps.get_set_other; exact Hk|].
  repeat split.
Qed.

Lemma entity_block_replaces_witness :
  let st' := run declared_customer (entity_lines CUSTOMER) in
  entities st'
  = EntityMap.set (ent_name CUSTOMER) CUSTOMER (entities declared_customer)
  /\ EntityMap.get (ent_name CUSTOMER) (entities st') = Some CUSTOMER
  /\ (forall k, k <> ent_name CUSTOMER ->
        EntityMap.get k (entities st')
        = EntityMap.get k (entities declared_customer))
  /\ relationships st' = relationships declared_customer
  /\ errors st' = errors declared_customer
  /\ currentEntity st' = None
  /\ inEntityBlock st' = false.
Proof.
  apply (entity_block_replaces declared_customer CUSTOMER);
    [reflexivity|reflexivity|].
  repeat constructor; reflexivity.
Defined.

(** X23.  Outside a block, the line of a relationship between two identifiers
    adds the relationship and declares each of the two entities that the table
    does not hold yet, without attributes, the first one first; an entity that
    the table holds already is left as it is, with its attributes. *)
Theorem relationship_line_declares_entities (st : ParserState) (r : Relationship) :
  inERDiagram st = true -> inEntityBlock st = false ->
  is_identifier (firstEntity r) = true ->
  is_identifier (secondEntity r) = true ->
  proper_relationship r -> plain_label (label r) ->
  step st (relationship_line r)
  = mkState
      (ensure (secondEntity r) (mkEntity (secondEntity r) None [])
         (ensure (firstEntity r) (mkEntity (firstEntity r) None [])
            (entities st)))
      (relationships st ++ [r])%list (errors st) true
      (currentEntity st) false (S (lineNumber st))
  /\ (forall k e,
        EntityMap.get k (entities st) = Some e ->
        EntityMap.get k (entities (step st (relationship_line r))) = Some e)
  /\ In (firstEntity r)
        (EntityMap.keys (entities (step st (relationship_line r))))
  /\ In (secondEntity r)
        (EntityMap.keys (entities (step st (relationship_line r)))).
Proof.
  intros Hin Hblock H1 H2 Hproper Hlabel.
  rewrite (Steps.step_relationship_any st r Hin Hblock H1 H2 Hproper Hlabel).
  cbn [entities]. split; [reflexivity|]. split; [|split].
  - intros k e Hk. apply Steps.get_ensure, Steps.get_ensure. exact Hk.
  - apply EntityMapFacts.ensure_keeps, EntityMapFacts.ensure_has.
  - apply EntityMapFacts.ensure_has.
Qed.

Lemma relationship_line_declares_entities_witness :
  step declared_customer (relationship_line customer_places_order)
  = mkState
      [("CUSTOMER", mkEntity "CUSTOMER" None [mkAttribute "old" "int" [] None]);
       ("ORDER", mkEntity "ORDER" None [])]
      [customer_places_order] [] true None false 6
  /\ (forall k e,
        EntityMap.get k (entities declared_customer) = Some e ->
        EntityMap.get k
          (entities (step declared_customer
                       (relationship_line customer_places_order))) = Some e)
  /\ In "CUSTOMER"
        (EntityMap.keys
           (entities (step declared_customer
                        (relationship_line customer_places_order))))
  /\ In "ORDER"
        (EntityMap.keys
           (entities (step declared_customer
                        (relationship_line customer_places_order)))).
Proof.
  apply (relationship_line_declares_entities declared_customer
           customer_places_order); try reflexivity.
  - split; eexists; reflexivity.
  - repeat split; try reflexivity. discriminate.
Defined.

(** ** Lines outside of a block *)

Module NoBlock.

Lemma no_block_step (st : ParserState) (rawLine : string) :
  opens_block rawLine = false -> no_block_yet st ->
  no_block_yet (step st rawLine).
Proof.
  unfold opens_block. intros Hopen [Hblock [Hcur [Herr Hattrs]]]. unfold step.
  destruct (Re.test PATTERNS.EMPTY (Js.trim rawLine)
            || Re.test PATTERNS.COMMENT (Js.trim rawLine));
    [repeat split; assumption|].
  destruct (Re.test PATTERNS.ER_DIAGRAM_START (Js.trim rawLine));
    [repeat split; assumption|].
  destruct (negb (inERDiagram st)); [repeat split; assumption|].
  destruct (Re.test PATTERNS.DIRECTION (Js.trim rawLine));
    [repeat split; assumption|].
  destruct (Re.test PATTERNS.ENTITY_BLOCK_END (Js.trim rawLine)).
  { rewrite Hcur. repeat split; assumption. }
  rewrite Hblock.
  destruct (Re.exec PATTERNS.ENTITY_BLOCK_START (Js.trim rawLine));
    [discriminate|].
  destruct (Re.exec PATTERNS.RELATIONSHIP (Js.trim rawLine)) as [m|].
  { repeat split; try assumption. cbn [entities].
    apply (ensure_Forall (fun e => ent_attributes e = [])); [reflexivity|].
    apply (ensure_Forall (fun e => ent_attributes e = []));
      [reflexivity|assumption]. }
  destruct (Re.exec PATTERNS.STANDALONE_ENTITY (Js.trim rawLine)) as [m|].
  { repeat split; try assumption. cbn [entities].
    apply (ensure_Forall (fun e => ent_attributes e = []));
      [reflexivity|assumption]. }
  repeat split; assumption.
Qed.

Lemma no_block_run (lines : list string) (st : ParserState) :
  forallb (fun l => negb (opens_block l)) lines = true ->
  no_block_yet st -> no_block_yet (run st lines).
Proof.
  revert st. induction lines as [|l lines IH]; intros st Hall Hst;
    [assumption|].
  simpl in Hall. apply andb_prop in Hall. destruct Hall as [Hl Hall].
  apply negb_true_iff in Hl.
  change (run st (l :: lines)) with (run (step st l) lines).
  apply IH; [assumption|]. apply no_block_step; assumption.
Qed.

End NoBlock.

(** X24.  A line outside a block is never an error: when no line of the input
    opens a block, the parse succeeds whatever the lines hold, and the entities
    it finds (those of the relationship lines and of the lines that hold a
    name alone) have no attributes. *)
Theorem input_without_block_has_no_error (input : string) :
  forallb (fun l => negb (opens_block l)) (Js.split Js.LF input) = true ->
  success (parseERDiagram input) = true
  /\ result_errors (parseERDiagram input) = None
  /\ exists s,
       schema (parseERDiagram input) = Some s
       /\ Forall (fun e => ent_attributes e = []) (schema_entities s).
Proof.
  intros H. unfold parseERDiagram, parseLines.
  assert (Hrun : no_block_yet (run initial (Js.split Js.LF input))).
  { apply NoBlock.no_block_run; [exact H|].
    repeat split. constructor. }
  destruct Hrun as [Hblock [Hcur [Herr Hattrs]]].
  unfold result_of, close. rewrite Herr, Hcur. cbn [List.length Nat.eqb Nat.ltb
    Nat.leb success result_errors schema].
  repeat split. eexists. split; [reflexivity|].
  cbn [schema_entities]. unfold EntityMap.values. rewrite Forall_map.
  exact Hattrs.
Qed.

Lemma input_without_block_witness :
  success (parseERDiagram stray_lines) = true
  /\ result_errors (parseERDiagram stray_lines) = None
  /\ exists s,
       schema (parseERDiagram stray_lines) = Some s
       /\ Forall (fun e => ent_attributes e = []) (schema_entities s).
Proof. apply input_without_block_has_no_error. vm_compute. reflexivity. Defined.

(** X25.  A block that the input leaves open is stored all the same: without
    its closing brace, the block of an entity at the end of the lines gives
    the result that it gives with the brace. *)
Theorem unterminated_block_is_stored (st : ParserState) (e : Entity) :
  inERDiagram st = true -> inEntityBlock st = false ->
  plain_entity e ->
  result_of (run st (block_start_line (ent_name e) (ent_alias e)
                     :: map attribute_line (ent_attributes e)))
  = result_of (run st (entity_lines e))
  /\ schema (result_of (run st (entity_lines e)))
     = Some (mkSchema
               (EntityMap.values
                  (EntityMap.set (ent_name e) e (entities st)))
               (relationships st)).
Proof.
  intros Hin Hblock He.
  destruct (RoundTrip.run_entity st e Hin Hblock He) as [n Hn]. rewrite Hn.
  destruct He as [Hname [Halias Hattrs]].
  rewrite RoundTrip.run_cons,
    (Steps.step_block_start st _ _ Hin Hblock Hname Halias).
  edestruct (RoundTrip.run_attributes (ent_attributes e)
               (mkState (entities st) (relationships st) (errors st) true
                  (Some (mkEntity (ent_name e) (ent_alias e) [])) true
                  (S (lineNumber st)))) as [n' Hn'];
    [reflexivity|reflexivity|reflexivity|exact Hattrs|].
  cbn [entities relationships errors ent_name ent_alias ent_attributes app]
    in Hn'.
  rewrite Hn'. unfold result_of, close.
  cbn [entities relationships errors currentEntity ent_name].
  destruct e as [name alias attrs]. split; reflexivity.
Qed.

Lemma unterminated_block_witness :
  result_of (run declared_customer
               (block_start_line (ent_name aliased_person)
                  (ent_alias aliased_person)
                :: map attribute_line (ent_attributes aliased_person)))
  = result_of (run declared_customer (entity_lines aliased_person))
  /\ schema (result_of (run declared_customer (entity_lines aliased_person)))
     = Some (mkSchema
               (EntityMap.values
                  (EntityMap.set (ent_name aliased_person) aliased_person
                     (entities declared_customer)))
               (relationships declared_customer)).
Proof.
  apply (unterminated_block_is_stored declared_customer aliased_person);
    [reflexivity|reflexivity|].
  split; [reflexivity|]. split.
  - repeat split; try reflexivity. discriminate.
  - repeat constructor; reflexivity.
Defined.

(** X26.  An asterisk in front of the name of an attribute marks a primary
    key: the line of a writable attribute with an asterisk before the name is
    taken by the attribute pattern and read back as that attribute, name
    without the asterisk, with PK put in front of its keys unless PK is among
    them already. *)
Theorem starred_attribute_is_primary_key (a : Attribute) :
  writable_attribute a ->
  exists m,
    Re.exec PATTERNS.ATTRIBUTE (starred_line a) = Some m
    /\ attribute_of_match m
       = mkAttribute (attr_name a) (attr_type a)
           (if keys_include PK (attr_keys a) then attr_keys a
            else PK :: attr_keys a)
           (attr_comment a).
Proof.
  intros H. eexists. split.
  - apply AttributeRoundTrip.starred_line_exec. exact H.
  - apply AttributeRoundTrip.attribute_of_starred. exact H.
Qed.

Lemma starred_attribute_witness :
  exists m,
    Re.exec PATTERNS.ATTRIBUTE
      (starred_line (mkAttribute "email" "string" [UK] None)) = Some m
    /\ attribute_of_match m = mkAttribute "email" "string" [PK; UK] None.
Proof.
  apply (starred_attribute_is_primary_key
           (mkAttribute "email" "string" [UK] None)).
  repeat split; reflexivity.
Defined.

(** X27.  The validator accepts every schema written as a diagram: for a
    schema that can be written, [validateERDiagram] on the text finds it valid
    and reports no error. *)
Theorem written_diagram_is_valid (s : DatabaseSchema) :
  plain_schema s ->
  validateERDiagram (write_diagram s) = mkValidation true [].
Proof.
  intros H. unfold validateERDiagram.
  rewrite (WrittenDiagram.written_result s H).
  rewrite (WrittenDiagram.written_header s).
  cbn [result_errors schema app].
  destruct H as [Hnd [_ Hrs]].
  assert (Hdup : duplicate_errors s = []).
  { unfold duplicate_errors. rewrite (duplicates_NoDup _ Hnd). reflexivity. }
  assert (Hdang : dangling_errors s = []).
  { apply dangling_errors_resolved. intros r Hr.
    pose proof (proj1 (Forall_forall _ _) Hrs r Hr) as [H1 [H2 _]].
    split; assumption. }
  rewrite Hdup, Hdang. reflexivity.
Qed.

Lemma written_diagram_is_valid_witness :
  validateERDiagram (write_diagram readme_schema) = mkValidation true [].
Proof.
  apply written_diagram_is_valid. split; [|split].
  - simpl. repeat constructor; simpl; intuition discriminate.
  - repeat constructor; reflexivity.
  - constructor; [|constructor].
    split; [left; reflexivity|].
    split; [right; left; reflexivity|].
    split; [split; eexists; reflexivity|].
    repeat split; try reflexivity. discriminate.
Defined.
